(** * Track dashboard: preprocessing, merge and cross-view coordination

    A shallow embedding of the data path of the Spotify track dashboard
    ([utils/preprocess.ts], [components/Dashboard.tsx] and the three views)
    together with the properties its specification states about it.

    Modelling conventions.
    - A JavaScript string is a [string] of 8-bit characters: the ASCII
      fragment.  White space is the ASCII part of the ECMAScript
      [WhiteSpace] and [LineTerminator] classes.
    - A JavaScript number is [NaN], an infinity, or a finite value kept
      exact: a rational where the code parses text or does arithmetic on
      rationals, a real for the result of [Math.log10].  A numeric literal
      beyond the range of binary64 is an infinity; rounding inside the
      range and the sign of zero are not modelled.
    - An object ([any], a CSV row, a [TrackRow]) is a finite map from
      property names to values; a property holding [undefined] is present.
    - A [Map] or [Set] is the list of its entries in insertion order. *)

From Stdlib Require Import ZArith QArith Qabs Qround Qreals Reals Lra Lia List String Ascii.
From Stdlib Require OrderedTypeEx.
From stdpp Require Import base list strings gmap sorting pretty.

Open Scope string_scope.
Open Scope list_scope.

(** ** Strings *)

Module Str.

Definition is_ws (c : ascii) : bool :=
  let n := nat_of_ascii c in
  (((9 <=? n) && (n <=? 13)) || (n =? 32))%nat.

(** [String.prototype.trimStart] *)
Fixpoint trimStart (s : string) : string :=
  match s with
  | EmptyString => EmptyString
  | String c s' => if is_ws c then trimStart s' else s
  end.

(** [String.prototype.trimEnd]: the recursive call is empty exactly when
    the rest of the string is white space. *)
Fixpoint trimEnd (s : string) : string :=
  match s with
  | EmptyString => EmptyString
  | String c s' =>
      match trimEnd s' with
      | EmptyString => if is_ws c then EmptyString else String c EmptyString
      | r => String c r
      end
  end.

(** [String.prototype.trim] *)
Definition trim (s : string) : string := trimEnd (trimStart s).

(** [s.replace(/^[cs]/, empty)] for a character class [p]. *)
Definition strip_first (p : ascii → bool) (s : string) : string :=
  match s with
  | EmptyString => EmptyString
  | String c s' => if p c then s' else s
  end.

(** [s.replace(/[cs]$/, empty)] for a character class [p]. *)
Fixpoint strip_last (p : ascii → bool) (s : string) : string :=
  match s with
  | EmptyString => EmptyString
  | String c EmptyString => if p c then EmptyString else s
  | String c s' => String c (strip_last p s')
  end.

(** [s.split(sep)] for a one-character separator; the empty string
    splits into one empty piece. *)
Fixpoint split (sep : ascii) (s : string) : list string :=
  match s with
  | EmptyString => [EmptyString]
  | String c s' =>
      if Ascii.eqb c sep then EmptyString :: split sep s'
      else match split sep s' with
           | p :: ps => String c p :: ps
           | [] => [String c EmptyString]
           end
  end.

Definition lower (c : ascii) : ascii :=
  let n := nat_of_ascii c in
  if ((65 <=? n) && (n <=? 90))%nat then ascii_of_nat (n + 32) else c.

(** [String.prototype.toLowerCase] *)
Fixpoint toLowerCase (s : string) : string :=
  match s with
  | EmptyString => EmptyString
  | String c s' => String (lower c) (toLowerCase s')
  end.

(** [s.slice(0, n)] *)
Definition slice0 (n : nat) (s : string) : string := substring 0 n s.

Definition nonempty (s : string) : bool := negb (String.eqb s "").

End Str.

(** ** Genre extractor ([parseGenresTop]) *)

Definition is_lbracket (c : ascii) : bool := Ascii.eqb c "["%char.
Definition is_rbracket (c : ascii) : bool := Ascii.eqb c "]"%char.
Definition is_quote (c : ascii) : bool :=
  Ascii.eqb c "'"%char || Ascii.eqb c (ascii_of_nat 34).

(** [p.trim()] with one quote character, single or double, removed at
    each end: the two [replace] calls of the [map] callback. *)
Definition clean_piece (p : string) : string :=
  Str.strip_last is_quote (Str.strip_first is_quote (Str.trim p)).

Definition parseGenresTop (genresStr : string) : string :=
  if negb (Str.nonempty genresStr) then "Unknown" else
  let s := Str.trim genresStr in
  if String.eqb s "[]" || String.eqb s "" then "Unknown" else
  let inner :=
    Str.trim (Str.strip_last is_rbracket (Str.strip_first is_lbracket s)) in
  if negb (Str.nonempty inner) then "Unknown" else
  let parts :=
    List.filter Str.nonempty (clean_piece <$> Str.split ","%char inner) in
  match parts with
  | p :: _ => p
  | [] => "Unknown"
  end.

(** The extractor without its second trim of the text between the
    brackets and without its early exit on an empty remainder: the form
    the proof of the refinement goes through. *)
Definition parseGenresTop_flat (input : string) : string :=
  let s := Str.trim input in
  if String.eqb s "" || String.eqb s "[]" then "Unknown" else
  let rest := Str.strip_last is_rbracket (Str.strip_first is_lbracket s) in
  let pieces := Str.split ","%char rest in
  let kept := List.filter Str.nonempty (clean_piece <$> pieces) in
  List.hd "Unknown" kept.

(** *** The extractor as the specification words it

    Written on lists of characters with the list library, apart from the
    string functions above. *)

(** The character [c] is one of [cs]. *)
Definition is_one_of (cs : list ascii) (c : ascii) : bool := bool_decide (c ∈ cs).

(** White space: tab, line feed, vertical tab, form feed, carriage
    return and space. *)
Definition blanks : list ascii := ascii_of_nat <$> [9; 10; 11; 12; 13; 32]%nat.

(** The quote characters: single (39) and double (34). *)
Definition quotes : list ascii := ascii_of_nat <$> [39; 34]%nat.

Fixpoint drop_blanks (l : list ascii) : list ascii :=
  match l with
  | c :: l' => if is_one_of blanks c then drop_blanks l' else l
  | [] => []
  end.

(** Trimmed: without the white space at either end. *)
Definition trimmed (l : list ascii) : list ascii :=
  reverse (drop_blanks (reverse (drop_blanks l))).

(** Without one leading character out of [cs]. *)
Definition without_first (cs : list ascii) (l : list ascii) : list ascii :=
  match l with
  | c :: l' => if is_one_of cs c then l' else l
  | [] => []
  end.

(** Without one trailing character out of [cs]. *)
Definition without_last (cs : list ascii) (l : list ascii) : list ascii :=
  reverse (without_first cs (reverse l)).

(** The pieces between the commas of [l], [cur] being the piece under
    way, last character first. *)
Fixpoint pieces_from (cur l : list ascii) : list (list ascii) :=
  match l with
  | c :: l' =>
      if is_one_of [","%char] c then reverse cur :: pieces_from [] l'
      else pieces_from (c :: cur) l'
  | [] => [reverse cur]
  end.

Definition parseGenresTop_spec (input : string) : string :=
  let s := trimmed (list_ascii_of_string input) in
  if bool_decide (s = [] ∨ s = ["["%char; "]"%char]) then "Unknown" else
  let remainder := without_last ["]"%char] (without_first ["["%char] s) in
  let cleaned :=
    (λ p, without_last quotes (without_first quotes (trimmed p)))
      <$> pieces_from [] remainder in
  match filter (λ p, p ≠ []) cleaned with
  | p :: _ => string_of_list_ascii p
  | [] => "Unknown"
  end.

(** A text between double quote characters. *)
Definition double_quoted (g : string) : string :=
  String (ascii_of_nat 34) (g ++ String (ascii_of_nat 34) "").

(** A text between a tab and a line feed. *)
Definition tabbed (g : string) : string :=
  String (ascii_of_nat 9) (g ++ String (ascii_of_nat 10) "").


(** ** Numbers *)

(** A finite number: an exact rational, or a real where no rational is
    known (logarithms). *)
Inductive fin := Rat (q : Q) | Real (r : R).

Inductive num := NaN | PInf | NInf | Fin (x : fin).

Definition fin_R (x : fin) : R :=
  match x with
  | Rat q => Q2R q
  | Real r => r
  end.

Definition fin_add (x y : fin) : fin :=
  match x, y with
  | Rat p, Rat q => Rat (Qred (p + q))
  | _, _ => Real (fin_R x + fin_R y)
  end.

Definition fin_opp (x : fin) : fin :=
  match x with
  | Rat p => Rat (- p)
  | Real r => Real (- r)
  end.

Definition fin_div (x y : fin) : fin :=
  match x, y with
  | Rat p, Rat q => Rat (Qred (p / q))
  | _, _ => Real (fin_R x / fin_R y)
  end.

Definition fin_ltb (x y : fin) : bool :=
  match x, y with
  | Rat p, Rat q => negb (Qle_bool q p)
  | _, _ => if Rlt_dec (fin_R x) (fin_R y) then true else false
  end.

Definition fin_eqb (x y : fin) : bool :=
  match x, y with
  | Rat p, Rat q => Qeq_bool p q
  | _, _ => if Req_dec_T (fin_R x) (fin_R y) then true else false
  end.

Definition fin_leb (x y : fin) : bool := negb (fin_ltb y x).

Definition fin_of_Z (z : Z) : fin := Rat (inject_Z z).
Definition num_of_Z (z : Z) : num := Fin (fin_of_Z z).

(** [a + b] on numbers *)
Definition num_add (a b : num) : num :=
  match a, b with
  | NaN, _ | _, NaN => NaN
  | PInf, NInf | NInf, PInf => NaN
  | PInf, _ | _, PInf => PInf
  | NInf, _ | _, NInf => NInf
  | Fin x, Fin y => Fin (fin_add x y)
  end.

Definition num_opp (a : num) : num :=
  match a with
  | NaN => NaN
  | PInf => NInf
  | NInf => PInf
  | Fin x => Fin (fin_opp x)
  end.

(** [a - b] on numbers *)
Definition num_sub (a b : num) : num := num_add a (num_opp b).

(** [a <= b]; any comparison with [NaN] is false. *)
Definition num_leb (a b : num) : bool :=
  match a, b with
  | NaN, _ | _, NaN => false
  | NInf, _ | _, PInf => true
  | _, NInf | PInf, _ => false
  | Fin x, Fin y => fin_leb x y
  end.

(** [a === b] on numbers: [NaN] differs from itself. *)
Definition num_eqb (a b : num) : bool :=
  match a, b with
  | PInf, PInf | NInf, NInf => true
  | Fin x, Fin y => fin_eqb x y
  | _, _ => false
  end.

(** [a / b] for a finite non-zero divisor, the only use the code makes
    of division; other divisors follow IEEE with a positive zero. *)
Definition num_div (a b : num) : num :=
  match a, b with
  | NaN, _ | _, NaN => NaN
  | Fin x, Fin y =>
      if fin_eqb y (fin_of_Z 0) then
        if fin_eqb x (fin_of_Z 0) then NaN
        else if fin_ltb x (fin_of_Z 0) then NInf else PInf
      else Fin (fin_div x y)
  | Fin _, _ => num_of_Z 0
  | PInf, Fin y => if fin_ltb y (fin_of_Z 0) then NInf else PInf
  | NInf, Fin y => if fin_ltb y (fin_of_Z 0) then PInf else NInf
  | _, _ => NaN
  end.

(** The sign a sort comparator's result is read for: [NaN] counts as 0. *)
Definition num_sgn (a : num) : Z :=
  match a with
  | NaN => 0
  | PInf => 1
  | NInf => -1
  | Fin x =>
      if fin_ltb x (fin_of_Z 0) then -1
      else if fin_ltb (fin_of_Z 0) x then 1 else 0
  end.

(** The base-10 logarithm of a positive real. *)
Definition log10R (r : R) : R := (ln r / ln 10)%R.

(** [Math.log10] *)
Definition Math_log10 (a : num) : num :=
  match a with
  | NaN | NInf => NaN
  | PInf => PInf
  | Fin x =>
      if fin_ltb (fin_of_Z 0) x then Fin (Real (log10R (fin_R x)))
      else if fin_eqb x (fin_of_Z 0) then NInf
      else NaN
  end.

(** ** Values *)

Inductive value :=
| VUndef
| VNull
| VBool (b : bool)
| VNum (n : num)
| VStr (s : string).

(** [v == null]: [null] or [undefined] *)
Definition nullish (v : value) : bool :=
  match v with
  | VUndef | VNull => true
  | _ => false
  end.

(** [v ?? d] *)
Definition coalesce (v d : value) : value := if nullish v then d else v.

(** [Number.isFinite(v)]: no coercion, only finite numbers pass. *)
Definition Number_isFinite (v : value) : bool :=
  match v with
  | VNum (Fin _) => true
  | _ => false
  end.

Definition num_isFinite (n : num) : bool :=
  match n with
  | Fin _ => true
  | _ => false
  end.

(** [a === b] *)
Definition strict_eq (a b : value) : bool :=
  match a, b with
  | VUndef, VUndef | VNull, VNull => true
  | VBool x, VBool y => Bool.eqb x y
  | VNum x, VNum y => num_eqb x y
  | VStr x, VStr y => String.eqb x y
  | _, _ => false
  end.

(** ** Numeric literals in text: [StringToNumber] *)

Module NumLit.

Definition between (lo hi : nat) (c : ascii) : bool :=
  let n := nat_of_ascii c in ((lo <=? n) && (n <=? hi))%nat.

Definition dec_digit (c : ascii) : option Z :=
  if between 48 57 c then Some (Z.of_nat (nat_of_ascii c - 48)) else None.

Definition oct_digit (c : ascii) : option Z :=
  if between 48 55 c then Some (Z.of_nat (nat_of_ascii c - 48)) else None.

Definition bin_digit (c : ascii) : option Z :=
  if between 48 49 c then Some (Z.of_nat (nat_of_ascii c - 48)) else None.

Definition hex_digit (c : ascii) : option Z :=
  if between 48 57 c then Some (Z.of_nat (nat_of_ascii c - 48))
  else if between 97 102 c then Some (Z.of_nat (nat_of_ascii c - 87))
  else if between 65 70 c then Some (Z.of_nat (nat_of_ascii c - 55))
  else None.

(** The value of a string made of digits only, most significant first. *)
Fixpoint digits (dv : ascii → option Z) (base acc : Z) (s : string) : option Z :=
  match s with
  | EmptyString => Some acc
  | String c s' =>
      match dv c with
      | Some d => digits dv base (acc * base + d) s'
      | None => None
      end
  end.

(** Every character is a decimal digit. *)
Fixpoint all_dec (s : string) : bool :=
  match s with
  | EmptyString => true
  | String c s' =>
      match dec_digit c with
      | Some _ => all_dec s'
      | None => false
      end
  end.

(** One or more digits, nothing else. *)
Definition digits1 (dv : ascii → option Z) (base : Z) (s : string) : option Z :=
  match s with
  | EmptyString => None
  | _ => digits dv base 0 s
  end.

(** The longest prefix of decimal digits, and what follows it. *)
Fixpoint span_dec (s : string) : string * string :=
  match s with
  | EmptyString => (EmptyString, EmptyString)
  | String c s' =>
      match dec_digit c with
      | Some _ => let '(d, r) := span_dec s' in (String c d, r)
      | None => (EmptyString, s)
      end
  end.

(** [ExponentPart], optional: nothing, or [e]/[E], a sign, digits. *)
Definition exponent (s : string) : option Z :=
  match s with
  | EmptyString => Some 0%Z
  | String c s' =>
      if Ascii.eqb c "e"%char || Ascii.eqb c "E"%char then
        match s' with
        | String "+"%char d => digits1 dec_digit 10 d
        | String "-"%char d => Z.opp <$> digits1 dec_digit 10 d
        | d => digits1 dec_digit 10 d
        end
      else None
  end.

(** [StrUnsignedDecimalLiteral] without [Infinity]: the exact value. *)
Definition unsigned_decimal (s : string) : option Q :=
  let '(ip, r1) := span_dec s in
  match r1 with
  | String "."%char r1' =>
      let '(fp, r2) := span_dec r1' in
      if negb (Str.nonempty ip) && negb (Str.nonempty fp) then None
      else
        m ← digits dec_digit 10 0 (ip ++ fp)%string;
        e ← exponent r2;
        Some (Qred (inject_Z m * Qpower 10 (e - Z.of_nat (String.length fp))))
  | _ =>
      if negb (Str.nonempty ip) then None
      else
        m ← digits dec_digit 10 0 ip;
        e ← exponent r1;
        Some (Qred (inject_Z m * Qpower 10 e))
  end.

(** The least magnitude binary64 rounds to an infinity: 2^1024 - 2^970. *)
Definition overflow_threshold : Q := inject_Z (2 ^ 1024 - 2 ^ 970).

(** The number a literal of exact value [q] denotes: an infinity when
    [q] is out of the range of binary64, else [q] itself, unrounded. *)
Definition of_exact (q : Q) : num :=
  if Qle_bool overflow_threshold (Qabs q)
  then if Qle_bool 0 q then PInf else NInf
  else Fin (Rat q).

Definition signed_decimal (s : string) : option num :=
  let '(neg, u) :=
    match s with
    | String "+"%char u => (false, u)
    | String "-"%char u => (true, u)
    | _ => (false, s)
    end in
  if String.eqb u "Infinity" then Some (if neg then NInf else PInf)
  else
    q ← unsigned_decimal u;
    Some (of_exact (if neg then Qred (- q) else q)).

(** [NonDecimalIntegerLiteral]: [0x], [0o], [0b] and their capitals. *)
Definition non_decimal (s : string) : option num :=
  match s with
  | String "0"%char (String k d) =>
      let of_int z := of_exact (inject_Z z) in
      if Ascii.eqb k "x"%char || Ascii.eqb k "X"%char
      then of_int <$> digits1 hex_digit 16 d
      else if Ascii.eqb k "o"%char || Ascii.eqb k "O"%char
      then of_int <$> digits1 oct_digit 8 d
      else if Ascii.eqb k "b"%char || Ascii.eqb k "B"%char
      then of_int <$> digits1 bin_digit 2 d
      else None
  | _ => None
  end.

(** [StringToNumber]: white space is trimmed, the empty text is 0,
    anything that is not a numeric literal is [NaN]. *)
Definition to_number (s : string) : num :=
  let t := Str.trim s in
  if negb (Str.nonempty t) then num_of_Z 0
  else
    match non_decimal t with
    | Some n => n
    | None => default NaN (signed_decimal t)
    end.

End NumLit.

(** [Number(v)] *)
Definition Number (v : value) : num :=
  match v with
  | VUndef => NaN
  | VNull => num_of_Z 0
  | VBool b => num_of_Z (if b then 1 else 0)
  | VNum n => n
  | VStr s => NumLit.to_number s
  end.

(** [Boolean(v)] *)
Definition Boolean (v : value) : bool :=
  match v with
  | VUndef | VNull => false
  | VBool b => b
  | VNum NaN => false
  | VNum (Fin x) => negb (fin_eqb x (fin_of_Z 0))
  | VNum _ => true
  | VStr s => Str.nonempty s
  end.

(** ** Row normalizer ([preprocess.ts]) *)

Definition toNumber (x : value) (fallback : num) : num :=
  let v := Number x in
  if num_isFinite v then v else fallback.

Definition toBool (x : value) : bool :=
  match x with
  | VBool b => b
  | VStr s => String.eqb (Str.toLowerCase s) "true"
  | _ => Boolean x
  end.


(** [a >= b] *)
Definition num_geb (a b : num) : bool := num_leb b a.

#[global] Instance Q_eq_dec : EqDecision Q.
Proof. solve_decision. Defined.
#[global] Instance R_eq_dec : EqDecision R := Req_dec_T.
#[global] Instance fin_eq_dec : EqDecision fin.
Proof. solve_decision. Defined.
#[global] Instance num_eq_dec : EqDecision num.
Proof. solve_decision. Defined.
#[global] Instance value_eq_dec : EqDecision value.
Proof. solve_decision. Defined.

(** ** [Map]: entries in insertion order

    Keys are compared with Leibniz equality, which is [SameValueZero] on
    text, booleans, [null] and [undefined]: the keys of this program are
    track identifiers and genre labels. *)

Module JsMap.
Section Ops.
Context {K V : Type} `{EqDecision K}.

(** [m.get(k)] *)
Fixpoint get (k : K) (m : list (K * V)) : option V :=
  match m with
  | [] => None
  | (k', v) :: m' => if decide (k' = k) then Some v else get k m'
  end.

(** [m.set(k, v)]: an existing key keeps its place, a new one goes last. *)
Fixpoint set (k : K) (v : V) (m : list (K * V)) : list (K * V) :=
  match m with
  | [] => [(k, v)]
  | (k', v') :: m' =>
      if decide (k' = k) then (k, v) :: m' else (k', v') :: set k v m'
  end.

(** [m.values()] *)
Definition values (m : list (K * V)) : list V := m.*2.
End Ops.
End JsMap.

(** ** Objects *)

Abbreviation row := (gmap string value).

(** [r.k]: a missing property reads as [undefined]. *)
Definition get (r : row) (k : string) : value := default VUndef (r !! k).

(** [{ ...r, k1: v1, ..., kn: vn }] *)
Definition assign (r : row) (kvs : list (string * value)) : row :=
  foldl (λ o kv, <[kv.1 := kv.2]> o) r kvs.

(** [{ ...b, ...a }] where [b] may be [undefined] *)
Definition spread2 (b : option row) (a : row) : row := a ∪ default ∅ b.

Section Normalizer.

(** [new Date().getFullYear()] *)
Variable currentYear : Z.

(** [String(n)] for a number [n]; its digits play no part here. *)
Variable Number_toString : num → string.

(** [String(v)] *)
Definition String_of (v : value) : string :=
  match v with
  | VUndef => "undefined"
  | VNull => "null"
  | VBool b => if b then "true" else "false"
  | VNum n => Number_toString n
  | VStr s => s
  end.

Definition yearRaw (r : row) : num :=
  match get r "album_release_date" with
  | VStr d =>
      if (4 <=? String.length d)%nat then Number (VStr (Str.slice0 4 d))
      else NaN
  | _ => NaN
  end.

Definition year (r : row) : value :=
  let y := yearRaw r in
  if num_isFinite y && num_geb y (num_of_Z 1900)
     && num_leb y (num_add (num_of_Z currentYear) (num_of_Z 1))
  then VNum y else VUndef.

Definition ms (r : row) : num :=
  if negb (nullish (get r "track_duration_ms"))
  then toNumber (get r "track_duration_ms") NaN else NaN.

Definition minFromMs (r : row) : num :=
  if num_isFinite (ms r) then num_div (ms r) (num_of_Z 60000) else NaN.

Definition minFromCol (r : row) : num :=
  if negb (nullish (get r "track_duration_min"))
  then toNumber (get r "track_duration_min") NaN else NaN.

Definition followers (r : row) : num := toNumber (get r "artist_followers") (num_of_Z 0).

Definition followersLog (r : row) : num :=
  Math_log10 (num_add (followers r) (num_of_Z 1)).

Definition genreTop (r : row) : string :=
  parseGenresTop (String_of (coalesce (get r "artist_genres") (VStr ""))).

(** [Number.isFinite(n) ? n : undefined] *)
Definition finite_or_undef (n : num) : value :=
  if num_isFinite n then VNum n else VUndef.

(** The body of the [rows.map] callback. *)
Definition preprocessTrack (r : row) : row :=
  assign r
    [ ("track_number", VNum (toNumber (get r "track_number") (num_of_Z 0)));
      ("track_popularity", VNum (toNumber (get r "track_popularity") (num_of_Z 0)));
      ("explicit", VBool (toBool (get r "explicit")));
      ("artist_popularity", VNum (toNumber (get r "artist_popularity") (num_of_Z 0)));
      ("artist_followers", VNum (followers r));
      ("album_total_tracks", VNum (toNumber (get r "album_total_tracks") (num_of_Z 0)));
      ("track_duration_ms", finite_or_undef (ms r));
      ("track_duration_min", finite_or_undef (minFromCol r));
      ("release_year", year r);
      ("followers_log", VNum (followersLog r));
      ("duration_min",
        if num_isFinite (minFromCol r) then VNum (minFromCol r)
        else finite_or_undef (minFromMs r));
      ("genre_top", VStr (genreTop r)) ].

Definition preprocessTracks (rows : list row) : list row :=
  preprocessTrack <$> rows.

(** *** Merge stage ([Dashboard.load]) *)

(** [for (const r of B) map.set(r.track_id, r)] *)
Definition seed (B : list row) : list (value * row) :=
  foldl (λ m r, JsMap.set (get r "track_id") r m) [] B.

(** [for (const r of A) map.set(r.track_id, { ...map.get(r.track_id), ...r })] *)
Definition overlay (A : list row) (m : list (value * row)) : list (value * row) :=
  foldl (λ m r,
           JsMap.set (get r "track_id")
             (spread2 (JsMap.get (get r "track_id") m) r) m) m A.

(** The map the merge builds from the two normalized sources. *)
Definition merge_by_track_id (A B : list row) : list (value * row) :=
  overlay A (seed B).

(** The dataset [load] stores, from the rows of the two CSV files. *)
Definition load (a b : list row) : list row :=
  let A := preprocessTracks a in
  let B := preprocessTracks b in
  JsMap.values (merge_by_track_id A B).

End Normalizer.


(** ** [Array.prototype.sort]

    The comparator's result is read for its sign only.  ECMAScript asks
    for a stable sort, and for a consistent comparator the stable sorted
    permutation is unique: insertion from the right computes it. *)

Section Sort.
Context {A : Type} (cmp : A → A → Z).

Fixpoint sort_insert (x : A) (l : list A) : list A :=
  match l with
  | [] => [x]
  | y :: l' =>
      if (cmp x y <=? 0)%Z then x :: y :: l' else y :: sort_insert x l'
  end.

Fixpoint js_sort (l : list A) : list A :=
  match l with
  | [] => []
  | x :: l' => sort_insert x (js_sort l')
  end.
End Sort.

(** ** [Set]: members in insertion order *)

Module JsSet.
Section Ops.
Context {K : Type} `{EqDecision K}.

(** [s.has(x)] *)
Definition has (x : K) (s : list K) : bool := bool_decide (x ∈ s).

(** [s.add(x)] *)
Definition add (x : K) (s : list K) : list K :=
  if has x s then s else (s ++ [x])%list.

(** [new Set(l)] *)
Definition of_list (l : list K) : list K := foldl (λ s x, add x s) [] l.
End Ops.
End JsSet.

(** ** Top-K aggregator ([topKGenres]) *)

(** [d.genre_top ?? "Unknown"] *)
Definition genre_of (d : row) : value :=
  coalesce (get d "genre_top") (VStr "Unknown").

(** The counting pass over a list of labels:
    [counts.set(g, (counts.get(g) ?? 0) + 1)]. *)
Definition count_pass (labels : list value) : list (value * nat) :=
  foldl (λ counts g, JsMap.set g (default 0 (JsMap.get g counts) + 1) counts)
        [] labels.

(** [(a, b) => b[1] - a[1]] *)
Definition by_count_desc (a b : value * nat) : Z := Z.of_nat b.2 - Z.of_nat a.2.

(** [new Set(sorted.slice(0, k).map(x => x[0]))] over a list of labels *)
Definition top_labels (labels : list value) (k : nat) : list value :=
  let sorted := js_sort by_count_desc (count_pass labels) in
  JsSet.of_list ((take k sorted).*1).

Definition topKGenres (data : list row) (k : nat) : list value :=
  top_labels (genre_of <$> data) k.

(** ** Selection state ([Dashboard]) *)

Record selection := Selection {
  selectedYear : option num;
  selectedGenre : option string
}.

Definition no_selection : selection := Selection None None.

Definition year_value (y : option num) : value :=
  match y with Some n => VNum n | None => VNull end.
Definition genre_value (g : option string) : value :=
  match g with Some s => VStr s | None => VNull end.

(** [year === selectedYear && genre === selectedGenre] *)
Definition same (s : selection) (year : option num) (genre : option string) : bool :=
  strict_eq (year_value year) (year_value (selectedYear s))
  && strict_eq (genre_value genre) (genre_value (selectedGenre s)).

(** The [onSelect] handler the dashboard hands to the heatmap: both
    setters run in the one call, on the state of the current render. *)
Definition onSelect (s : selection) (year : option num) (genre : option string)
  : selection :=
  {| selectedYear := if same s year genre then None else year;
     selectedGenre := if same s year genre then None else genre |}.

(** Two numbers are equal as numbers: an infinity to itself, two finite
    numbers of the same value; [NaN] is equal to nothing. *)
Definition equal_numbers (a b : num) : Prop :=
  match a, b with
  | Fin x, Fin y => fin_R x = fin_R y
  | PInf, PInf | NInf, NInf => True
  | _, _ => False
  end.

(** The incoming pair is the selected pair, said without the handler's
    test: the same genre, or none on both sides, and the same year, or
    none on both sides. *)
Definition selected_pair (s : selection) (year : option num) (genre : option string)
  : Prop :=
  genre = selectedGenre s
  ∧ match year, selectedYear s with
    | None, None => True
    | Some a, Some b => equal_numbers a b
    | _, _ => False
    end.

(** ** The views' row subsets *)

(** [top.has(g) ? g : "Other"] *)
Definition bucket (top : list value) (g : value) : value :=
  if JsSet.has g top then g else VStr "Other".

(** [rows.filter(d => d.release_year === selectedYear)] when a year is selected *)
Definition filter_year (selY : option num) (rows : list row) : list row :=
  match selY with
  | Some y => List.filter (λ d, strict_eq (get d "release_year") (VNum y)) rows
  | None => rows
  end.

(** The genre filter of the scatter and parallel-coordinates views: the
    top set is recomputed on the rows that reach the filter. *)
Definition filter_genre (selG : option string) (rows : list row) : list row :=
  match selG with
  | Some g =>
      let top := topKGenres rows 10 in
      List.filter (λ d, strict_eq (bucket top (genre_of d)) (VStr g)) rows
  | None => rows
  end.

(** *** Scatter view *)

Definition scatter_valid (d : row) : bool :=
  negb (nullish (get d "followers_log"))
  && Number_isFinite (get d "followers_log")
  && negb (nullish (get d "track_popularity"))
  && Number_isFinite (get d "track_popularity").

(** The rows the genre filter of the scatter view sees. *)
Definition scatter_rows (data : list row) (selY : option num) : list row :=
  filter_year selY (List.filter scatter_valid data).

(** [filtered] of [ScatterView] *)
Definition scatter_filtered (data : list row) (s : selection) : list row :=
  take 2500 (filter_genre (selectedGenre s) (scatter_rows data (selectedYear s))).

(** *** Parallel-coordinates view *)

Definition pc_valid (d : row) : bool :=
  negb (nullish (get d "followers_log")) && negb (nullish (get d "duration_min")).

Definition pc_rows (data : list row) (selY : option num) : list row :=
  filter_year selY (List.filter pc_valid data).

(** The rows left after the three filters. *)
Definition pc_filtered (data : list row) (s : selection) : list row :=
  filter_genre (selectedGenre s) (pc_rows data (selectedYear s)).

(** [d.track_popularity ?? 0], as the subtraction reads it *)
Definition popularity (d : row) : num :=
  Number (coalesce (get d "track_popularity") (VNum (num_of_Z 0))).

(** [(a, b) => (b.track_popularity ?? 0) - (a.track_popularity ?? 0)] *)
Definition by_popularity_desc (a b : row) : Z :=
  num_sgn (num_sub (popularity b) (popularity a)).

(** [sample] of [ParallelCoordsView] *)
Definition sample (data : list row) (s : selection) : list row :=
  take 200 (js_sort by_popularity_desc (pc_filtered data s)).

(** *** Heatmap view *)

Definition hm_valid (d : row) : bool :=
  negb (nullish (get d "release_year")) && negb (nullish (get d "genre_top")).

Definition hm_filtered (data : list row) : list row := List.filter hm_valid data.

(** [d3.rollups(rows, v => v.length, key)]: the groups in order of first
    encounter of their key, each reduced to its size. *)
Definition d3_group {V} (key : V → value) (rows : list V) : list (value * list V) :=
  foldl (λ m d, JsMap.set (key d) (default [] (JsMap.get (key d) m) ++ [d])%list m)
        [] rows.

Definition d3_rollups_length {V} (key : V → value) (rows : list V)
  : list (value * nat) :=
  (λ kv, (kv.1, length kv.2)) <$> d3_group key rows.

(** [(a, b) => d3.descending(a[1], b[1])] *)
Definition d3_descending (a b : value * nat) : Z :=
  if (b.2 <? a.2)%nat then -1 else if (a.2 <? b.2)%nat then 1 else 0.

(** [top] of [HeatmapView]: computed across all years. *)
Definition hm_top (data : list row) : list value :=
  let counts := d3_rollups_length (λ d, get d "genre_top") (hm_filtered data) in
  JsSet.of_list ((take 10 (js_sort d3_descending counts)).*1).

Section HeatmapAxis.

(** [a.localeCompare(b)]: the host's collation, read for its sign. *)
Variable localeCompare : string → string → Z.

(** The comparator of the genre axis.  Labels are text ([genres] is a
    [string[]]); on anything else [localeCompare] does not exist. *)
Definition axis_cmp (a b : value) : Z :=
  if strict_eq a (VStr "Other") then 1
  else if strict_eq b (VStr "Other") then -1
  else match a, b with
       | VStr x, VStr y => localeCompare x y
       | _, _ => 0
       end.

(** [genres] of [HeatmapView] *)
Definition hm_genres (data : list row) : list value :=
  let top := hm_top data in
  js_sort axis_cmp
    (JsSet.of_list ((λ d, bucket top (get d "genre_top")) <$> hm_filtered data)).

End HeatmapAxis.


(** ** Sample inputs *)

(** A stand-in for [String(n)] on numbers, for rows whose [artist_genres]
    is text or missing: the printer is then never consulted. *)
Definition no_digits (n : num) : string := "NaN".

(** A CSV row with the one column [artist_followers]. *)
Definition row_followers (text : string) : row :=
  {[ "artist_followers" := VStr text ]}.

(** The last value a list of property assignments gives a name. *)
Fixpoint assigned (k : string) (kvs : list (string * value)) : option value :=
  match kvs with
  | [] => None
  | (k', v) :: kvs' =>
      match assigned k kvs' with
      | Some w => Some w
      | None => if String.eqb k' k then Some v else None
      end
  end.

(** A CSV row with the one column [album_release_date]. *)
Definition row_released (date : string) : row :=
  {[ "album_release_date" := VStr date ]}.

(** The first four characters of a date read as a decimal integer, the
    way the specification words the release year. *)
Definition leading_year (date : string) : option Z :=
  if (4 <=? String.length date)%nat
  then NumLit.digits NumLit.dec_digit 10 0 (Str.slice0 4 date)
  else None.

(** A number from 1900 to the year after [cy]. *)
Definition year_in_bounds (cy : Z) (n : num) : Prop :=
  ∃ x, n = Fin x ∧ (1900 <= fin_R x <= IZR cy + 1)%R.

(** The release year as the specification states it: the first four
    characters of the date read as an integer, kept inside the bounds,
    and no year otherwise. *)
Definition year_as_stated (cy : Z) (date : string) : value :=
  match leading_year date with
  | Some n => if ((1900 <=? n) && (n <=? cy + 1))%Z then VNum (num_of_Z n) else VUndef
  | None => VUndef
  end.

(** The integer the longest run of decimal digits at the start of the
    first four characters writes, as [parseInt] would read them. *)
Definition leading_digits (date : string) : option Z :=
  NumLit.digits1 NumLit.dec_digit 10 (NumLit.span_dec (Str.slice0 4 date)).1.

(** The rows of a source that carry a given [track_id], in source order. *)
Definition rows_with (k : value) (rows : list row) : list row :=
  List.filter (λ r, bool_decide (get r "track_id" = k)) rows.

(** The two sources of the merge example of the specification. *)
Definition merge_A : list row :=
  [ {[ "track_id" := VStr "id1"; "popularity" := VNum (num_of_Z 80) ]} ].
Definition merge_B : list row :=
  [ {[ "track_id" := VStr "id1"; "popularity" := VNum (num_of_Z 50);
       "name" := VStr "X" ]};
    {[ "track_id" := VStr "id2"; "name" := VStr "Y" ]} ].

(** The two CSV rows of the end-to-end scenario. *)
Definition csv_A_t1 : row :=
  {[ "track_id" := VStr "t1"; "artist_followers" := VStr "999" ]}.
Definition csv_B_t1 : row :=
  {[ "track_id" := VStr "t1"; "artist_popularity" := VStr "40" ]}.

(** [a] stands before [b] in a list. *)
Definition before {A} (l : list A) (a b : A) : Prop :=
  ∃ l1 l2 l3, l = (l1 ++ a :: l2 ++ b :: l3)%list.

(** How often a label occurs. *)
Definition occurrences (g : value) (labels : list value) : nat :=
  length (List.filter (λ h, bool_decide (h = g)) labels).

(** Rows that carry only a genre label. *)
Definition labelled (g : string) : row := {[ "genre_top" := VStr g ]}.

(** The counting pass in closed form: the distinct labels in order of
    first encounter, each with the number of its occurrences. *)
Definition tally (labels : list value) : list (value * nat) :=
  (λ g, (g, occurrences g labels)) <$> JsSet.of_list labels.

(** What [TrackRow] promises of the two columns the views compute
    with, and the normalizer delivers: a finite [track_popularity] and a
    textual [genre_top]. *)
Definition normalized (d : row) : Prop :=
  (∃ x, d !! "track_popularity" = Some (VNum (Fin x)))
  ∧ (∃ g, d !! "genre_top" = Some (VStr g)).

(** [genre_top?: string]: text, or missing. *)
Definition genre_text (d : row) : Prop :=
  nullish (get d "genre_top") = true ∨ ∃ g, get d "genre_top" = VStr g.

(** Comparison by character codes: the collation the examples run with. *)
Definition code_unit_compare (a b : string) : Z :=
  match String.compare a b with
  | Lt => -1
  | Eq => 0
  | Gt => 1
  end.

(** A CSV row of a track with one genre. *)
Definition csv_track (id genre date : string) : row :=
  {[ "track_id" := VStr id;
     "artist_genres" := VStr ("['" ++ genre ++ "']")%string;
     "album_release_date" := VStr date;
     "artist_followers" := VStr "1000";
     "track_popularity" := VStr "50";
     "track_duration_ms" := VStr "200000" ]}.

(** Ten tracks of ten genres released in 2000 and one track of an
    eleventh genre released in 2001. *)
Definition eleven_genres_csv : list row :=
  ((λ g, csv_track g g "2000-01-01")
     <$> ["a"; "b"; "c"; "d"; "e"; "f"; "g"; "h"; "i"; "j"])
  ++ [csv_track "k" "k" "2001-06-01"].

Abbreviation eleven_genres := (load 2026 no_digits eleven_genres_csv []).

(** ** More of the number operators *)

(** [a < b]; any comparison with [NaN] is false. *)
Definition num_ltb (a b : num) : bool :=
  match a, b with
  | NaN, _ | _, NaN => false
  | PInf, _ | _, NInf => false
  | NInf, _ | _, PInf => true
  | Fin x, Fin y => fin_ltb x y
  end.

(** [a > b] *)
Definition num_gtb (a b : num) : bool := num_ltb b a.

(** [Math.max(a, b)] *)
Definition Math_max (a b : num) : num :=
  match a, b with
  | NaN, _ | _, NaN => NaN
  | _, _ => if num_ltb a b then b else a
  end.

(** [Math.min(a, b)] *)
Definition Math_min (a b : num) : num :=
  match a, b with
  | NaN, _ | _, NaN => NaN
  | _, _ => if num_ltb b a then b else a
  end.

(** ** Tooltip placement ([computeTipPos] of the scatter and heatmap views) *)

Module DOMRect.
Record t := { left : num; top : num; width : num; height : num }.
End DOMRect.

(** One coordinate of [computeTipPos], which runs the same steps for [x]
    and for [y]: [c] is the cursor ([clientX]), [o] the container's
    origin ([left]), [ext] its extent ([width]), [tip] the tooltip's. *)
Definition tip_coord (c o ext tip : num) : num :=
  let pad := num_of_Z 12 in
  let x := num_add (num_sub c o) pad in
  let x :=
    if num_gtb (num_add (num_add x tip) pad) ext
    then num_sub (num_sub (num_sub c o) tip) pad
    else x in
  Math_max pad (Math_min x (num_sub (num_sub ext tip) pad)).

Definition computeTipPos (clientX clientY : num) (container : DOMRect.t)
    (tipW tipH : num) : num * num :=
  (tip_coord clientX (DOMRect.left container) (DOMRect.width container) tipW,
   tip_coord clientY (DOMRect.top container) (DOMRect.height container) tipH).

(** ** Album colours ([colors.ts]) *)

Definition ALBUM_TYPE_COLORS : gmap string string :=
  {[ "album" := "#4e79a7";
     "single" := "#f28e2b";
     "compilation" := "#e15759";
     "unknown" := "#9aa0a6" ]}.

(** The names every object literal inherits from [Object.prototype]. *)
Definition Object_prototype : list string :=
  [ "constructor"; "hasOwnProperty"; "isPrototypeOf"; "propertyIsEnumerable";
    "toLocaleString"; "toString"; "valueOf"; "__proto__";
    "__defineGetter__"; "__defineSetter__"; "__lookupGetter__";
    "__lookupSetter__" ].

(** What reading a property of the palette yields: one of its own
    colours, something inherited (a function or the prototype, never
    text), or [undefined]. *)
Inductive property :=
| Own (colour : string)
| Inherited (name : string)
| Missing.

(** [ALBUM_TYPE_COLORS[key]] *)
Definition palette_at (key : string) : property :=
  match ALBUM_TYPE_COLORS !! key with
  | Some c => Own c
  | None => if bool_decide (key ∈ Object_prototype) then Inherited key else Missing
  end.

(** [albumTypeColor(t)], [None] standing for a missing argument *)
Definition albumTypeColor (t : option string) : property :=
  let key := Str.toLowerCase (default "unknown" t) in
  match palette_at key with
  | Missing => palette_at "unknown"
  | p => p
  end.

(** ** Scatter view: legend and horizontal scale *)

(** [d.album_type ?? "unknown"] *)
Definition album_type_of (d : row) : value :=
  coalesce (get d "album_type") (VStr "unknown").

(** [albumTypes] of [ScatterView]: the legend's entries *)
Definition scatter_albumTypes (data : list row) (s : selection) : list value :=
  take 6 (JsSet.of_list (album_type_of <$> scatter_filtered data s)).

(** [d3.extent(values)]: least and greatest of the values that compare
    with themselves; [None] stands for the pair of two [undefined]. *)
Definition d3_extent (values : list num) : option (num * num) :=
  foldl (λ acc v,
           match acc with
           | None => if num_geb v v then Some (v, v) else None
           | Some (lo, hi) =>
               Some (if num_gtb lo v then v else lo,
                     if num_ltb hi v then v else hi)
           end) None values.

(** The domain handed to [d3.scaleLinear]: [[0, 1]] without an extent,
    a single point widened by one on each side. *)
Definition linear_domain (values : list num) : num * num :=
  let domain :=
    match d3_extent values with
    | Some e => e
    | None => (num_of_Z 0, num_of_Z 1)
    end in
  if num_eqb domain.1 domain.2
  then (num_sub domain.1 (num_of_Z 1), num_add domain.2 (num_of_Z 1))
  else domain.

(** [d.followers_log!] of a row the scatter filter let through: the
    filter keeps rows where the column is a number. *)
Definition followers_log_of (d : row) : num :=
  match get d "followers_log" with
  | VNum n => n
  | _ => NaN
  end.

(** The domain of the scatter view's [x] scale, before [nice()]. *)
Definition scatter_xDomain (data : list row) (s : selection) : num * num :=
  linear_domain (followers_log_of <$> scatter_filtered data s).

(** ** Heatmap view: year axis, ticks and matrix *)

(** [(a, b) => a - b] *)
Definition ascending (a b : value) : Z := num_sgn (num_sub (Number a) (Number b)).

(** [years] of [HeatmapView].  The members of this [Set] are numbers;
    Leibniz equality is [SameValueZero] on them when equal numbers are
    written alike, as whole numbers [num_of_Z z] are. *)
Definition hm_years (data : list row) : list value :=
  js_sort ascending
    (JsSet.of_list ((λ d, get d "release_year") <$> hm_filtered data)).

(** [n > 12 ? Math.ceil(n / 10) : 1] *)
Definition yearStep (n : nat) : nat :=
  if (12 <? n)%nat
  then Z.to_nat (Qceiling (inject_Z (Z.of_nat n) / 10))
  else 1%nat.

(** [l.filter((_, i) => p(i))], the index counted from [i] *)
Fixpoint filter_index {A} (p : nat → bool) (i : nat) (l : list A) : list A :=
  match l with
  | [] => []
  | x :: l' =>
      if p i then x :: filter_index p (S i) l' else filter_index p (S i) l'
  end.

(** [yearTicks]: [years.filter((_, i) => i % yearStep === 0)] *)
Definition yearTicks {A} (years : list A) : list A :=
  filter_index (λ i, (i mod yearStep (length years) =? 0)%nat) 0 years.

Section HeatmapMatrix.

(** [String(n)] for a number [n] *)
Variable Number_toString : num → string.

(** The template literal that names a cell: genre, a bar, year. *)
Definition hm_key (g y : value) : string :=
  (String_of Number_toString g ++ "|" ++ String_of Number_toString y)%string.

(** [matrix] of [HeatmapView]: the same counting pass as the aggregator's,
    over the cell keys of the rows. *)
Definition hm_matrix (data : list row) : list (value * nat) :=
  let top := hm_top data in
  count_pass
    ((λ d, VStr (hm_key (bucket top (get d "genre_top")) (get d "release_year")))
       <$> hm_filtered data).

(** [matrix.get(key) ?? 0], the count a cell is drawn with *)
Definition hm_cell (data : list row) (g y : value) : nat :=
  default 0%nat (JsMap.get (VStr (hm_key g y)) (hm_matrix data)).

End HeatmapMatrix.

(** [d3.max(counts)]: [None] stands for [undefined], of no counts. *)
Definition d3_max (counts : list nat) : option nat :=
  match counts with
  | [] => None
  | c :: counts' => Some (foldl Nat.max c counts')
  end.

(** [maxVal] of [HeatmapView] *)
Definition hm_maxVal (nts : num → string) (data : list row) : nat :=
  default 1%nat (d3_max (JsMap.values (hm_matrix nts data))).

(** ** Vocabulary of the further properties *)

(** A string holds the character [c]. *)
Fixpoint has_char (c : ascii) (s : string) : bool :=
  match s with
  | EmptyString => false
  | String c' s' => Ascii.eqb c' c || has_char c s'
  end.

(** A whole number, as release years are. *)
Definition whole (v : value) : Prop := ∃ z, v = VNum (num_of_Z z).

(** The twelve columns the normalizer writes. *)
Definition normalized_columns : list string :=
  [ "track_number"; "track_popularity"; "explicit"; "artist_popularity";
    "artist_followers"; "album_total_tracks"; "track_duration_ms";
    "track_duration_min"; "release_year"; "followers_log"; "duration_min";
    "genre_top" ].

(** The five columns read with fallback 0. *)
Definition counted_columns : list string :=
  [ "track_number"; "track_popularity"; "artist_popularity";
    "artist_followers"; "album_total_tracks" ].

(** The types [TrackRow] declares for the columns the normalizer writes,
    as far as the normalizer delivers them, in the year [cy]. *)
Record typed (cy : Z) (d : row) : Prop := Typed {
  typed_counted :
    ∀ k, k ∈ counted_columns → ∃ x, d !! k = Some (VNum (Fin x));
  typed_explicit : ∃ b, d !! "explicit" = Some (VBool b);
  typed_genre_top : ∃ g, d !! "genre_top" = Some (VStr g) ∧ g ≠ "";
  typed_followers_log :
    ∃ f, d !! "artist_followers" = Some (VNum f)
         ∧ d !! "followers_log"
           = Some (VNum (Math_log10 (num_add f (num_of_Z 1))));
  typed_release_year :
    d !! "release_year" = Some VUndef
    ∨ ∃ x, d !! "release_year" = Some (VNum (Fin x))
           ∧ (1900 <= fin_R x <= IZR cy + 1)%R;
  typed_durations :
    ∀ k, k ∈ ["track_duration_ms"; "track_duration_min"; "duration_min"] →
         d !! k = Some VUndef ∨ ∃ x, d !! k = Some (VNum (Fin x))
}.

(** A printer of numbers that is exact on whole numbers, for the
    examples: the decimal digits, a minus sign before a negative one. *)
Definition decimal (n : num) : string :=
  match n with
  | Fin (Rat q) => if (Qden q =? 1)%positive then pretty (Qnum q) else "NaN"
  | _ => "NaN"
  end.

(** A normalized row of the heatmap: a genre and a whole release year. *)
Definition cell_row (g : string) (y : Z) : row :=
  {[ "genre_top" := VStr g; "release_year" := VNum (num_of_Z y) ]}.

(** A Python list of genre names as the CSV prints it, the first name
    [g] between quote characters [q], and whatever follows it. *)
Definition printed_genres (q : ascii) (g rest : string) : string :=
  String "[" (String q (g ++ String q rest)).

(** A raw CSV row with a track identifier and nothing else. *)
Definition csv_id (id : string) : row := {[ "track_id" := VStr id ]}.

(** The domain of the scale of one axis of the parallel-coordinates
    view, before [nice()]: [d3.extent(sample, d => Number(d[dim]))],
    guarded as in the scatter view. *)
Definition pc_yDomain (data : list row) (s : selection) (dim : string)
  : num * num :=
  linear_domain ((λ d, Number (get d dim)) <$> sample data s).

(** A normalized row the parallel-coordinates view accepts, with a
    given identifier and popularity. *)
Definition sampled (id : string) (pop : Z) : row :=
  {[ "track_id" := VStr id;
     "followers_log" := VNum (num_of_Z 1);
     "duration_min" := VNum (num_of_Z 3);
     "track_popularity" := VNum (num_of_Z pop) ]}.

(** ** Vocabulary of the sampling rule *)

(** A value that is there: neither [undefined] nor [null]. *)
Definition present (v : value) : Prop := v ≠ VUndef ∧ v ≠ VNull.

(** The popularity a row is ranked by: its [track_popularity] when that
    is a number other than [NaN], 0 when the column is missing. *)
Inductive rated (d : row) : num → Prop :=
| rated_number n :
    get d "track_popularity" = VNum n → n ≠ NaN → rated d n
| rated_missing :
    ¬ present (get d "track_popularity") → rated d (num_of_Z 0).

(** The order of the numbers other than [NaN], by their values. *)
Definition no_greater (a b : num) : Prop :=
  match a, b with
  | NaN, _ | _, NaN => False
  | NInf, _ | _, PInf => True
  | Fin x, Fin y => (fin_R x <= fin_R y)%R
  | _, _ => False
  end.

Definition at_most_as_popular (a b : row) : Prop :=
  ∃ x y, rated a x ∧ rated b y ∧ no_greater x y.

(** The row's release year is the number [y]. *)
Definition released_in (d : row) (y : num) : Prop :=
  ∃ x, get d "release_year" = VNum x ∧ equal_numbers x y.

(** The row is filed under the label [g]: its own genre (["Unknown"]
    when missing) if that is one of the top genres, ["Other"] if not. *)
Definition labelled_as (top : list value) (d : row) (g : string) : Prop :=
  let label :=
    match get d "genre_top" with
    | VUndef | VNull => VStr "Unknown"
    | v => v
    end in
  (label ∈ top ∧ label = VStr g) ∨ ((label ∉ top) ∧ g = "Other").

(** [kept P l l']: [l'] is [l] without the rows that fail [P], the
    others in their order. *)
Inductive kept (P : row → Prop) : list row → list row → Prop :=
| kept_nil : kept P [] []
| kept_yes d l l' : P d → kept P l l' → kept P (d :: l) (d :: l')
| kept_no d l l' : ¬ P d → kept P l l' → kept P (d :: l) l'.

(** A dataset of 251 rows for the sampling rule: a row of popularity 100
    without [duration_min], then 250 complete rows of popularities
    between 0 and 100, in no order. *)
Definition popular_rows : list row :=
  {[ "track_id" := VStr "hit";
     "followers_log" := VNum (num_of_Z 1);
     "track_popularity" := VNum (num_of_Z 100) ]}
  :: ((λ i, sampled (pretty i) ((37 * Z.of_nat i) mod 101)%Z) <$> seq 0 250).

(** ** Numbers that binary64 keeps apart from their neighbours *)

(** Of magnitude at most 2^52 = 4503599627370496: up to there binary64
    tells a number from the number 1 below it and the number 1 above it,
    as the exact arithmetic of this development does everywhere. *)
Definition within_2_52 (x : fin) : Prop :=
  (- 4503599627370496 <= fin_R x <= 4503599627370496)%R.

(** The same of a cell, decided for the rationals: a value that is no
    finite number passes. *)
Definition small_value (v : value) : bool :=
  match v with
  | VNum (Fin (Rat q)) =>
      Qle_bool (inject_Z (- 4503599627370496)) q
      && Qle_bool q (inject_Z 4503599627370496)
  | VNum (Fin (Real _)) => false
  | _ => true
  end.

(** A normalized track with a genre, a whole release year, a whole
    [followers_log] and a popularity. *)
Definition track (id genre : string) (year followers_log pop : Z) : row :=
  {[ "track_id" := VStr id;
     "genre_top" := VStr genre;
     "release_year" := VNum (num_of_Z year);
     "followers_log" := VNum (num_of_Z followers_log);
     "duration_min" := VNum (num_of_Z 3);
     "track_popularity" := VNum (num_of_Z pop) ]}.

(** A CSV row with an identifier, a popularity and a duration. *)
Definition csv_rated (id pop ms : string) : row :=
  {[ "track_id" := VStr id;
     "track_popularity" := VStr pop;
     "track_duration_ms" := VStr ms ]}.

(** Four tracks for the focus views: three of one genre, one of them of
    another year, and one of another genre. *)
Definition four_tracks : list row :=
  [ track "a" "rock" 2000 3 50; track "b" "pop" 2000 4 60;
    track "c" "rock" 2001 5 70; track "d" "rock" 2000 3 20 ].

(** * Properties *)

(** ** The built-ins at work *)

Example Number_samples :
  Number (VStr "999") = num_of_Z 999
  ∧ Number (VStr " 40 ") = num_of_Z 40
  ∧ Number (VStr "") = num_of_Z 0
  ∧ Number (VStr "12px") = NaN
  ∧ Number (VStr "-0.5") = Fin (Rat (- 1 # 2))
  ∧ Number (VStr "19e2") = num_of_Z 1900
  ∧ Number (VStr "0x1F") = num_of_Z 31
  ∧ Number (VStr "-Infinity") = NInf
  ∧ Number (VStr "1e999") = PInf
  ∧ Number VUndef = NaN
  ∧ Number VNull = num_of_Z 0.
Proof. repeat split; vm_compute; reflexivity. Qed.

Example toNumber_samples :
  toNumber (VStr "abc") (num_of_Z 0) = num_of_Z 0
  ∧ toNumber VUndef (num_of_Z 0) = num_of_Z 0
  ∧ toNumber (VStr "Infinity") (num_of_Z 0) = num_of_Z 0
  ∧ toNumber (VStr "73") (num_of_Z 0) = num_of_Z 73
  ∧ toNumber (VStr "x") NaN = NaN.
Proof. repeat split; vm_compute; reflexivity. Qed.

Example toBool_samples :
  toBool (VStr "TRUE") = true
  ∧ toBool (VStr "false") = false
  ∧ toBool (VStr "yes") = false
  ∧ toBool (VBool true) = true
  ∧ toBool VUndef = false
  ∧ toBool (VNum (num_of_Z 2)) = true.
Proof. repeat split; vm_compute; reflexivity. Qed.

Example Str_samples :
  Str.trim "  a b  " = "a b"
  ∧ Str.split "," "a,,b" = ["a"; ""; "b"]
  ∧ Str.split "," "" = [""]
  ∧ Str.strip_first is_lbracket "[[x]]" = "[x]]"
  ∧ Str.strip_last is_rbracket "[[x]]" = "[[x]"
  ∧ Str.slice0 4 "2021-05-01" = "2021"
  ∧ Str.slice0 4 "99" = "99".
Proof. repeat split; vm_compute; reflexivity. Qed.

(** Equal keys keep their input order. *)
Example js_sort_sample :
  js_sort by_count_desc
    [(VStr "c", 1); (VStr "b", 2); (VStr "a", 2); (VStr "d", 1)]
  = [(VStr "b", 2); (VStr "a", 2); (VStr "c", 1); (VStr "d", 1)].
Proof. vm_compute. reflexivity. Qed.

(** ** Strings *)

Module StrFacts.
Import Str.

Lemma split_cons sep c s :
  split sep (String c s) =
    if Ascii.eqb c sep then "" :: split sep s
    else match split sep s with
         | p :: ps => String c p :: ps
         | [] => [String c ""]
         end.
Proof. done. Qed.

Lemma split_nonempty sep s : split sep s ≠ [].
Proof.
  destruct s as [|c s]; simpl; [done|].
  destruct (Ascii.eqb c sep); [done|].
  by destruct (split sep s).
Qed.

Lemma trimStart_idem s : trimStart (trimStart s) = trimStart s.
Proof.
  induction s as [|c s IH]; simpl; [done|].
  destruct (is_ws c) eqn:W; [done|]. simpl. by rewrite W.
Qed.

Lemma trimEnd_empty_trimStart s : trimEnd s = "" → trimStart s = "".
Proof.
  induction s as [|c s IH]; simpl; [done|].
  destruct (trimEnd s) eqn:E; [|done].
  destruct (is_ws c); [auto|done].
Qed.

(** Trimming the two ends commutes. *)
Lemma trim_comm s : trimStart (trimEnd s) = trimEnd (trimStart s).
Proof.
  induction s as [|c s IH]; simpl; [done|].
  destruct (trimEnd s) as [|a r] eqn:E.
  - destruct (is_ws c) eqn:W; simpl.
    + by rewrite (trimEnd_empty_trimStart s E).
    + by rewrite W, E.
  - destruct (is_ws c) eqn:W; simpl; rewrite W.
    + exact IH.
    + simpl. by rewrite E.
Qed.

(** White space before the first separator belongs to the first piece. *)
Lemma split_trimStart sep s :
  is_ws sep = false →
  split sep (trimStart s) =
    match split sep s with
    | p :: ps => trimStart p :: ps
    | [] => []
    end.
Proof.
  intros Hsep. induction s as [|c s IH]; simpl; [done|].
  destruct (is_ws c) eqn:W.
  - destruct (Ascii.eqb_spec c sep) as [->|_]; [congruence|].
    rewrite IH. pose proof (split_nonempty sep s) as N.
    destruct (split sep s); [done|]. simpl. by rewrite W.
  - simpl. destruct (Ascii.eqb c sep); [done|].
    destruct (split sep s); simpl; by rewrite W.
Qed.

(** White space after the last separator belongs to the last piece. *)
Lemma split_trimEnd sep s :
  is_ws sep = false →
  trimEnd <$> split sep (trimEnd s) = trimEnd <$> split sep s.
Proof.
  intros Hsep. induction s as [|c s IH]; [done|].
  cbn [trimEnd]. destruct (trimEnd s) as [|a r] eqn:E.
  - cbn [split] in IH |- *.
    destruct (split sep s) as [|p [|q ps]] eqn:Es; try done.
    injection IH as IH. symmetry in IH.
    destruct (is_ws c) eqn:W.
    + destruct (Ascii.eqb_spec c sep) as [->|_]; [congruence|].
      cbn. by rewrite IH, W.
    + cbn [split]. destruct (Ascii.eqb c sep); cbn.
      * by rewrite IH.
      * by rewrite IH, W.
  - rewrite (split_cons sep c (String a r)), (split_cons sep c s).
    destruct (Ascii.eqb c sep).
    + cbn [fmap list_fmap]. by rewrite IH.
    + pose proof (split_nonempty sep (String a r)) as N1.
      pose proof (split_nonempty sep s) as N2.
      destruct (split sep (String a r)) as [|p ps]; [done|].
      destruct (split sep s) as [|p' ps']; [done|].
      cbn [fmap list_fmap trimEnd] in IH |- *.
      injection IH as -> ->. done.
Qed.

(** Trimming a text before splitting it does not change the trimmed pieces. *)
Lemma split_trim sep s :
  is_ws sep = false →
  trim <$> split sep (trim s) = trim <$> split sep s.
Proof.
  intros Hsep.
  assert (Hc : ∀ l : list string, trim <$> l = trimStart <$> (trimEnd <$> l)).
  { intros l. rewrite <- list_fmap_compose. apply list_fmap_ext.
    intros _ x _. unfold trim. simpl. by rewrite trim_comm. }
  unfold trim at 2. rewrite Hc, split_trimEnd, <- Hc by done.
  rewrite split_trimStart by done.
  pose proof (split_nonempty sep s) as N.
  destruct (split sep s) as [|p ps]; [done|].
  cbn [fmap list_fmap]. f_equal. unfold trim. by rewrite trimStart_idem.
Qed.

End StrFacts.

(** ** Genre extractor *)

Lemma clean_pieces_trim s :
  clean_piece <$> Str.split ","%char (Str.trim s) = clean_piece <$> Str.split ","%char s.
Proof.
  assert (H : ∀ l : list string,
             clean_piece <$> l =
             (λ p, Str.strip_last is_quote (Str.strip_first is_quote p))
               <$> (Str.trim <$> l)).
  { intros l. by rewrite <- list_fmap_compose. }
  by rewrite H, StrFacts.split_trim, <- H.
Qed.

Module WordFacts.
Import Str.

Local Abbreviation L := list_ascii_of_string.

Lemma L_inj a b : L a = L b → a = b.
Proof.
  intros H. by rewrite <- (string_of_list_ascii_of_string a), H,
    string_of_list_ascii_of_string.
Qed.

Lemma is_ws_blank c : is_ws c = is_one_of blanks c.
Proof. destruct c as [[] [] [] [] [] [] [] []]; reflexivity. Qed.

Lemma is_quote_quotes c : is_quote c = is_one_of quotes c.
Proof. destruct c as [[] [] [] [] [] [] [] []]; reflexivity. Qed.

Lemma is_lbracket_one c : is_lbracket c = is_one_of ["["%char] c.
Proof. destruct c as [[] [] [] [] [] [] [] []]; reflexivity. Qed.

Lemma is_rbracket_one c : is_rbracket c = is_one_of ["]"%char] c.
Proof. destruct c as [[] [] [] [] [] [] [] []]; reflexivity. Qed.

Lemma is_comma_one c : Ascii.eqb c "," = is_one_of [","%char] c.
Proof. destruct c as [[] [] [] [] [] [] [] []]; reflexivity. Qed.

Lemma L_trimStart s : L (trimStart s) = drop_blanks (L s).
Proof.
  induction s as [|c s IH]; [done|].
  cbn [trimStart list_ascii_of_string drop_blanks]. rewrite <- is_ws_blank.
  by destruct (is_ws c).
Qed.

Lemma drop_blanks_snoc a c :
  drop_blanks (a ++ [c])
  = match drop_blanks a with
    | [] => if is_one_of blanks c then [] else [c]
    | r => r ++ [c]
    end.
Proof.
  induction a as [|x a IH]; [done|]. cbn [app drop_blanks].
  by destruct (is_one_of blanks x).
Qed.

Lemma L_trimEnd s : L (trimEnd s) = reverse (drop_blanks (reverse (L s))).
Proof.
  induction s as [|c s IH]; [done|].
  cbn [trimEnd list_ascii_of_string].
  rewrite reverse_cons, drop_blanks_snoc, <- is_ws_blank.
  destruct (drop_blanks (reverse (L s))) as [|x X] eqn:E.
  - destruct (trimEnd s); [|by cbn in IH]. by destruct (is_ws c).
  - destruct (trimEnd s) as [|a r].
    + apply (f_equal length) in IH. rewrite length_reverse in IH. done.
    + cbn [list_ascii_of_string] in IH |- *.
      by rewrite reverse_app, reverse_singleton, <- IH.
Qed.

Lemma L_trim s : L (trim s) = trimmed (L s).
Proof. unfold trim, trimmed. by rewrite L_trimEnd, L_trimStart. Qed.

Lemma L_strip_first p cs s :
  (∀ c, p c = is_one_of cs c) →
  L (strip_first p s) = without_first cs (L s).
Proof.
  intros H. destruct s as [|c s]; [done|].
  cbn [strip_first list_ascii_of_string without_first]. rewrite <- H.
  by destruct (p c).
Qed.

Lemma without_first_snoc cs a x c :
  without_first cs ((x :: a) ++ [c])
  = without_first cs (x :: a) ++ [c].
Proof. cbn [app without_first]. by destruct (is_one_of cs x). Qed.

Lemma L_strip_last p cs s :
  (∀ c, p c = is_one_of cs c) →
  L (strip_last p s) = without_last cs (L s).
Proof.
  intros H. unfold without_last. induction s as [|c s IH]; [done|].
  destruct s as [|c' s].
  - cbn [strip_last list_ascii_of_string]. rewrite reverse_singleton.
    cbn [without_first]. rewrite <- H. by destruct (p c).
  - change (strip_last p (String c (String c' s)))
      with (String c (strip_last p (String c' s))).
    cbn [list_ascii_of_string] in IH |- *.
    rewrite IH, (reverse_cons _ c).
    destruct (reverse (c' :: L s)) as [|x X] eqn:E.
    { apply (f_equal length) in E. rewrite length_reverse in E. done. }
    by rewrite without_first_snoc, reverse_app, reverse_singleton.
Qed.

Lemma L_split cur s :
  pieces_from cur (L s)
  = match L <$> split "," s with
    | p :: ps => (reverse cur ++ p) :: ps
    | [] => []
    end.
Proof.
  revert cur. induction s as [|c s IH]; intros cur.
  - cbn. by rewrite app_nil_r.
  - rewrite StrFacts.split_cons. cbn [list_ascii_of_string pieces_from].
    rewrite <- is_comma_one. destruct (Ascii.eqb c ",").
    + rewrite IH. cbn [fmap list_fmap list_ascii_of_string].
      rewrite app_nil_r. f_equal.
      pose proof (StrFacts.split_nonempty "," s) as N.
      by destruct (split "," s).
    + rewrite IH. pose proof (StrFacts.split_nonempty "," s) as N.
      destruct (split "," s) as [|p ps]; [done|].
      cbn [fmap list_fmap list_ascii_of_string].
      by rewrite reverse_cons, <- app_assoc.
Qed.

Lemma L_pieces s : L <$> split "," s = pieces_from [] (L s).
Proof.
  rewrite L_split. pose proof (StrFacts.split_nonempty "," s) as N.
  by destruct (split "," s).
Qed.

Lemma L_clean_piece p :
  L (clean_piece p) = without_last quotes (without_first quotes (trimmed (L p))).
Proof.
  unfold clean_piece.
  by rewrite (L_strip_last _ quotes), (L_strip_first _ quotes), L_trim
    by apply is_quote_quotes.
Qed.

Lemma L_filter l :
  L <$> List.filter nonempty l = filter (λ p, p ≠ []) (L <$> l).
Proof.
  induction l as [|p l IH]; [done|]. cbn [List.filter fmap list_fmap].
  rewrite filter_cons. destruct p as [|c p].
  - cbn. by rewrite decide_False by (intros H; by apply H).
  - cbn [nonempty String.eqb negb list_ascii_of_string].
    rewrite decide_True by done. cbn [fmap list_fmap list_ascii_of_string].
    by rewrite IH.
Qed.

End WordFacts.

(** The extractor without its second trim and its early exit. *)
Lemma parseGenresTop_flat_eq s : parseGenresTop s = parseGenresTop_flat s.
Proof.
  unfold parseGenresTop, parseGenresTop_flat.
  destruct (Str.nonempty s) eqn:Hs; simpl.
  2:{ unfold Str.nonempty in Hs. apply negb_false_iff, String.eqb_eq in Hs.
      by subst. }
  rewrite (orb_comm (String.eqb (Str.trim s) "[]")).
  destruct (String.eqb (Str.trim s) "" || String.eqb (Str.trim s) "[]"); [done|].
  set (rest := Str.strip_last is_rbracket (Str.strip_first is_lbracket (Str.trim s))).
  rewrite clean_pieces_trim.
  destruct (Str.nonempty (Str.trim rest)) eqn:Hi; simpl.
  - by destruct (List.filter _ _).
  - rewrite <- (clean_pieces_trim rest).
    unfold Str.nonempty in Hi. apply negb_false_iff, String.eqb_eq in Hi.
    by rewrite Hi.
Qed.

(** The string functions of the code do what the specification's words
    say, character list by character list. *)
Lemma parseGenresTop_flat_spec s : parseGenresTop_flat s = parseGenresTop_spec s.
Proof.
  unfold parseGenresTop_flat, parseGenresTop_spec.
  rewrite <- WordFacts.L_trim.
  assert (E : String.eqb (Str.trim s) "" || String.eqb (Str.trim s) "[]"
              = bool_decide (list_ascii_of_string (Str.trim s) = []
                             ∨ list_ascii_of_string (Str.trim s) = ["["%char; "]"%char])).
  { destruct (String.eqb_spec (Str.trim s) "") as [->|N1];
      [vm_compute; reflexivity|].
    destruct (String.eqb_spec (Str.trim s) "[]") as [->|N2];
      [vm_compute; reflexivity|].
    cbn [orb]. symmetry. apply bool_decide_eq_false.
    intros [H|H]; [apply N1|apply N2]; apply WordFacts.L_inj; exact H. }
  rewrite E. case_bool_decide as H; [done|].
  rewrite <- (WordFacts.L_strip_first is_lbracket) by apply WordFacts.is_lbracket_one.
  rewrite <- (WordFacts.L_strip_last is_rbracket) by apply WordFacts.is_rbracket_one.
  rewrite <- WordFacts.L_pieces.
  set (rest := Str.strip_last _ _).
  assert (Hc : (λ p, without_last quotes (without_first quotes (trimmed p)))
                 <$> (list_ascii_of_string <$> Str.split "," rest)
               = list_ascii_of_string <$> (clean_piece <$> Str.split "," rest)).
  { rewrite <- !list_fmap_compose. apply list_fmap_ext. intros _ p _. cbn.
    by rewrite WordFacts.L_clean_piece. }
  rewrite Hc, <- WordFacts.L_filter.
  destruct (List.filter _ _) as [|p ps]; [done|].
  cbn. apply symmetry, string_of_list_ascii_of_string.
Qed.

(** C5. For every input the genre extractor computes what the
    specification describes, the description being written out on its
    own, on lists of characters: trim the input; ["Unknown"] on the empty
    text and on ["[]"]; otherwise take off one leading [[] and one
    trailing []], split on commas, trim each piece and take off one quote
    character, single or double, at each end, drop the empty pieces and
    return the first, or ["Unknown"] when none is left.  The five listed
    inputs give the listed labels.  So do inputs with white space around
    the text, around the brackets and around the pieces, and names
    between double quotes; only one quote character goes at each end; and
    a list of nothing but empty pieces gives ["Unknown"]. *)
Theorem parseGenresTop_refines_spec :
  (∀ s, parseGenresTop s = parseGenresTop_spec s)
  ∧ parseGenresTop "" = "Unknown"
  ∧ parseGenresTop "[]" = "Unknown"
  ∧ parseGenresTop "['pop']" = "pop"
  ∧ parseGenresTop "['pop', 'dance pop']" = "pop"
  ∧ parseGenresTop "['Hip-Hop']" = "Hip-Hop"
  ∧ parseGenresTop "   ['pop']  " = "pop"
  ∧ parseGenresTop (tabbed "['pop']") = "pop"
  ∧ parseGenresTop "  [  'k-pop'  ,'pop' ]" = "k-pop"
  ∧ parseGenresTop ("[" ++ double_quoted "pop" ++ "]") = "pop"
  ∧ parseGenresTop (" [ " ++ double_quoted "dance pop" ++ " , 'pop' ] ")
    = "dance pop"
  ∧ parseGenresTop ("['" ++ double_quoted "pop" ++ "']") = double_quoted "pop"
  ∧ parseGenresTop "[[pop]]" = "[pop]"
  ∧ parseGenresTop "   " = "Unknown"
  ∧ parseGenresTop " [] " = "Unknown"
  ∧ parseGenresTop "['', ,]" = "Unknown"
  ∧ parseGenresTop "['', 'rock']" = "rock".
Proof.
  split; [|by repeat split].
  intros s. by rewrite parseGenresTop_flat_eq, parseGenresTop_flat_spec.
Qed.

(** ** Numbers *)

Lemma Q2R_inject_Z z : Q2R (inject_Z z) = IZR z.
Proof. unfold Q2R, inject_Z. simpl. rewrite Rinv_1. lra. Qed.

Lemma fin_R_of_Z z : fin_R (fin_of_Z z) = IZR z.
Proof. apply Q2R_inject_Z. Qed.

Lemma fin_ltb_spec x y : fin_ltb x y = true ↔ (fin_R x < fin_R y)%R.
Proof.
  destruct x as [p|a], y as [q|b]; simpl;
    try (destruct (Rlt_dec _ _); split; (done || lra)).
  rewrite negb_true_iff. split.
  - intros H. apply Qlt_Rlt. apply Qnot_le_lt. intros L.
    apply Qle_bool_iff in L. congruence.
  - intros H. apply Rlt_Qlt in H. destruct (Qle_bool q p) eqn:E; [|done].
    apply Qle_bool_iff in E. exfalso. by apply (Qlt_not_le p q).
Qed.

Lemma fin_ltb_false x y : fin_ltb x y = false ↔ (fin_R y <= fin_R x)%R.
Proof.
  pose proof (fin_ltb_spec x y) as H. destruct (fin_ltb x y).
  - split; [done|]. intros L. assert (fin_R x < fin_R y)%R by by apply H. lra.
  - split; [|done]. intros _. apply Rnot_lt_le. intros L. apply H in L. done.
Qed.

Lemma fin_leb_spec x y : fin_leb x y = true ↔ (fin_R x <= fin_R y)%R.
Proof. unfold fin_leb. rewrite negb_true_iff. apply fin_ltb_false. Qed.

Lemma fin_eqb_spec x y : fin_eqb x y = true ↔ fin_R x = fin_R y.
Proof.
  destruct x as [p|a], y as [q|b]; simpl;
    try (destruct (Req_dec_T _ _); split; done).
  rewrite Qeq_bool_iff. split; [apply Qeq_eqR | apply eqR_Qeq].
Qed.

Lemma fin_eqb_refl x : fin_eqb x x = true.
Proof. by apply fin_eqb_spec. Qed.

Lemma fin_R_add x y : fin_R (fin_add x y) = (fin_R x + fin_R y)%R.
Proof.
  destruct x as [p|a], y as [q|b]; simpl; try done.
  rewrite (Qeq_eqR _ _ (Qred_correct _)). apply Q2R_plus.
Qed.

Lemma fin_R_opp x : fin_R (fin_opp x) = (- fin_R x)%R.
Proof. destruct x; simpl; [apply Q2R_opp | done]. Qed.

Lemma num_eqb_refl n : n ≠ NaN → num_eqb n n = true.
Proof. destruct n; simpl; try done. intros _. apply fin_eqb_refl. Qed.

Lemma log10R_nonneg x : (1 <= x)%R → (0 <= log10R x)%R.
Proof.
  intros Hx. unfold log10R.
  assert (0 < ln 10)%R.
  { rewrite <- ln_1. apply ln_increasing; lra. }
  assert (0 <= ln x)%R.
  { destruct (Req_dec_T x 1) as [->|Hne]; [rewrite ln_1; lra|].
    rewrite <- ln_1. left. apply ln_increasing; lra. }
  apply Rmult_le_pos; [done|]. left. by apply Rinv_0_lt_compat.
Qed.

Lemma log10R_pow10 n : log10R (10 ^ n) = INR n.
Proof.
  unfold log10R. rewrite ln_pow by lra.
  assert (0 < ln 10)%R.
  { rewrite <- ln_1. apply ln_increasing; lra. }
  field. lra.
Qed.

Lemma toNumber_finite x fb : num_isFinite fb = true → ∃ y, toNumber x fb = Fin y.
Proof.
  intros H. unfold toNumber.
  destruct (Number x) eqn:E; simpl; destruct fb; try done; eauto.
Qed.

(** ** Selection state *)

Lemma num_eqb_equal_numbers a b : num_eqb a b = true ↔ equal_numbers a b.
Proof.
  destruct a as [| | |x], b as [| | |y]; cbn;
    try (split; [done|done]).
  apply fin_eqb_spec.
Qed.

Lemma same_selected_pair s y g : same s y g = true ↔ selected_pair s y g.
Proof.
  unfold same, selected_pair. rewrite andb_true_iff.
  assert (Hy : strict_eq (year_value y) (year_value (selectedYear s)) = true
               ↔ match y, selectedYear s with
                 | None, None => True
                 | Some a, Some b => equal_numbers a b
                 | _, _ => False
                 end).
  { destruct y as [a|], (selectedYear s) as [b|]; cbn;
      [apply num_eqb_equal_numbers|split; done..]. }
  assert (Hg : strict_eq (genre_value g) (genre_value (selectedGenre s)) = true
               ↔ g = selectedGenre s).
  { destruct g as [a|], (selectedGenre s) as [b|]; cbn;
      [|split; [done|by intros [=]]..|split; done].
    rewrite String.eqb_eq. split; [by intros ->|by intros [= ->]]. }
  rewrite Hy, Hg. tauto.
Qed.

(** C7. [selectCell] (the [onSelect] handler).  When the incoming pair
    is the selected pair (the same genre and the same year, numbers being
    compared as numbers) the state becomes (null, null); in every other
    case it becomes the incoming pair, in that one step: in particular
    whenever the genre differs, also under the same year.  A pair whose
    year is not [NaN] is the selected pair when it is the stored one.  The
    two fields always move together: the new state is the cleared pair or
    the incoming pair, never a mix.  The two click sequences of the
    specification behave as listed, and a click on (2020, rock) while
    (2020, pop) is selected selects (2020, rock). *)
Theorem onSelect_toggle (s : selection) (y : option num) (g : option string) :
  (selected_pair s y g → onSelect s y g = no_selection)
  ∧ (¬ selected_pair s y g → onSelect s y g = Selection y g)
  ∧ (g ≠ selectedGenre s → onSelect s y g = Selection y g)
  ∧ (y ≠ Some NaN → y = selectedYear s → g = selectedGenre s →
     onSelect s y g = no_selection)
  ∧ (onSelect s y g = no_selection ∨ onSelect s y g = Selection y g)
  ∧ onSelect (onSelect no_selection (Some (num_of_Z 2020)) (Some "pop"))
      (Some (num_of_Z 2020)) (Some "pop") = no_selection
  ∧ onSelect (onSelect no_selection (Some (num_of_Z 2020)) (Some "pop"))
      (Some (num_of_Z 2021)) (Some "pop")
    = Selection (Some (num_of_Z 2021)) (Some "pop")
  ∧ onSelect (Selection (Some (num_of_Z 2020)) (Some "pop"))
      (Some (num_of_Z 2020)) (Some "rock")
    = Selection (Some (num_of_Z 2020)) (Some "rock").
Proof.
  assert (Ht : selected_pair s y g → onSelect s y g = no_selection).
  { intros H%same_selected_pair. unfold onSelect. by rewrite H. }
  assert (Hf : ¬ selected_pair s y g → onSelect s y g = Selection y g).
  { intros H. unfold onSelect.
    destruct (same s y g) eqn:E; [|done]. by apply same_selected_pair in E. }
  split; [exact Ht|]. split; [exact Hf|].
  split; [|split; [|split; [|by repeat split]]].
  - intros Hg. apply Hf. by intros [? _].
  - intros Hn Hy Hg. apply Ht. split; [done|]. rewrite <- Hy.
    destruct y as [[| | |x]|]; cbn; try done.
  - unfold onSelect. destruct (same s y g); auto.
Qed.

Lemma onSelect_toggle_witness :
  onSelect (Selection (Some (num_of_Z 2020)) (Some "pop"))
    (Some (num_of_Z 2020)) (Some "pop") = no_selection
  ∧ onSelect (Selection (Some (num_of_Z 2020)) (Some "pop"))
      (Some (num_of_Z 2021)) (Some "rock")
    = Selection (Some (num_of_Z 2021)) (Some "rock")
  ∧ onSelect (Selection (Some (num_of_Z 2020)) (Some "pop"))
      (Some (num_of_Z 2020)) (Some "rock")
    = Selection (Some (num_of_Z 2020)) (Some "rock")
  ∧ onSelect (Selection (Some (num_of_Z 2020)) (Some "pop"))
      (Some (num_of_Z 2021)) (Some "pop")
    = Selection (Some (num_of_Z 2021)) (Some "pop")
  ∧ onSelect (Selection (Some PInf) None) (Some PInf) None = no_selection.
Proof.
  split; [|split; [|split; [|split]]].
  - apply (proj1 (onSelect_toggle _ _ _)). split; reflexivity.
  - apply (proj1 (proj2 (onSelect_toggle _ _ _))). intros [H _]. discriminate.
  - apply (proj1 (proj2 (proj2 (onSelect_toggle _ _ _)))). discriminate.
  - apply (proj1 (proj2 (onSelect_toggle _ _ _))). intros [_ H]. cbn in H.
    rewrite !Q2R_inject_Z in H. apply eq_IZR in H. discriminate.
  - apply (proj1 (proj2 (proj2 (proj2 (onSelect_toggle _ _ _)))));
      [discriminate|reflexivity..].
Defined.

(** ** Row normalizer *)

Lemma get_insert (r : row) k k' v :
  get (<[k' := v]> r) k = if String.eqb k' k then v else get r k.
Proof.
  unfold get. destruct (String.eqb_spec k' k) as [->|Hne].
  - by rewrite lookup_insert_eq.
  - by rewrite lookup_insert_ne.
Qed.

Lemma get_assign (r : row) kvs k :
  get (assign r kvs) k = default (get r k) (assigned k kvs).
Proof.
  unfold assign. revert r. induction kvs as [|[k' v] kvs IH]; intros r; [done|].
  cbn [foldl assigned]. rewrite IH. destruct (assigned k kvs); [done|].
  cbn [fst snd default]. rewrite get_insert. by destruct (String.eqb k' k).
Qed.

Lemma lookup_assign_None (r : row) kvs k :
  assigned k kvs = None → assign r kvs !! k = r !! k.
Proof.
  unfold assign. revert r. induction kvs as [|[k' v] kvs IH]; intros r; [done|].
  cbn [foldl assigned]. destruct (assigned k kvs) eqn:E; [done|].
  destruct (String.eqb_spec k' k) as [->|Hne]; [done|]. intros _.
  rewrite IH by done. by apply lookup_insert_ne.
Qed.

Lemma lookup_assign_Some (r : row) kvs k v :
  assigned k kvs = Some v → assign r kvs !! k = Some v.
Proof.
  unfold assign. revert r. induction kvs as [|[k' w] kvs IH]; intros r; [done|].
  cbn [foldl assigned]. destruct (assigned k kvs) eqn:E.
  - intros [= ->]. by apply IH.
  - destruct (String.eqb_spec k' k) as [->|Hne]; [|done]. intros [= ->].
    rewrite lookup_assign_None by done. apply lookup_insert_eq.
Qed.

(** What the normalizer stores under each derived column. *)
Lemma preprocessTrack_followers_log cy nts r :
  get (preprocessTrack cy nts r) "followers_log" = VNum (followersLog r).
Proof. unfold preprocessTrack. by rewrite get_assign. Qed.

Lemma preprocessTrack_artist_followers cy nts r :
  get (preprocessTrack cy nts r) "artist_followers" = VNum (followers r).
Proof. unfold preprocessTrack. by rewrite get_assign. Qed.

Lemma preprocessTrack_artist_popularity cy nts r :
  get (preprocessTrack cy nts r) "artist_popularity"
  = VNum (toNumber (get r "artist_popularity") (num_of_Z 0)).
Proof. unfold preprocessTrack. by rewrite get_assign. Qed.

Lemma preprocessTrack_track_popularity cy nts r :
  get (preprocessTrack cy nts r) "track_popularity"
  = VNum (toNumber (get r "track_popularity") (num_of_Z 0)).
Proof. unfold preprocessTrack. by rewrite get_assign. Qed.

Lemma preprocessTrack_release_year cy nts r :
  get (preprocessTrack cy nts r) "release_year" = year cy r.
Proof. unfold preprocessTrack. by rewrite get_assign. Qed.

Lemma preprocessTrack_genre_top cy nts r :
  get (preprocessTrack cy nts r) "genre_top" = VStr (genreTop nts r).
Proof. unfold preprocessTrack. by rewrite get_assign. Qed.

Lemma preprocessTrack_track_id cy nts r :
  get (preprocessTrack cy nts r) "track_id" = get r "track_id".
Proof. unfold preprocessTrack. by rewrite get_assign. Qed.

Lemma followersLog_of_nonneg r x :
  followers r = Fin x → (0 <= fin_R x)%R →
  ∃ y, followersLog r = Fin y
       ∧ fin_R y = log10R (fin_R x + 1)
       ∧ (0 <= fin_R y)%R.
Proof.
  intros Hx Hpos. unfold followersLog. rewrite Hx.
  cbn [num_add num_of_Z Math_log10].
  assert (Hsum : fin_R (fin_add x (fin_of_Z 1)) = (fin_R x + 1)%R).
  { by rewrite fin_R_add, fin_R_of_Z. }
  assert (Hlt : fin_ltb (fin_of_Z 0) (fin_add x (fin_of_Z 1)) = true).
  { apply fin_ltb_spec. rewrite Hsum, fin_R_of_Z. lra. }
  rewrite Hlt. eexists. split; [done|]. cbn [fin_R]. rewrite Hsum.
  split; [done|]. apply log10R_nonneg. lra.
Qed.

(** C4 (as the code has it).  For every raw row [followers_log] is
    [Math.log10(followers + 1)], where [followers] is the coerced
    [artist_followers], a finite number, 0 when the column does not hold
    one.  When [followers] is not negative, [followers_log] is a finite
    number, the base-10 logarithm of [followers + 1], and at least 0. *)
Theorem followers_log_rule (cy : Z) (nts : num → string) (r : row) :
  get (preprocessTrack cy nts r) "followers_log"
  = VNum (Math_log10
            (num_add (toNumber (get r "artist_followers") (num_of_Z 0))
                     (num_of_Z 1)))
  ∧ ∃ x, toNumber (get r "artist_followers") (num_of_Z 0) = Fin x
      ∧ (num_isFinite (Number (get r "artist_followers")) = false
         → x = fin_of_Z 0)
      ∧ ((0 <= fin_R x)%R →
         ∃ y, get (preprocessTrack cy nts r) "followers_log" = VNum (Fin y)
              ∧ fin_R y = log10R (fin_R x + 1)
              ∧ (0 <= fin_R y)%R).
Proof.
  rewrite preprocessTrack_followers_log.
  split; [done|].
  destruct (toNumber_finite (get r "artist_followers") (num_of_Z 0) eq_refl)
    as [x Hx].
  exists x. split; [done|]. split.
  - intros Hn. unfold toNumber in Hx. rewrite Hn in Hx. by injection Hx.
  - intros Hpos. destruct (followersLog_of_nonneg r x Hx Hpos) as (y & -> & ?).
    by exists y.
Qed.

Lemma Q2R_999 : Q2R 999 = 999%R.
Proof. apply (Q2R_inject_Z 999). Qed.

Lemma followers_log_rule_witness :
  ∃ y, get (preprocessTrack 2026 no_digits (row_followers "999")) "followers_log"
       = VNum (Fin y)
       ∧ fin_R y = log10R (999 + 1)
       ∧ (0 <= fin_R y)%R.
Proof.
  destruct (followers_log_rule 2026 no_digits (row_followers "999"))
    as (_ & x & Hx & _ & H).
  vm_compute in Hx. injection Hx as <-.
  cbn [fin_R] in H. rewrite Q2R_999 in H. apply H. lra.
Defined.

(** C4 as the specification states it fails: a row whose
    [artist_followers] is the text [-5] gets [followers_log = NaN], not a
    number that is at least 0. *)
Lemma followers_log_negative_followers :
  ¬ (∃ y, get (preprocessTrack 2026 no_digits (row_followers "-5")) "followers_log"
          = VNum (Fin y)
          ∧ (0 <= fin_R y)%R).
Proof. intros (y & H & _). vm_compute in H. discriminate. Qed.

(** *** Decimal digits as numeric literals *)

Module NumLitFacts.
Import NumLit.

Lemma digits_all_dec s acc n : digits dec_digit 10 acc s = Some n → all_dec s = true.
Proof.
  revert acc. induction s as [|c s IH]; intros acc; simpl; [done|].
  destruct (dec_digit c); [eauto|done].
Qed.

Lemma dec_digit_props c :
  is_Some (dec_digit c) →
  Str.is_ws c = false
  ∧ Ascii.eqb c "+" = false ∧ Ascii.eqb c "-" = false
  ∧ Ascii.eqb c "." = false ∧ Ascii.eqb c "I" = false
  ∧ Ascii.eqb c "x" = false ∧ Ascii.eqb c "X" = false
  ∧ Ascii.eqb c "o" = false ∧ Ascii.eqb c "O" = false
  ∧ Ascii.eqb c "b" = false ∧ Ascii.eqb c "B" = false.
Proof.
  intros [d Hd]. revert Hd.
  destruct c as [[] [] [] [] [] [] [] []]; vm_compute; intros; try done.
Qed.

Lemma all_dec_trimStart s : all_dec s = true → Str.trimStart s = s.
Proof.
  destruct s as [|c s]; simpl; [done|].
  destruct (dec_digit c) eqn:E; [|done]. intros _.
  by destruct (dec_digit_props c ltac:(by rewrite E)) as (-> & _).
Qed.

Lemma all_dec_trimEnd s : all_dec s = true → Str.trimEnd s = s.
Proof.
  induction s as [|c s IH]; simpl; [done|].
  destruct (dec_digit c) eqn:E; [|done]. intros H. rewrite IH by done.
  destruct (dec_digit_props c ltac:(by rewrite E)) as (-> & _).
  by destruct s.
Qed.

Lemma all_dec_span s : all_dec s = true → span_dec s = (s, "").
Proof.
  induction s as [|c s IH]; simpl; [done|].
  destruct (dec_digit c); [|done]. intros H. by rewrite IH.
Qed.

Lemma digits_bound s acc n :
  (0 <= acc)%Z → digits dec_digit 10 acc s = Some n →
  (0 <= n < (acc + 1) * 10 ^ Z.of_nat (String.length s))%Z.
Proof.
  revert acc. induction s as [|c s IH]; intros acc Hacc; cbn [digits String.length].
  - intros [= <-]. change (10 ^ Z.of_nat 0)%Z with 1%Z. lia.
  - destruct (dec_digit c) as [d|] eqn:E; [|done].
    assert (0 <= d <= 9)%Z.
    { unfold dec_digit in E. destruct (between 48 57 c) eqn:B; [|done].
      injection E as <-. unfold between in B.
      apply andb_true_iff in B as [B1%Nat.leb_le B2%Nat.leb_le]. lia. }
    intros Hn. apply IH in Hn; [|lia].
    rewrite Nat2Z.inj_succ, Z.pow_succ_r by lia. nia.
Qed.

Lemma of_exact_small z :
  (0 <= z < 10 ^ 300)%Z → of_exact (inject_Z z) = Fin (Rat (inject_Z z)).
Proof.
  intros Hz. unfold of_exact.
  destruct (Qle_bool overflow_threshold (Qabs (inject_Z z))) eqn:E; [|done].
  exfalso. apply Qle_bool_iff in E.
  unfold Qle, overflow_threshold, inject_Z, Qabs in E. cbn [Qnum Qden] in E.
  rewrite !Z.mul_1_r, Z.abs_eq in E by lia.
  assert (10 ^ 300 < 2 ^ 1024 - 2 ^ 970)%Z by (vm_compute; reflexivity).
  lia.
Qed.

(** A run of up to 300 decimal digits converts to the integer it writes. *)
Lemma to_number_digits s n :
  s ≠ "" → (String.length s ≤ 300)%nat →
  digits dec_digit 10 0 s = Some n → to_number s = num_of_Z n.
Proof.
  intros Hne Hlen Hd. pose proof (digits_all_dec _ _ _ Hd) as Hall.
  assert (Hn : (0 <= n < 10 ^ 300)%Z).
  { pose proof (digits_bound _ _ _ (Z.le_refl 0) Hd) as [? Hb]. split; [done|].
    eapply Z.lt_le_trans; [exact Hb|]. rewrite Z.mul_1_l.
    apply Z.pow_le_mono_r; lia. }
  unfold to_number, Str.trim.
  rewrite (all_dec_trimStart s Hall), (all_dec_trimEnd s Hall).
  destruct s as [|c s]; [done|]. clear Hne.
  assert (Hc : is_Some (dec_digit c)).
  { simpl in Hall. by destruct (dec_digit c). }
  destruct (dec_digit_props c Hc)
    as (_ & Hplus & Hminus & Hdot & HI & _).
  assert (Hnd : non_decimal (String c s) = None).
  { unfold non_decimal. destruct (Ascii.eqb_spec c "0"); [|
      by destruct c as [[] [] [] [] [] [] [] []] ].
    subst c. destruct s as [|k d]; [done|].
    assert (Hk : is_Some (dec_digit k)).
    { simpl in Hall. by destruct (dec_digit k). }
    destruct (dec_digit_props k Hk)
      as (_ & _ & _ & _ & _ & -> & -> & -> & -> & -> & ->). done. }
  cbn [Str.nonempty String.eqb negb]. rewrite Hnd.
  assert (Hsd : signed_decimal (String c s) = Some (num_of_Z n)).
  { unfold signed_decimal.
    replace (match String c s with
             | String "+"%char u => (false, u)
             | String "-"%char u => (true, u)
             | _ => (false, String c s)
             end) with (false, String c s)
      by (apply Ascii.eqb_neq in Hplus, Hminus;
          by destruct c as [[] [] [] [] [] [] [] []]).
    replace (String.eqb (String c s) "Infinity") with false
      by (cbn [String.eqb]; by rewrite HI).
    unfold unsigned_decimal. rewrite (all_dec_span _ Hall).
    cbn [Str.nonempty String.eqb negb]. rewrite Hd. cbn [mbind option_bind exponent].
    change (Qpower 10 0) with 1%Q.
    rewrite (Qred_complete _ _ (Qmult_1_r (inject_Z n))), inject_Z_Qred.
    by rewrite of_exact_small. }
  by rewrite Hsd.
Qed.

End NumLitFacts.

(** *** Release year *)

Lemma fin_leb_of_Z a b : fin_leb (fin_of_Z a) (fin_of_Z b) = (a <=? b)%Z.
Proof.
  apply eq_true_iff_eq. rewrite fin_leb_spec, !fin_R_of_Z, Z.leb_le.
  split; [apply le_IZR | apply IZR_le].
Qed.

Lemma num_add_of_Z a b : num_add (num_of_Z a) (num_of_Z b) = num_of_Z (a + b).
Proof.
  unfold num_of_Z, fin_of_Z. cbn [num_add fin_add]. do 2 f_equal.
  by rewrite <- inject_Z_plus, inject_Z_Qred.
Qed.

Lemma slice0_length n s : (n <= String.length s)%nat → String.length (Str.slice0 n s) = n.
Proof.
  unfold Str.slice0. revert s. induction n as [|n IH]; intros s H.
  - by destruct s.
  - destruct s as [|c s]; simpl in *; [lia|]. rewrite IH; [done|lia].
Qed.

Lemma year_in_range cy r :
  year cy r = VUndef
  ∨ ∃ x, year cy r = VNum (Fin x) ∧ yearRaw r = Fin x
         ∧ (1900 <= fin_R x <= IZR cy + 1)%R.
Proof.
  unfold year. destruct (yearRaw r) as [| | |x]; try (by left).
  rewrite num_add_of_Z. unfold num_geb, num_of_Z.
  cbn [num_isFinite andb num_leb].
  destruct (fin_leb (fin_of_Z 1900) x) eqn:E1; [|by left].
  destruct (fin_leb x (fin_of_Z (cy + 1))) eqn:E2; [|by left].
  right. exists x. split; [done|]. split; [done|].
  apply fin_leb_spec in E1, E2. rewrite fin_R_of_Z in E1, E2.
  rewrite plus_IZR in E2. lra.
Qed.

Lemma year_of_digits cy r d n :
  get r "album_release_date" = VStr d →
  leading_year d = Some n →
  year cy r = if ((1900 <=? n) && (n <=? cy + 1))%Z
              then VNum (num_of_Z n) else VUndef.
Proof.
  intros Hd Hn. unfold leading_year in Hn. unfold year, yearRaw. rewrite Hd.
  destruct (4 <=? String.length d)%nat eqn:Hlen; [|done].
  apply Nat.leb_le in Hlen.
  assert (Hne : Str.slice0 4 d ≠ "").
  { intros E. pose proof (slice0_length 4 d Hlen) as L. by rewrite E in L. }
  assert (Hl4 : (String.length (Str.slice0 4 d) ≤ 300)%nat).
  { rewrite (slice0_length 4 d Hlen). lia. }
  cbn [Number]. rewrite (NumLitFacts.to_number_digits _ _ Hne Hl4 Hn).
  rewrite num_add_of_Z. unfold num_geb, num_of_Z.
  cbn [num_isFinite num_leb andb].
  by rewrite !fin_leb_of_Z.
Qed.

Lemma year_of_text cy r d :
  get r "album_release_date" = VStr d → (4 ≤ String.length d)%nat →
  (year_in_bounds cy (Number (VStr (Str.slice0 4 d))) →
   year cy r = VNum (Number (VStr (Str.slice0 4 d))))
  ∧ (¬ year_in_bounds cy (Number (VStr (Str.slice0 4 d))) →
     year cy r = VUndef).
Proof.
  intros Hd Hlen. unfold year, yearRaw. rewrite Hd.
  apply Nat.leb_le in Hlen. rewrite Hlen.
  destruct (Number (VStr (Str.slice0 4 d))) as [| | |x] eqn:E;
    try (split; [by intros (? & [=] & _)|done]).
  rewrite num_add_of_Z. unfold num_geb, num_of_Z.
  cbn [num_isFinite andb num_leb].
  destruct (fin_leb (fin_of_Z 1900) x) eqn:E1;
    destruct (fin_leb x (fin_of_Z (cy + 1))) eqn:E2; cbn [andb];
    [apply fin_leb_spec in E1|apply fin_leb_spec in E1
    |apply not_true_iff_false in E1; rewrite fin_leb_spec in E1
    |apply not_true_iff_false in E1; rewrite fin_leb_spec in E1];
    [apply fin_leb_spec in E2
    |apply not_true_iff_false in E2; rewrite fin_leb_spec in E2
    |apply fin_leb_spec in E2
    |apply not_true_iff_false in E2; rewrite fin_leb_spec in E2];
    rewrite fin_R_of_Z in E1, E2; rewrite plus_IZR in E2.
  - split; [done|]. intros H. destruct H. exists x. split; [done|lra].
  - split; [|done]. intros (x' & [= <-] & Hx). lra.
  - split; [|done]. intros (x' & [= <-] & Hx). lra.
  - split; [|done]. intros (x' & [= <-] & Hx). lra.
Qed.

(** C6 (as the code has it).  For every raw row the derived release
    year is either absent or a finite number within
    [1900, currentYear + 1], so never 0.  When the date is a text of four
    or more characters it is what [Number] makes of the first four
    characters, kept when that is a number inside the bounds and absent
    otherwise: four decimal digits give the integer they write, and the
    other numeric literals of four characters are read as well, so that
    19e2-01-01 gives 1900.  A date that is not text, or is shorter than
    four characters, gives an absent year.  With the current year at
    least 2020 the date 2021-05-01 gives 2021; 99 and 1899-01-01 give an
    absent year; so does 2999-01-01 while the current year is below
    2998. *)
Theorem release_year_rule (cy : Z) (nts : num → string) (r : row) :
  (get (preprocessTrack cy nts r) "release_year" = VUndef
   ∨ ∃ x, get (preprocessTrack cy nts r) "release_year" = VNum (Fin x)
          ∧ (1900 <= fin_R x <= IZR cy + 1)%R)
  ∧ (∀ d, get r "album_release_date" = VStr d → (4 ≤ String.length d)%nat →
          (year_in_bounds cy (Number (VStr (Str.slice0 4 d))) →
           get (preprocessTrack cy nts r) "release_year"
           = VNum (Number (VStr (Str.slice0 4 d))))
          ∧ (¬ year_in_bounds cy (Number (VStr (Str.slice0 4 d))) →
             get (preprocessTrack cy nts r) "release_year" = VUndef))
  ∧ (∀ d n, get r "album_release_date" = VStr d →
            leading_year d = Some n →
            get (preprocessTrack cy nts r) "release_year"
            = if ((1900 <=? n) && (n <=? cy + 1))%Z
              then VNum (num_of_Z n) else VUndef)
  ∧ ((∀ d, get r "album_release_date" = VStr d → (String.length d < 4)%nat) →
     get (preprocessTrack cy nts r) "release_year" = VUndef)
  ∧ ((2020 <= cy)%Z →
     get (preprocessTrack cy nts (row_released "2021-05-01")) "release_year"
     = VNum (num_of_Z 2021))
  ∧ get (preprocessTrack cy nts (row_released "99")) "release_year" = VUndef
  ∧ get (preprocessTrack cy nts (row_released "1899-01-01")) "release_year" = VUndef
  ∧ ((cy < 2998)%Z →
     get (preprocessTrack cy nts (row_released "2999-01-01")) "release_year" = VUndef)
  ∧ ((1899 <= cy)%Z →
     get (preprocessTrack cy nts (row_released "19e2-01-01")) "release_year"
     = VNum (num_of_Z 1900)).
Proof.
  rewrite !preprocessTrack_release_year.
  split.
  { destruct (year_in_range cy r) as [H|(x & H & _ & Hx)]; [by left|].
    right. by exists x. }
  split; [apply year_of_text|]. split; [apply year_of_digits|]. split.
  { intros H. unfold year, yearRaw.
    destruct (get r "album_release_date") as [| | | |d] eqn:E; try done.
    specialize (H d eq_refl).
    destruct (4 <=? String.length d)%nat eqn:L; [|done].
    apply Nat.leb_le in L. lia. }
  split.
  { intros H. rewrite (year_of_digits cy _ "2021-05-01" 2021) by done.
    replace (2021 <=? cy + 1)%Z with true by (symmetry; apply Z.leb_le; lia).
    done. }
  split; [done|]. split.
  { by rewrite (year_of_digits cy _ "1899-01-01" 1899). }
  split.
  { intros H. rewrite (year_of_digits cy _ "2999-01-01" 2999) by done.
    replace (2999 <=? cy + 1)%Z with false by (symmetry; apply Z.leb_gt; lia).
    done. }
  intros H.
  destruct (year_of_text cy (row_released "19e2-01-01") "19e2-01-01")
    as [Hin _]; [done|cbn; lia|].
  assert (E : Number (VStr (Str.slice0 4 "19e2-01-01")) = num_of_Z 1900)
    by (vm_compute; reflexivity).
  rewrite E in Hin. apply Hin. exists (fin_of_Z 1900). split; [done|].
  rewrite fin_R_of_Z, <- plus_IZR. split; [lra|]. apply IZR_le. lia.
Qed.

Lemma release_year_rule_witness :
  get (preprocessTrack 2026 no_digits (row_released "2021-05-01")) "release_year"
  = VNum (num_of_Z 2021)
  ∧ get (preprocessTrack 2026 no_digits (row_released "2999-01-01")) "release_year"
    = VUndef
  ∧ get (preprocessTrack 2026 no_digits (row_released "1987-12-24")) "release_year"
    = VNum (num_of_Z 1987)
  ∧ get (preprocessTrack 2026 no_digits (row_followers "12")) "release_year"
    = VUndef
  ∧ get (preprocessTrack 2026 no_digits (row_released "19e2-01-01")) "release_year"
    = VNum (num_of_Z 1900)
  ∧ get (preprocessTrack 2026 no_digits (row_released "12px-01-01")) "release_year"
    = VUndef.
Proof.
  pose proof (release_year_rule 2026 no_digits (row_released "1987-12-24"))
    as (_ & _ & Hd & _ & H21 & _ & _ & H29 & H19).
  pose proof (release_year_rule 2026 no_digits (row_followers "12"))
    as (_ & _ & _ & Hshort & _).
  pose proof (release_year_rule 2026 no_digits (row_released "12px-01-01"))
    as (_ & Htext & _).
  split; [apply H21; lia|]. split; [apply H29; lia|]. split; [|split; [|split]].
  - apply (Hd "1987-12-24" 1987%Z); reflexivity.
  - apply Hshort. intros d H. vm_compute in H. discriminate.
  - apply H19. lia.
  - apply (Htext "12px-01-01"); [reflexivity|cbn; lia|].
    intros (x & H & _). vm_compute in H. discriminate.
Defined.

(** C6 as the specification states it fails: the first four characters
    of the date 19e2-01-01 are no integer (read as one they give no
    year, and the digits they start with write 19, below 1900), yet the
    code, which converts them with [Number], derives the year 1900. *)
Lemma release_year_not_integer_parse :
  get (preprocessTrack 2026 no_digits (row_released "19e2-01-01")) "release_year"
  = VNum (num_of_Z 1900)
  ∧ year_as_stated 2026 "19e2-01-01" = VUndef
  ∧ leading_digits "19e2-01-01" = Some 19%Z
  ∧ get (preprocessTrack 2026 no_digits (row_released "19e2-01-01")) "release_year"
    ≠ year_as_stated 2026 "19e2-01-01".
Proof.
  assert (E : get (preprocessTrack 2026 no_digits (row_released "19e2-01-01"))
                "release_year" = VNum (num_of_Z 1900)).
  { rewrite preprocessTrack_release_year. vm_compute. reflexivity. }
  split; [exact E|]. split; [reflexivity|]. split; [reflexivity|].
  rewrite E. discriminate.
Qed.

(** ** Maps in insertion order *)

Module JsMapFacts.
Section Facts.
Context {K V : Type} `{EqDecision K}.
Implicit Types (m : list (K * V)) (k : K) (v : V).

Lemma get_set_eq k v m : JsMap.get k (JsMap.set k v m) = Some v.
Proof.
  induction m as [|[k' v'] m IH]; simpl.
  - by rewrite decide_True.
  - destruct (decide (k' = k)) as [->|Hne]; simpl.
    + by rewrite decide_True.
    + by rewrite decide_False.
Qed.

Lemma get_set_ne k k' v m : k ≠ k' → JsMap.get k' (JsMap.set k v m) = JsMap.get k' m.
Proof.
  intros Hne. induction m as [|[k0 v0] m IH]; simpl.
  - by rewrite decide_False.
  - destruct (decide (k0 = k)) as [->|Hne0]; simpl.
    + by rewrite !decide_False.
    + destruct (decide (k0 = k')); [done|apply IH].
Qed.

Lemma get_Some_values k v m : JsMap.get k m = Some v → v ∈ JsMap.values m.
Proof.
  unfold JsMap.values. induction m as [|[k' v'] m IH]; simpl; [done|].
  destruct (decide (k' = k)).
  - intros [= ->]. apply list_elem_of_here.
  - intros H. apply list_elem_of_further. by apply IH.
Qed.

End Facts.
End JsMapFacts.

(** ** Merge stage *)

Lemma rows_with_cons k r rows :
  rows_with k (r :: rows)
  = if decide (get r "track_id" = k) then r :: rows_with k rows
    else rows_with k rows.
Proof.
  unfold rows_with. simpl. destruct (decide (get r "track_id" = k)).
  - by rewrite bool_decide_true.
  - by rewrite bool_decide_false.
Qed.

(** After the first loop each key holds the last row of [B] that carries it. *)
Lemma get_seed_from (m : list (value * row)) B k :
  JsMap.get k (foldl (λ m r, JsMap.set (get r "track_id") r m) m B)
  = match last (rows_with k B) with
    | Some b => Some b
    | None => JsMap.get k m
    end.
Proof.
  revert m. induction B as [|r B IH]; intros m; [done|].
  cbn [foldl]. rewrite IH, rows_with_cons.
  destruct (decide (get r "track_id" = k)) as [<-|Hne].
  - rewrite last_cons, JsMapFacts.get_set_eq. by destruct (last _).
  - by rewrite JsMapFacts.get_set_ne.
Qed.

Lemma get_seed B k : JsMap.get k (seed B) = last (rows_with k B).
Proof. unfold seed. rewrite get_seed_from. by destruct (last _). Qed.

(** After the second loop a key no row of [A] carries is untouched, and a
    key of [A] holds its rows of [A] laid, in order, over what the key
    held before. *)
Lemma get_overlay A (m : list (value * row)) k :
  JsMap.get k (overlay A m)
  = match rows_with k A with
    | [] => JsMap.get k m
    | rs => Some (foldl (λ acc a, a ∪ acc) (default ∅ (JsMap.get k m)) rs)
    end.
Proof.
  unfold overlay. revert m. induction A as [|r A IH]; intros m; [done|].
  cbn [foldl]. rewrite IH, rows_with_cons.
  destruct (decide (get r "track_id" = k)) as [<-|Hne].
  - rewrite JsMapFacts.get_set_eq. cbn [default foldl].
    by destruct (rows_with _ A).
  - by rewrite JsMapFacts.get_set_ne.
Qed.

(** Laying rows over a record: a field of the last row wins, and a field
    none of the rows has keeps the record's value. *)
Lemma lay_over_last (rs : list row) (base a : row) f v :
  last rs = Some a → a !! f = Some v →
  foldl (λ acc a, a ∪ acc) base rs !! f = Some v.
Proof.
  revert base. induction rs as [|r rs IH]; intros base; [done|].
  rewrite last_cons. cbn [foldl]. destruct (last rs) as [a'|] eqn:E.
  - intros [= ->]. by apply IH.
  - intros [= ->] Hf. apply last_None in E. subst rs. cbn [foldl].
    by apply lookup_union_Some_l.
Qed.

Lemma lay_over_absent (rs : list row) (base : row) f :
  (∀ a, a ∈ rs → a !! f = None) →
  foldl (λ acc a, a ∪ acc) base rs !! f = base !! f.
Proof.
  revert base. induction rs as [|r rs IH]; intros base H; [done|].
  cbn [foldl]. rewrite IH.
  - rewrite lookup_union_r; [done|]. apply H, list_elem_of_here.
  - intros a Ha. apply H. by apply list_elem_of_further.
Qed.

(** C3. The merge step maps each identifier to one record.  For an
    identifier that rows of [A] carry, every field of [A]'s row (the last
    one, should [A] repeat the identifier) is in the merged record with
    [A]'s value, and every field that [A]'s rows lack has what [B]'s row
    has for it.  An identifier that only [B] carries keeps [B]'s record
    unchanged.  The example of the specification merges as listed. *)
Theorem merge_by_track_id_rule (A B : list row) (k : value) :
  (∀ a, last (rows_with k A) = Some a →
     ∃ m, JsMap.get k (merge_by_track_id A B) = Some m
          ∧ m ∈ JsMap.values (merge_by_track_id A B)
          ∧ (∀ f v, a !! f = Some v → m !! f = Some v)
          ∧ (∀ f, (∀ a', a' ∈ rows_with k A → a' !! f = None) →
                  m !! f = default ∅ (last (rows_with k B)) !! f))
  ∧ (rows_with k A = [] →
     JsMap.get k (merge_by_track_id A B) = last (rows_with k B))
  ∧ JsMap.get (VStr "id1") (merge_by_track_id merge_A merge_B)
    = Some {[ "track_id" := VStr "id1"; "popularity" := VNum (num_of_Z 80);
              "name" := VStr "X" ]}.
Proof.
  unfold merge_by_track_id. split; [|split].
  - intros a Ha.
    assert (Hm : JsMap.get k (overlay A (seed B))
                 = Some (foldl (λ acc a, a ∪ acc)
                           (default ∅ (last (rows_with k B))) (rows_with k A))).
    { rewrite get_overlay, get_seed.
      destruct (rows_with k A); [done|done]. }
    eexists. split; [exact Hm|]. split; [|split].
    + by apply (JsMapFacts.get_Some_values k).
    + intros f v Hf. by apply (lay_over_last _ _ a).
    + intros f Hf. by apply lay_over_absent.
  - intros HA. by rewrite get_overlay, HA, get_seed.
  - vm_compute. reflexivity.
Qed.

Lemma merge_by_track_id_rule_witness :
  (∃ m, JsMap.get (VStr "id1") (merge_by_track_id merge_A merge_B) = Some m
        ∧ m !! "popularity" = Some (VNum (num_of_Z 80))
        ∧ m !! "name" = Some (VStr "X"))
  ∧ JsMap.get (VStr "id2") (merge_by_track_id merge_A merge_B)
    = Some {[ "track_id" := VStr "id2"; "name" := VStr "Y" ]}.
Proof.
  split.
  - destruct (merge_by_track_id_rule merge_A merge_B (VStr "id1")) as (H & _).
    destruct (H {[ "track_id" := VStr "id1"; "popularity" := VNum (num_of_Z 80) ]}
                eq_refl) as (m & Hm & _ & Hov & Hkeep).
    exists m. split; [exact Hm|]. split.
    + apply Hov. reflexivity.
    + rewrite Hkeep; [reflexivity|].
      intros a' Ha'. vm_compute in Ha'.
      apply list_elem_of_singleton in Ha'. subst a'. reflexivity.
  - destruct (merge_by_track_id_rule merge_A merge_B (VStr "id2")) as (_ & H & _).
    rewrite H by reflexivity. reflexivity.
Defined.

(** ** End-to-end pipeline *)

Lemma rows_with_preprocessTracks cy nts k rows :
  rows_with k (preprocessTracks cy nts rows)
  = preprocessTrack cy nts <$> rows_with k rows.
Proof.
  unfold preprocessTracks. induction rows as [|r rows IH]; [done|].
  cbn [fmap list_fmap]. rewrite !rows_with_cons, preprocessTrack_track_id.
  destruct (decide (get r "track_id" = k)); [|done].
  cbn [fmap list_fmap]. by rewrite IH.
Qed.

Lemma get_union_l (a b : row) f v : a !! f = Some v → get (a ∪ b) f = v.
Proof. intros H. unfold get. by rewrite (lookup_union_Some_l a b f v H). Qed.

Lemma get_lookup (r : row) f v : r !! f = Some v → get r f = v.
Proof. intros H. unfold get. by rewrite H. Qed.

Lemma lookup_preprocessTrack_Some cy nts r f v :
  assigned f
    [ ("track_number", VNum (toNumber (get r "track_number") (num_of_Z 0)));
      ("track_popularity", VNum (toNumber (get r "track_popularity") (num_of_Z 0)));
      ("explicit", VBool (toBool (get r "explicit")));
      ("artist_popularity", VNum (toNumber (get r "artist_popularity") (num_of_Z 0)));
      ("artist_followers", VNum (followers r));
      ("album_total_tracks", VNum (toNumber (get r "album_total_tracks") (num_of_Z 0)));
      ("track_duration_ms", finite_or_undef (ms r));
      ("track_duration_min", finite_or_undef (minFromCol r));
      ("release_year", year cy r);
      ("followers_log", VNum (followersLog r));
      ("duration_min",
        if num_isFinite (minFromCol r) then VNum (minFromCol r)
        else finite_or_undef (minFromMs r));
      ("genre_top", VStr (genreTop nts r)) ] = Some v →
  preprocessTrack cy nts r !! f = Some v.
Proof. apply lookup_assign_Some. Qed.

(** C1 (as the code has it).  Two sources are loaded and normalized;
    source A has one row for [t1], with [artist_followers] 999 and no
    [artist_popularity]; source B has one row for [t1], with
    [artist_popularity] 40 and no [artist_followers].  The merged record
    for [t1] is in the dataset and has [artist_followers] 999,
    [followers_log] the logarithm of 1000, that is 3, and
    [artist_popularity] 0: the normalized row of A carries the fallback 0,
    which overrides the 40 of B. *)
Theorem pipeline_merge_t1
    (cy : Z) (nts : num → string) (srcA srcB : list row) (a b : row) :
  rows_with (VStr "t1") srcA = [a] →
  rows_with (VStr "t1") srcB = [b] →
  get a "artist_followers" = VStr "999" →
  get a "artist_popularity" = VUndef →
  get b "artist_popularity" = VStr "40" →
  get b "artist_followers" = VUndef →
  ∃ m, JsMap.get (VStr "t1")
         (merge_by_track_id (preprocessTracks cy nts srcA)
                            (preprocessTracks cy nts srcB)) = Some m
       ∧ m ∈ load cy nts srcA srcB
       ∧ get m "artist_followers" = VNum (num_of_Z 999)
       ∧ (∃ y, get m "followers_log" = VNum (Fin y) ∧ fin_R y = 3%R)
       ∧ get m "artist_popularity" = VNum (num_of_Z 0)
       ∧ get (preprocessTrack cy nts b) "artist_popularity" = VNum (num_of_Z 40).
Proof.
  intros HA HB Hfa Hpa Hpb Hfb.
  assert (Hfol : followers a = num_of_Z 999).
  { unfold followers. by rewrite Hfa. }
  assert (Hm : JsMap.get (VStr "t1")
                 (merge_by_track_id (preprocessTracks cy nts srcA)
                                    (preprocessTracks cy nts srcB))
               = Some (preprocessTrack cy nts a ∪ preprocessTrack cy nts b)).
  { unfold merge_by_track_id.
    rewrite get_overlay, get_seed, !rows_with_preprocessTracks, HA, HB.
    done. }
  eexists. split; [exact Hm|]. split; [|split; [|split; [|split]]].
  - unfold load. by apply (JsMapFacts.get_Some_values (VStr "t1")).
  - apply get_union_l, lookup_preprocessTrack_Some. cbn. by rewrite Hfol.
  - destruct (followersLog_of_nonneg a (fin_of_Z 999) Hfol) as (y & Hy & Hv & _).
    { rewrite fin_R_of_Z. lra. }
    exists y. split.
    + apply get_union_l, lookup_preprocessTrack_Some. cbn. by rewrite Hy.
    + rewrite Hv, fin_R_of_Z.
      replace (999 + 1)%R with (10 ^ 3)%R by lra.
      rewrite log10R_pow10. simpl. lra.
  - apply get_union_l, lookup_preprocessTrack_Some. cbn. by rewrite Hpa.
  - rewrite preprocessTrack_artist_popularity. by rewrite Hpb.
Qed.

Lemma pipeline_merge_t1_witness :
  ∃ m, m ∈ load 2026 no_digits [csv_A_t1] [csv_B_t1]
       ∧ get m "artist_followers" = VNum (num_of_Z 999)
       ∧ (∃ y, get m "followers_log" = VNum (Fin y) ∧ fin_R y = 3%R)
       ∧ get m "artist_popularity" = VNum (num_of_Z 0).
Proof.
  destruct (pipeline_merge_t1 2026 no_digits [csv_A_t1] [csv_B_t1]
              csv_A_t1 csv_B_t1)
    as (m & _ & Hin & Hf & Hl & Hp & _); try reflexivity.
  exists m. auto.
Defined.

(** C1 as the specification states it fails: with the scenario's two
    rows as the sources, no record for [t1] in the dataset has
    [artist_followers] 999, [followers_log] within 0.00005 of 2.9996 and
    [artist_popularity] 40.  Every record of that dataset has
    [artist_popularity] 0 and [followers_log] 3. *)
Lemma pipeline_t1_not_as_stated :
  ¬ (∃ m y, m ∈ load 2026 no_digits [csv_A_t1] [csv_B_t1]
            ∧ get m "track_id" = VStr "t1"
            ∧ strict_eq (get m "artist_followers") (VNum (num_of_Z 999)) = true
            ∧ get m "followers_log" = VNum (Fin y)
            ∧ (Rabs (fin_R y - 2.9996) <= 0.00005)%R
            ∧ strict_eq (get m "artist_popularity") (VNum (num_of_Z 40)) = true)
  ∧ (∀ m, m ∈ load 2026 no_digits [csv_A_t1] [csv_B_t1] →
          get m "artist_popularity" = VNum (num_of_Z 0)
          ∧ ∃ y, get m "followers_log" = VNum (Fin y) ∧ fin_R y = 3%R).
Proof.
  assert (Hm : ∀ m, m ∈ load 2026 no_digits [csv_A_t1] [csv_B_t1] →
                    get m "artist_popularity" = VNum (num_of_Z 0)
                    ∧ ∃ y, get m "followers_log" = VNum (Fin y) ∧ fin_R y = 3%R).
  { intros m H. unfold load, merge_by_track_id in H.
    change (preprocessTracks 2026 no_digits [csv_A_t1])
      with [preprocessTrack 2026 no_digits csv_A_t1] in H.
    change (preprocessTracks 2026 no_digits [csv_B_t1])
      with [preprocessTrack 2026 no_digits csv_B_t1] in H.
    unfold seed, overlay in H. cbn [foldl] in H.
    rewrite !preprocessTrack_track_id in H.
    change (get csv_A_t1 "track_id") with (VStr "t1") in H.
    change (get csv_B_t1 "track_id") with (VStr "t1") in H.
    cbn in H. apply list_elem_of_singleton in H. subst m. split.
    - apply get_union_l, lookup_preprocessTrack_Some. reflexivity.
    - destruct (followersLog_of_nonneg csv_A_t1 (fin_of_Z 999) eq_refl)
        as (y & Hy & Hv & _).
      { rewrite fin_R_of_Z. lra. }
      exists y. split.
      + apply get_union_l, lookup_preprocessTrack_Some. cbn. by rewrite Hy.
      + rewrite Hv, fin_R_of_Z. replace (999 + 1)%R with (10 ^ 3)%R by lra.
        rewrite log10R_pow10. simpl. lra. }
  split; [|exact Hm].
  intros (m & y & Hin & _ & _ & _ & _ & Hp).
  destruct (Hm m Hin) as [Hpop _].
  rewrite Hpop in Hp. vm_compute in Hp. discriminate.
Qed.

(** ** Sorting *)

Section SortFacts.
Context {A : Type} (cmp : A → A → Z).
Implicit Types (l s : list A) (x y : A).

Lemma sort_insert_Permutation x l : sort_insert cmp x l ≡ₚ x :: l.
Proof.
  induction l as [|y l IH]; simpl; [done|].
  destruct (cmp x y <=? 0)%Z; [done|]. rewrite IH. apply Permutation_swap.
Qed.

Lemma js_sort_Permutation l : js_sort cmp l ≡ₚ l.
Proof.
  induction l as [|x l IH]; simpl; [done|].
  by rewrite sort_insert_Permutation, IH.
Qed.

Lemma js_sort_elem x l : x ∈ js_sort cmp l ↔ x ∈ l.
Proof. by rewrite js_sort_Permutation. Qed.

Lemma js_sort_length l : length (js_sort cmp l) = length l.
Proof. by rewrite js_sort_Permutation. Qed.

Lemma before_cons {B} (l : list B) (z a b : B) : before l a b → before (z :: l) a b.
Proof. intros (l1 & l2 & l3 & ->). by exists (z :: l1), l2, l3. Qed.

Lemma before_head {B} (l : list B) (a b : B) : b ∈ l → before (a :: l) a b.
Proof.
  intros (l2 & l3 & ->)%list_elem_of_split. by exists [], l2, l3.
Qed.

Lemma StronglySorted_weaken (R1 R2 : A → A → Prop) l :
  (∀ x y, x ∈ l → y ∈ l → R1 x y → R2 x y) →
  StronglySorted R1 l → StronglySorted R2 l.
Proof.
  intros H HS. induction HS as [|x l HS IH HF]; constructor.
  - apply IH. intros a b Ha Hb. apply H; by apply list_elem_of_further.
  - rewrite Forall_forall in HF |- *. intros y Hy.
    apply H; [apply list_elem_of_here|by apply list_elem_of_further|by apply HF].
Qed.

Lemma sort_insert_sorted (R : A → A → Prop) x s :
  StronglySorted R s →
  (∀ y, y ∈ s → (0 < cmp x y)%Z → R y x) →
  (∀ y w, y ∈ s → w ∈ s → (cmp x y <= 0)%Z → y = w ∨ R y w → R x w) →
  StronglySorted R (sort_insert cmp x s).
Proof.
  intros HS. induction HS as [|y s HS IH HF]; intros Hgt Hle; simpl.
  - repeat constructor.
  - destruct (Z.leb_spec (cmp x y) 0) as [L|G].
    + constructor; [by constructor|].
      rewrite Forall_forall in HF. apply Forall_forall. intros w Hw.
      apply (Hle y w); [apply list_elem_of_here|done|done|].
      apply elem_of_cons in Hw as [->|Hw]; [by left|right; by apply HF].
    + constructor.
      * apply IH.
        -- intros z Hz. apply Hgt. by apply list_elem_of_further.
        -- intros z w Hz Hw. apply Hle; by apply list_elem_of_further.
      * apply Forall_forall. intros w Hw.
        rewrite sort_insert_Permutation in Hw.
        apply elem_of_cons in Hw as [->|Hw].
        -- apply Hgt; [apply list_elem_of_here|done].
        -- rewrite Forall_forall in HF. by apply HF.
Qed.

(** The result is sorted and stable: of two entries, the one put first
    is not after the other for the comparator, and when the comparator
    ties them it is the one that stood first in the input.  The
    comparator has to be consistent on the pairs the sort compares (an
    entry with one that stands after it) and transitive on the list. *)
Lemma js_sort_stable l :
  (∀ x y, before l x y → (0 < cmp x y)%Z → (cmp y x <= 0)%Z) →
  (∀ x y w, x ∈ l → y ∈ l → w ∈ l →
            (cmp x y <= 0)%Z → (cmp y w <= 0)%Z → (cmp x w <= 0)%Z) →
  StronglySorted
    (λ a b, (cmp a b <= 0)%Z ∧ ((cmp b a <= 0)%Z → before l a b))
    (js_sort cmp l).
Proof.
  induction l as [|x l IH]; intros Htot Htrans; simpl; [constructor|].
  apply sort_insert_sorted.
  - eapply StronglySorted_weaken; [|apply IH].
    + intros a b _ _ [? Hb]. split; [done|]. intros ?. by apply before_cons, Hb.
    + intros a b Hab. apply Htot. by apply before_cons.
    + intros a b c Ha Hb Hc. apply Htrans; by apply list_elem_of_further.
  - intros y Hy Hgt. rewrite js_sort_elem in Hy. split.
    + apply Htot; [by apply before_head|done].
    + lia.
  - intros y w Hy Hw Hle Hyw. rewrite js_sort_elem in Hy, Hw. split.
    + destruct Hyw as [<-|[Hyw _]]; [done|].
      apply (Htrans x y w); try done;
        [apply list_elem_of_here|by apply list_elem_of_further..].
    + intros _. by apply before_head.
Qed.

End SortFacts.

(** ** Sets in insertion order *)

Module JsSetFacts.
Section Facts.
Context {K : Type} `{EqDecision K}.
Implicit Types (l s : list K) (x : K).

Lemma of_list_snoc l x : JsSet.of_list (l ++ [x]) = JsSet.add x (JsSet.of_list l).
Proof. unfold JsSet.of_list. by rewrite foldl_app. Qed.

Lemma elem_of_add x y s : y ∈ JsSet.add x s ↔ y = x ∨ y ∈ s.
Proof.
  unfold JsSet.add, JsSet.has. case_bool_decide as Hx.
  - split; [by right|]. by intros [->|?].
  - rewrite elem_of_app, list_elem_of_singleton. tauto.
Qed.

Lemma elem_of_of_list x l : x ∈ JsSet.of_list l ↔ x ∈ l.
Proof.
  induction l as [|y l IH] using rev_ind; [done|].
  rewrite of_list_snoc, elem_of_add, elem_of_app, list_elem_of_singleton, IH.
  tauto.
Qed.

Lemma NoDup_add x s : NoDup s → NoDup (JsSet.add x s).
Proof.
  intros Hs. unfold JsSet.add, JsSet.has. case_bool_decide as Hx; [done|].
  apply NoDup_app. split; [done|]. split.
  - intros y Hy ->%list_elem_of_singleton. done.
  - apply NoDup_singleton.
Qed.

Lemma NoDup_of_list l : NoDup (JsSet.of_list l).
Proof.
  induction l as [|y l IH] using rev_ind; [constructor|].
  rewrite of_list_snoc. by apply NoDup_add.
Qed.

(** A list without repetition is its own set. *)
Lemma of_list_NoDup l : NoDup l → JsSet.of_list l = l.
Proof.
  induction l as [|y l IH] using rev_ind; [done|].
  intros [Hl [Hy _]]%NoDup_app. rewrite of_list_snoc, IH by done.
  unfold JsSet.add, JsSet.has. rewrite bool_decide_false; [done|].
  intros Hin. apply (Hy y Hin), list_elem_of_here.
Qed.

End Facts.
End JsSetFacts.

(** ** Top-K aggregator *)

Section Graph.
Context {K V : Type} `{EqDecision K}.
Implicit Types (f : K → V) (ks : list K).

Lemma get_graph f ks g :
  JsMap.get g ((λ h, (h, f h)) <$> ks)
  = if decide (g ∈ ks) then Some (f g) else None.
Proof.
  induction ks as [|k ks IH]; csimpl.
  - done.
  - destruct (decide (k = g)) as [->|Hne].
    + by rewrite decide_True by apply list_elem_of_here.
    + rewrite IH. destruct (decide (g ∈ ks)) as [Hin|Hin].
      * by rewrite decide_True by by apply list_elem_of_further.
      * rewrite decide_False; [done|].
        rewrite elem_of_cons. intros [->|?]; done.
Qed.

Lemma set_graph_in f ks g c :
  NoDup ks → g ∈ ks →
  JsMap.set g c ((λ h, (h, f h)) <$> ks)
  = (λ h, (h, if decide (h = g) then c else f h)) <$> ks.
Proof.
  induction ks as [|k ks IH]; intros Hnd Hin; [by apply elem_of_nil in Hin|].
  apply NoDup_cons in Hnd as [Hk Hnd]. csimpl.
  destruct (decide (k = g)) as [->|Hne].
  - f_equal. apply list_fmap_ext. intros i h Hh.
    rewrite decide_False; [done|]. intros ->.
    apply Hk. by apply list_elem_of_lookup_2 in Hh.
  - f_equal. apply IH; [done|].
    apply elem_of_cons in Hin as [->|?]; done.
Qed.

Lemma set_graph_notin f ks g c :
  g ∉ ks →
  JsMap.set g c ((λ h, (h, f h)) <$> ks) = ((λ h, (h, f h)) <$> ks) ++ [(g, c)].
Proof.
  induction ks as [|k ks IH]; intros Hin; [done|].
  apply not_elem_of_cons in Hin as [Hne Hin]. csimpl.
  rewrite decide_False by done. f_equal. by apply IH.
Qed.

End Graph.

Lemma occurrences_snoc h l g :
  occurrences h (l ++ [g]) = occurrences h l + (if decide (g = h) then 1 else 0).
Proof.
  unfold occurrences. rewrite List.filter_app, length_app. simpl.
  destruct (decide (g = h)) as [->|Hne].
  - by rewrite bool_decide_true.
  - by rewrite bool_decide_false.
Qed.

Lemma occurrences_pos g l : g ∈ l ↔ 0 < occurrences g l.
Proof.
  unfold occurrences. induction l as [|h l IH]; simpl.
  - split; [by intros ?%elem_of_nil|lia].
  - rewrite elem_of_cons. case_bool_decide as E; simpl.
    + subst. split; [lia|by left].
    + rewrite <- IH. split; [intros [->|?]; done|by right].
Qed.

(** The counting pass leaves the distinct labels in order of first
    encounter, each with its number of occurrences. *)
Lemma count_pass_tally labels : count_pass labels = tally labels.
Proof.
  unfold count_pass, tally.
  induction labels as [|g labels IH] using rev_ind; [done|].
  rewrite foldl_app. cbn [foldl]. rewrite IH, get_graph.
  rewrite JsSetFacts.of_list_snoc.
  unfold JsSet.add, JsSet.has.
  destruct (decide (g ∈ JsSet.of_list labels)) as [Hin|Hin].
  - rewrite bool_decide_true by done. cbn [default].
    rewrite set_graph_in by (done || apply JsSetFacts.NoDup_of_list).
    apply list_fmap_ext. intros i h Hh. f_equal.
    rewrite occurrences_snoc. destruct (decide (h = g)) as [->|Hne].
    + by rewrite decide_True.
    + rewrite decide_False by done. lia.
  - rewrite bool_decide_false by done. cbn [default].
    rewrite set_graph_notin by done. rewrite fmap_app. cbn [fmap list_fmap].
    f_equal.
    + apply list_fmap_ext. intros i h Hh. f_equal.
      rewrite occurrences_snoc, decide_False; [lia|]. intros ->.
      apply Hin. by apply list_elem_of_lookup_2 in Hh.
    + rewrite occurrences_snoc, decide_True by done.
      rewrite JsSetFacts.elem_of_of_list in Hin.
      assert (occurrences g labels = 0); [|by f_equal; f_equal; lia].
      destruct (occurrences_pos g labels) as [_ H0].
      destruct (occurrences g labels); [done|]. exfalso. apply Hin, H0. lia.
Qed.

Lemma before_fmap {A B} (f : A → B) (l : list A) a b :
  before l a b → before (f <$> l) (f a) (f b).
Proof.
  intros (l1 & l2 & l3 & ->). exists (f <$> l1), (f <$> l2), (f <$> l3).
  by rewrite fmap_app, fmap_cons, fmap_app, fmap_cons.
Qed.

Lemma tally_keys labels : (tally labels).*1 = JsSet.of_list labels.
Proof.
  unfold tally. rewrite <- list_fmap_compose.
  rewrite <- (list_fmap_id (JsSet.of_list labels)) at 2.
  by apply list_fmap_ext.
Qed.

Lemma elem_of_tally g c labels :
  (g, c) ∈ tally labels ↔ g ∈ labels ∧ c = occurrences g labels.
Proof.
  unfold tally. rewrite list_elem_of_fmap. split.
  - intros (h & [= -> ->] & Hh). by rewrite JsSetFacts.elem_of_of_list in Hh.
  - intros [Hg ->]. exists g. by rewrite JsSetFacts.elem_of_of_list.
Qed.

Lemma by_count_desc_stable labels :
  StronglySorted
    (λ a b, a.2 ≥ b.2 ∧ (a.2 = b.2 → before (tally labels) a b))
    (js_sort by_count_desc (tally labels)).
Proof.
  eapply StronglySorted_weaken; [|apply js_sort_stable].
  - intros a b _ _ [H1 H2]. unfold by_count_desc in *. split; [lia|].
    intros E. apply H2. lia.
  - unfold by_count_desc. intros; lia.
  - unfold by_count_desc. intros; lia.
Qed.

Lemma top_labels_closed_form labels k :
  top_labels labels k = (take k (js_sort by_count_desc (tally labels))).*1.
Proof.
  unfold top_labels. rewrite count_pass_tally.
  apply JsSetFacts.of_list_NoDup.
  assert (Hnd : NoDup (js_sort by_count_desc (tally labels)).*1).
  { rewrite js_sort_Permutation, tally_keys. apply JsSetFacts.NoDup_of_list. }
  rewrite <- (take_drop k (js_sort _ _)), fmap_app in Hnd.
  by apply NoDup_app in Hnd as [? _].
Qed.

Lemma top_labels_rule labels k :
  NoDup (top_labels labels k)
  ∧ length (top_labels labels k) = k `min` length (JsSet.of_list labels)
  ∧ (∀ g, g ∈ top_labels labels k → g ∈ labels)
  ∧ (∀ g h, g ∈ top_labels labels k → h ∈ labels → h ∉ top_labels labels k →
       occurrences h labels < occurrences g labels
       ∨ (occurrences h labels = occurrences g labels
          ∧ before (JsSet.of_list labels) g h)).
Proof.
  pose proof (top_labels_closed_form labels k) as Htop.
  set (s := js_sort by_count_desc (tally labels)) in *.
  assert (Hs : ∀ g c, (g, c) ∈ s ↔ g ∈ labels ∧ c = occurrences g labels).
  { intros g c. unfold s. by rewrite js_sort_elem, elem_of_tally. }
  assert (Hin : ∀ g, g ∈ top_labels labels k →
                     (g, occurrences g labels) ∈ take k s).
  { intros g Hg. rewrite Htop in Hg.
    apply list_elem_of_fmap in Hg as ([g' c] & -> & Hgc).
    assert (Hc : (g', c) ∈ s) by (rewrite <- (take_drop k s), elem_of_app; by left).
    apply Hs in Hc as [_ ->]. done. }
  split; [|split; [|split]].
  - rewrite Htop.
    assert (Hnd : NoDup s.*1).
    { unfold s. rewrite js_sort_Permutation, tally_keys.
      apply JsSetFacts.NoDup_of_list. }
    rewrite <- (take_drop k s), fmap_app in Hnd.
    by apply NoDup_app in Hnd as [? _].
  - rewrite Htop, length_fmap, length_take. unfold s.
    by rewrite js_sort_length, <- tally_keys, length_fmap.
  - intros g Hg. apply Hin in Hg.
    assert (Hc : (g, occurrences g labels) ∈ s)
      by (rewrite <- (take_drop k s), elem_of_app; by left).
    by apply Hs in Hc as [? _].
  - intros g h Hg Hh Hnh.
    assert (Hd : (h, occurrences h labels) ∈ drop k s).
    { assert (Hc : (h, occurrences h labels) ∈ s) by by apply Hs.
      rewrite <- (take_drop k s), elem_of_app in Hc.
      destruct Hc as [Hc|Hc]; [|done]. exfalso. apply Hnh. rewrite Htop.
      by apply (list_elem_of_fmap_2 fst) in Hc. }
    pose proof (by_count_desc_stable labels) as HS. fold s in HS.
    rewrite <- (take_drop k s) in HS.
    destruct (StronglySorted_app_1_elem_of _ _ _ _ _ HS (Hin g Hg) Hd)
      as [Hge Hbefore].
    cbn [snd] in Hge, Hbefore.
    destruct (decide (occurrences h labels = occurrences g labels)) as [E|E];
      [right|left; lia].
    split; [done|]. rewrite <- tally_keys.
    apply (before_fmap fst) in Hbefore; [done|by symmetry].
Qed.

(** C8. For every dataset and every count K the aggregator returns K
    distinct labels of the dataset, or all of them when there are fewer.
    A returned label occurs at least as often as any label left out, and
    where the two occur equally often the returned one was met first by
    the counting pass.  With K = 2 over the labels a, a, a, b, b, c the
    result is the set of a and b. *)
Theorem topKGenres_rule (data : list row) (k : nat) :
  NoDup (topKGenres data k)
  ∧ length (topKGenres data k)
    = k `min` length (JsSet.of_list (genre_of <$> data))
  ∧ (∀ g, g ∈ topKGenres data k → g ∈ genre_of <$> data)
  ∧ (∀ g h, g ∈ topKGenres data k → h ∈ genre_of <$> data →
            h ∉ topKGenres data k →
       occurrences h (genre_of <$> data) < occurrences g (genre_of <$> data)
       ∨ (occurrences h (genre_of <$> data) = occurrences g (genre_of <$> data)
          ∧ before (JsSet.of_list (genre_of <$> data)) g h))
  ∧ topKGenres (labelled <$> ["a"; "a"; "a"; "b"; "b"; "c"]) 2
    = [VStr "a"; VStr "b"].
Proof.
  unfold topKGenres.
  destruct (top_labels_rule (genre_of <$> data) k) as (H1 & H2 & H3 & H4).
  by repeat split.
Qed.

Lemma topKGenres_rule_witness :
  VStr "b" ∈ genre_of <$> (labelled <$> ["b"; "a"; "c"; "a"; "b"])
  ∧ (occurrences (VStr "c") (genre_of <$> (labelled <$> ["b"; "a"; "c"; "a"; "b"]))
     < occurrences (VStr "b") (genre_of <$> (labelled <$> ["b"; "a"; "c"; "a"; "b"]))
     ∨ (occurrences (VStr "c") (genre_of <$> (labelled <$> ["b"; "a"; "c"; "a"; "b"]))
        = occurrences (VStr "b") (genre_of <$> (labelled <$> ["b"; "a"; "c"; "a"; "b"]))
        ∧ before (JsSet.of_list (genre_of <$> (labelled <$> ["b"; "a"; "c"; "a"; "b"])))
            (VStr "b") (VStr "c"))).
Proof.
  pose proof (topKGenres_rule (labelled <$> ["b"; "a"; "c"; "a"; "b"]) 2)
    as (_ & _ & Hin & Hrank & _).
  split.
  - apply Hin. compute_done.
  - apply Hrank; compute_done.
Defined.

(** ** Order on numbers *)

Lemma num_leb_total a b :
  a ≠ NaN → b ≠ NaN → num_leb a b = true ∨ num_leb b a = true.
Proof.
  destruct a as [| | |x], b as [| | |y]; simpl; intros; try done; auto.
  unfold fin_leb. destruct (fin_ltb y x) eqn:E; [|by left]. right.
  apply negb_true_iff, fin_ltb_false. apply fin_ltb_spec in E. lra.
Qed.

Lemma num_leb_trans a b c :
  num_leb a b = true → num_leb b c = true → num_leb a c = true.
Proof.
  destruct a as [| | |x], b as [| | |y], c as [| | |z]; simpl; try done.
  rewrite !fin_leb_spec. intros. lra.
Qed.

Lemma num_sgn_sub_le a b :
  a ≠ NaN → b ≠ NaN → (num_sgn (num_sub a b) <= 0)%Z ↔ num_leb a b = true.
Proof.
  destruct a as [| | |x], b as [| | |y];
    cbn [num_sub num_add num_opp num_sgn num_leb]; intros; try done;
    try (split; intros; (lia || done)).
  set (d := fin_add x (fin_opp y)).
  assert (Hd : fin_R d = (fin_R x - fin_R y)%R).
  { unfold d. rewrite fin_R_add, fin_R_opp. lra. }
  rewrite fin_leb_spec.
  destruct (fin_ltb d (fin_of_Z 0)) eqn:E1.
  - apply fin_ltb_spec in E1. rewrite Hd, fin_R_of_Z in E1. split; [lra|lia].
  - apply fin_ltb_false in E1. rewrite Hd, fin_R_of_Z in E1.
    destruct (fin_ltb (fin_of_Z 0) d) eqn:E2.
    + apply fin_ltb_spec in E2. rewrite Hd, fin_R_of_Z in E2. split; [lia|lra].
    + apply fin_ltb_false in E2. rewrite Hd, fin_R_of_Z in E2. split; [lra|lia].
Qed.

(** ** Parallel-coordinates sample *)

Lemma elem_of_filter_bool {A} (f : A → bool) (l : list A) x :
  x ∈ List.filter f l ↔ x ∈ l ∧ f x = true.
Proof. by rewrite !list_elem_of_In, filter_In. Qed.

Lemma elem_of_filter_year selY rows d :
  d ∈ filter_year selY rows
  ↔ d ∈ rows
    ∧ ∀ y, selY = Some y → strict_eq (get d "release_year") (VNum y) = true.
Proof.
  destruct selY as [y|]; simpl.
  - rewrite elem_of_filter_bool. split.
    + intros [? ?]. split; [done|]. by intros ? [= <-].
    + intros [? H]. split; [done|]. by apply H.
  - split; [by intros ?; split|by intros [? _]].
Qed.

Lemma elem_of_filter_genre selG rows d :
  d ∈ filter_genre selG rows
  ↔ d ∈ rows
    ∧ ∀ g, selG = Some g →
           strict_eq (bucket (topKGenres rows 10) (genre_of d)) (VStr g) = true.
Proof.
  destruct selG as [g|]; simpl.
  - rewrite elem_of_filter_bool. split.
    + intros [? ?]. split; [done|]. by intros ? [= <-].
    + intros [? H]. split; [done|]. by apply H.
  - split; [by intros ?; split|by intros [? _]].
Qed.

Lemma elem_of_pc_filtered data s d :
  d ∈ pc_filtered data s
  ↔ d ∈ data ∧ pc_valid d = true
    ∧ (∀ y, selectedYear s = Some y →
            strict_eq (get d "release_year") (VNum y) = true)
    ∧ (∀ g, selectedGenre s = Some g →
            strict_eq
              (bucket (topKGenres (pc_rows data (selectedYear s)) 10) (genre_of d))
              (VStr g) = true).
Proof.
  unfold pc_filtered. rewrite elem_of_filter_genre. unfold pc_rows at 1.
  rewrite elem_of_filter_year, elem_of_filter_bool. tauto.
Qed.

Lemma by_popularity_desc_le a b :
  popularity a ≠ NaN → popularity b ≠ NaN →
  (by_popularity_desc a b <= 0)%Z ↔ num_leb (popularity b) (popularity a) = true.
Proof. intros. unfold by_popularity_desc. by apply num_sgn_sub_le. Qed.

Lemma by_popularity_desc_sorted rows :
  (∀ d, d ∈ rows → popularity d ≠ NaN) →
  StronglySorted (λ a b, num_leb (popularity b) (popularity a) = true)
    (js_sort by_popularity_desc rows).
Proof.
  intros Hpop. eapply StronglySorted_weaken; [|apply js_sort_stable].
  - intros a b Ha Hb [H _]. rewrite js_sort_elem in Ha, Hb.
    apply by_popularity_desc_le; auto.
  - intros a b (l1 & l2 & l3 & ->) H.
    assert (Ha : a ∈ l1 ++ a :: l2 ++ b :: l3).
    { apply elem_of_app. right. apply list_elem_of_here. }
    assert (Hb : b ∈ l1 ++ a :: l2 ++ b :: l3).
    { apply elem_of_app. right. apply list_elem_of_further, elem_of_app.
      right. apply list_elem_of_here. }
    apply by_popularity_desc_le; auto.
    destruct (num_leb_total (popularity a) (popularity b)) as [L|L]; auto.
    exfalso. apply by_popularity_desc_le in L; auto. lia.
  - intros a b c Ha Hb Hc.
    rewrite !by_popularity_desc_le by auto.
    intros H1 H2. by apply (num_leb_trans _ (popularity b)).
Qed.

Lemma strict_eq_VStr v g : strict_eq v (VStr g) = true ↔ v = VStr g.
Proof.
  destruct v; cbn; try (split; [done|by intros [=]]).
  rewrite String.eqb_eq. split; [by intros ->|by intros [= ->]].
Qed.

Lemma kept_filter (p : row → bool) (P : row → Prop) l :
  (∀ d, p d = true ↔ P d) → kept P l (List.filter p l).
Proof.
  intros H. induction l as [|d l IH]; [constructor|]. cbn.
  destruct (p d) eqn:E.
  - apply kept_yes; [by apply H|done].
  - apply kept_no; [|done]. rewrite <- H, E. done.
Qed.

Lemma filter_year_filter selY rows :
  filter_year selY rows
  = List.filter (λ d, match selY with
                      | Some y => strict_eq (get d "release_year") (VNum y)
                      | None => true
                      end) rows.
Proof.
  destruct selY; [done|]. cbn. induction rows as [|d l IH]; [done|].
  cbn. by rewrite <- IH.
Qed.

Lemma filter_genre_filter selG rows :
  filter_genre selG rows
  = List.filter (λ d, match selG with
                      | Some g => strict_eq (bucket (topKGenres rows 10) (genre_of d)) (VStr g)
                      | None => true
                      end) rows.
Proof.
  destruct selG; [done|]. cbn. induction rows as [|d l IH]; [done|].
  cbn. by rewrite <- IH.
Qed.

Lemma filter_filter {A} (p q : A → bool) l :
  List.filter q (List.filter p l) = List.filter (λ d, p d && q d) l.
Proof.
  induction l as [|d l IH]; [done|]. cbn. destruct (p d); cbn; [|done].
  destruct (q d); by rewrite IH.
Qed.

Lemma nullish_present v : nullish v = false ↔ present v.
Proof. unfold present. destruct v; cbn; split; try done; by intros [? ?]. Qed.

Lemma pc_valid_present d :
  pc_valid d = true
  ↔ present (get d "followers_log") ∧ present (get d "duration_min").
Proof.
  unfold pc_valid. by rewrite andb_true_iff, !negb_true_iff, !nullish_present.
Qed.

Lemma strict_eq_released d y :
  strict_eq (get d "release_year") (VNum y) = true ↔ released_in d y.
Proof.
  unfold released_in. destruct (get d "release_year") as [| | |x|]; cbn;
    try (split; [done|by intros (? & [=] & _)]).
  rewrite num_eqb_equal_numbers. split.
  - intros H. by exists x.
  - by intros (? & [= <-] & H).
Qed.

Lemma bucket_labelled top d g :
  strict_eq (bucket top (genre_of d)) (VStr g) = true ↔ labelled_as top d g.
Proof.
  unfold labelled_as, bucket, JsSet.has.
  assert (E : genre_of d = match get d "genre_top" with
                           | VUndef | VNull => VStr "Unknown"
                           | v => v
                           end).
  { unfold genre_of. by destruct (get d "genre_top"). }
  rewrite <- E. case_bool_decide as Hin.
  - rewrite strict_eq_VStr. split; [by left|]. by intros [[_ ?]|[? _]].
  - rewrite strict_eq_VStr. split.
    + intros [= <-]. by right.
    + intros [[? _]|[_ ->]]; done.
Qed.

(** The two filter steps of the parallel-coordinates view, by what they
    keep. *)
Lemma pc_filtered_kept data s :
  kept (λ d, present (get d "followers_log") ∧ present (get d "duration_min")
             ∧ ∀ y, selectedYear s = Some y → released_in d y)
    data (pc_rows data (selectedYear s))
  ∧ kept (λ d, ∀ g, selectedGenre s = Some g →
                    labelled_as (topKGenres (pc_rows data (selectedYear s)) 10) d g)
      (pc_rows data (selectedYear s)) (pc_filtered data s).
Proof.
  split.
  - unfold pc_rows. rewrite filter_year_filter, filter_filter.
    apply kept_filter. intros d.
    rewrite andb_true_iff, pc_valid_present.
    destruct (selectedYear s) as [y|].
    + rewrite strict_eq_released. split.
      * intros [[? ?] ?]. split; [done|]. split; [done|]. by intros ? [= <-].
      * intros (? & ? & H). split; [done|]. by apply H.
    + split; [by intros [[? ?] _]|]. by intros (? & ? & _).
  - unfold pc_filtered. rewrite filter_genre_filter.
    apply kept_filter. intros d. destruct (selectedGenre s) as [g|].
    + rewrite bucket_labelled. split; [by intros ? ? [= <-]|]. intros H. by apply H.
    + done.
Qed.

Lemma rated_popularity d n : rated d n → popularity d = n ∧ n ≠ NaN.
Proof.
  intros [m Hm Hn|Hm]; unfold popularity.
  - rewrite Hm. by destruct m.
  - split; [|done].
    destruct (get d "track_popularity"); try done; destruct Hm; by split.
Qed.

Lemma num_leb_no_greater a b : num_leb a b = true → no_greater a b.
Proof.
  destruct a as [| | |x], b as [| | |y]; cbn; try done.
  apply fin_leb_spec.
Qed.

Lemma popularity_at_most a b :
  (∃ x, rated a x) → (∃ y, rated b y) →
  num_leb (popularity a) (popularity b) = true → at_most_as_popular a b.
Proof.
  intros [x Hx] [y Hy] H. exists x, y. split; [done|]. split; [done|].
  destruct (rated_popularity a x Hx) as [Ea _].
  destruct (rated_popularity b y Hy) as [Eb _].
  rewrite Ea, Eb in H. by apply num_leb_no_greater.
Qed.

Lemma StronglySorted_impl_elem {A} (R R' : A → A → Prop) l :
  (∀ a b, a ∈ l → b ∈ l → R a b → R' a b) →
  StronglySorted R l → StronglySorted R' l.
Proof.
  intros H HS. induction HS as [|a l HS IH HF]; [constructor|].
  constructor.
  - apply IH. intros x y Hx Hy. apply H; by right.
  - rewrite Forall_forall in HF |- *. intros b Hb.
    apply H; [by left|by right|by apply HF].
Qed.

(** C9. For every dataset whose [track_popularity] values are numbers
    other than [NaN] (or missing, which ranks as 0), and every selection.
    The
    filtered rows are the rows of the dataset that have both
    [followers_log] and [duration_min] and, when a year is selected, that
    release year; of these, when a genre is selected, the rows filed under
    it by the top ten genres of these very rows; each in the dataset's
    order.  The sample has at most 200 rows, 200 when that many rows are
    filtered; it is made of filtered rows, no filtered row left out is
    more popular than a row of the sample, and the sample is ordered by
    descending [track_popularity]. *)
Theorem sample_rule (data : list row) (s : selection) :
  (∀ d, d ∈ data → ∃ x, rated d x) →
  ∃ valid filtered rest,
    kept (λ d, present (get d "followers_log") ∧ present (get d "duration_min")
               ∧ ∀ y, selectedYear s = Some y → released_in d y)
      data valid
    ∧ kept (λ d, ∀ g, selectedGenre s = Some g →
                      labelled_as (topKGenres valid 10) d g)
        valid filtered
    ∧ sample data s ++ rest ≡ₚ filtered
    ∧ length (sample data s) = 200 `min` length filtered
    ∧ (length (sample data s) ≤ 200)%nat
    ∧ (∀ a b, a ∈ sample data s → b ∈ rest → at_most_as_popular b a)
    ∧ StronglySorted (λ a b, at_most_as_popular b a) (sample data s).
Proof.
  intros Hrated.
  assert (Hrows : ∀ d, d ∈ pc_filtered data s → ∃ x, rated d x).
  { intros d Hd. apply Hrated. by apply elem_of_pc_filtered in Hd as [? _]. }
  assert (Hpop : ∀ d, d ∈ pc_filtered data s → popularity d ≠ NaN).
  { intros d Hd. destruct (Hrows d Hd) as [x Hx].
    destruct (rated_popularity d x Hx) as [-> Hn]. done. }
  assert (HS := by_popularity_desc_sorted (pc_filtered data s) Hpop).
  assert (Hsorted : StronglySorted (λ a b, at_most_as_popular b a)
                      (js_sort by_popularity_desc (pc_filtered data s))).
  { revert HS. apply StronglySorted_impl_elem. intros a b Ha Hb.
    rewrite js_sort_elem in Ha, Hb. apply popularity_at_most; auto. }
  rewrite <- (take_drop 200 (js_sort _ _)) in Hsorted.
  destruct (pc_filtered_kept data s) as [K1 K2].
  exists (pc_rows data (selectedYear s)), (pc_filtered data s),
    (drop 200 (js_sort by_popularity_desc (pc_filtered data s))).
  unfold sample.
  split; [done|]. split; [done|]. split; [|split; [|split; [|split]]].
  - by rewrite take_drop, js_sort_Permutation.
  - by rewrite length_take, js_sort_length.
  - rewrite length_take. lia.
  - intros a b Ha Hb.
    exact (StronglySorted_app_1_elem_of _ _ _ _ _ Hsorted Ha Hb).
  - by apply StronglySorted_app_1_l in Hsorted.
Qed.

(** ** What the pipeline guarantees of its rows *)

Lemma preprocessTrack_normalized cy nts r : normalized (preprocessTrack cy nts r).
Proof.
  split.
  - destruct (toNumber_finite (get r "track_popularity") (num_of_Z 0) eq_refl)
      as [x Hx].
    exists x. apply lookup_preprocessTrack_Some. cbn. by rewrite Hx.
  - eexists. apply lookup_preprocessTrack_Some. by cbn.
Qed.

Lemma normalized_union (a b : row) : normalized a → normalized (a ∪ b).
Proof.
  intros [[x Hx] [g Hg]]. split; [exists x|exists g];
    by apply lookup_union_Some_l.
Qed.

Lemma Forall_values_set {K V} `{EqDecision K} (P : V → Prop) k v (m : list (K * V)) :
  P v → Forall P (JsMap.values m) → Forall P (JsMap.values (JsMap.set k v m)).
Proof.
  unfold JsMap.values. intros Hv. induction m as [|[k' v'] m IH]; csimpl.
  - intros _. by constructor.
  - intros [Hv' Hm]%Forall_cons. destruct (decide (k' = k)); csimpl.
    + by constructor.
    + constructor; [done|by apply IH].
Qed.

Lemma merge_normalized A B :
  Forall normalized A → Forall normalized B →
  Forall normalized (JsMap.values (merge_by_track_id A B)).
Proof.
  intros HA HB. unfold merge_by_track_id.
  assert (Hseed : Forall normalized (JsMap.values (seed B))).
  { unfold seed.
    assert (Hnil : Forall normalized (JsMap.values (@nil (value * row))))
      by constructor.
    revert Hnil. generalize (@nil (value * row)).
    induction HB as [|r B Hr HB IH]; intros m Hm; [done|].
    cbn [foldl]. apply IH. by apply Forall_values_set. }
  unfold overlay. revert Hseed. generalize (seed B).
  induction HA as [|r A Hr HA IH]; intros m Hm; [done|].
  cbn [foldl]. apply IH. apply Forall_values_set; [|done].
  by apply normalized_union.
Qed.

(** Every row of the loaded dataset is normalized. *)
Lemma load_normalized cy nts a b d : d ∈ load cy nts a b → normalized d.
Proof.
  revert d. apply Forall_forall. unfold load.
  apply merge_normalized; unfold preprocessTracks; apply Forall_fmap, Forall_forall;
    intros r _; apply preprocessTrack_normalized.
Qed.

Lemma normalized_popularity d : normalized d → popularity d ≠ NaN.
Proof.
  intros [[x Hx] _]. unfold popularity. by rewrite (get_lookup d _ _ Hx).
Qed.

Lemma normalized_genre_text d : normalized d → genre_text d.
Proof. intros [_ [g Hg]]. right. exists g. by apply get_lookup. Qed.

Lemma kept_unique P l l1 l2 : kept P l l1 → kept P l l2 → l1 = l2.
Proof.
  intros H. revert l2. induction H as [|d l l' Hd H IH|d l l' Hd H IH];
    intros l2 H2; inversion H2; subst; try done.
  - f_equal. by apply IH.
  - by apply IH.
Qed.

Lemma rated_sampled id p : rated (sampled id p) (num_of_Z p).
Proof. apply rated_number; [by apply get_lookup|done]. Qed.

Lemma sample_rule_witness :
  length (sample popular_rows no_selection) = 200%nat
  ∧ StronglySorted (λ a b, at_most_as_popular b a)
      (sample popular_rows no_selection)
  ∧ (∃ rest, length rest = 50%nat
             ∧ ∀ a b, a ∈ sample popular_rows no_selection → b ∈ rest →
                      at_most_as_popular b a)
  ∧ (λ d, get d "track_id") <$> take 4 (sample popular_rows no_selection)
    = [VStr "30"; VStr "131"; VStr "232"; VStr "60"]
  ∧ (λ d, get d "track_popularity") <$> take 4 (sample popular_rows no_selection)
    = [VNum (num_of_Z 100); VNum (num_of_Z 100); VNum (num_of_Z 100);
       VNum (num_of_Z 99)]
  ∧ (λ d, get d "track_popularity") <$> drop 197 (sample popular_rows no_selection)
    = [VNum (num_of_Z 20); VNum (num_of_Z 20); VNum (num_of_Z 20)].
Proof.
  assert (Hrated : ∀ d, d ∈ popular_rows → ∃ x, rated d x).
  { intros d [->|Hd]%elem_of_cons.
    - exists (num_of_Z 100). apply rated_number; [by apply get_lookup|done].
    - apply list_elem_of_fmap in Hd as (i & -> & _). eexists. apply rated_sampled. }
  destruct (sample_rule popular_rows no_selection Hrated)
    as (valid & filtered & rest & K1 & K2 & HP & Hlen & _ & Hrest & Hsorted).
  assert (L : length (sample popular_rows no_selection) = 200%nat)
    by (vm_compute; reflexivity).
  assert (Lf : length filtered = 250%nat).
  { destruct (pc_filtered_kept popular_rows no_selection) as [K1' K2'].
    rewrite (kept_unique _ _ _ _ K1 K1') in K2.
    rewrite (kept_unique _ _ _ _ K2 K2'). vm_compute. reflexivity. }
  split; [exact L|]. split; [exact Hsorted|]. split.
  { exists rest. split; [|exact Hrest].
    apply Permutation_length in HP. rewrite length_app, L, Lf in HP. lia. }
  split; [vm_compute; reflexivity|]. split; vm_compute; reflexivity.
Defined.

(** ** Heatmap genre axis *)

Lemma before_NoDup_ne {A} (l : list A) a b : NoDup l → before l a b → a ≠ b.
Proof.
  intros Hnd (l1 & l2 & l3 & ->) <-.
  apply NoDup_app in Hnd as (_ & _ & Hnd). apply NoDup_cons in Hnd as [Hn _].
  apply Hn, elem_of_app. right. apply list_elem_of_here.
Qed.

Lemma StronglySorted_before {A} (R : A → A → Prop) l a b :
  StronglySorted R l → before l a b → R a b.
Proof.
  intros HS (l1 & l2 & l3 & ->).
  apply StronglySorted_app_1_r in HS. apply StronglySorted_inv in HS as [_ HF].
  rewrite Forall_forall in HF. apply HF, elem_of_app. right.
  apply list_elem_of_here.
Qed.

Lemma code_unit_compare_total a b :
  (0 < code_unit_compare a b)%Z → (code_unit_compare b a <= 0)%Z.
Proof.
  unfold code_unit_compare. rewrite (String.compare_antisym b a).
  by destruct (String.compare a b).
Qed.

Lemma code_unit_compare_trans a b c :
  (code_unit_compare a b <= 0)%Z → (code_unit_compare b c <= 0)%Z →
  (code_unit_compare a c <= 0)%Z.
Proof.
  unfold code_unit_compare.
  destruct (String.compare a b) eqn:E1; [| |lia];
    destruct (String.compare b c) eqn:E2; try lia; intros _ _.
  - apply String.compare_eq_iff in E1. subst. by rewrite E2.
  - apply String.compare_eq_iff in E1. subst. by rewrite E2.
  - apply String.compare_eq_iff in E2. subst. by rewrite E1.
  - apply OrderedTypeEx.String_as_OT.cmp_lt in E1, E2.
    pose proof (OrderedTypeEx.String_as_OT.lt_trans _ _ _ E1 E2) as L.
    apply OrderedTypeEx.String_as_OT.cmp_lt in L.
    unfold OrderedTypeEx.String_as_OT.cmp in L. by rewrite L.
Qed.

Section AxisFacts.
Variable localeCompare : string → string → Z.
Hypothesis lc_total :
  ∀ a b, (0 < localeCompare a b)%Z → (localeCompare b a <= 0)%Z.
Hypothesis lc_trans :
  ∀ a b c, (localeCompare a b <= 0)%Z → (localeCompare b c <= 0)%Z →
           (localeCompare a c <= 0)%Z.

Lemma axis_cmp_text a b :
  axis_cmp localeCompare (VStr a) (VStr b)
  = (if String.eqb a "Other" then 1
     else if String.eqb b "Other" then -1 else localeCompare a b)%Z.
Proof. done. Qed.

Lemma axis_cmp_sorted (l : list value) :
  NoDup l → (∀ g, g ∈ l → ∃ t, g = VStr t) →
  StronglySorted (λ a b, (axis_cmp localeCompare a b <= 0)%Z)
    (js_sort (axis_cmp localeCompare) l).
Proof.
  intros Hnd Htext. eapply StronglySorted_weaken; [|apply js_sort_stable].
  - by intros a b _ _ [? _].
  - intros x y Hb Hgt. pose proof (before_NoDup_ne _ _ _ Hnd Hb) as Hne.
    destruct Hb as (l1 & l2 & l3 & ->).
    destruct (Htext x) as [a ->].
    { apply elem_of_app. right. apply list_elem_of_here. }
    destruct (Htext y) as [b ->].
    { apply elem_of_app. right. apply list_elem_of_further, elem_of_app.
      right. apply list_elem_of_here. }
    rewrite axis_cmp_text in *.
    destruct (String.eqb_spec a "Other") as [->|Ha];
      destruct (String.eqb_spec b "Other") as [->|Hb]; try done; try lia.
    by apply lc_total.
  - intros x y w Hx Hy Hw.
    destruct (Htext x Hx) as [a ->], (Htext y Hy) as [b ->],
             (Htext w Hw) as [c ->].
    rewrite !axis_cmp_text.
    destruct (String.eqb a "Other"), (String.eqb b "Other"),
             (String.eqb c "Other"); try lia.
    apply lc_trans.
Qed.

Lemma hm_labels_text data g :
  (∀ d, d ∈ data → genre_text d) →
  g ∈ (λ d, bucket (hm_top data) (get d "genre_top")) <$> hm_filtered data →
  ∃ t, g = VStr t.
Proof.
  intros Htext (d & -> & Hd)%list_elem_of_fmap.
  apply elem_of_filter_bool in Hd as [Hd Hv].
  unfold bucket. destruct (JsSet.has _ _); [|by eexists].
  unfold hm_valid in Hv. apply andb_true_iff in Hv as [_ Hv].
  destruct (Htext d Hd) as [Hn|[t ->]]; [|by eexists].
  rewrite Hn in Hv. done.
Qed.

(** C10. For every dataset whose [genre_top] values are text (or
    missing) the genre axis of the heatmap holds each bucketed label of
    the rows with a year and a genre exactly once; of two labels the one
    listed first is not Other, and it does not collate after the second
    unless the second is Other; Other, when present, is last. *)
Theorem hm_genres_rule (data : list row) :
  (∀ d, d ∈ data → genre_text d) →
  NoDup (hm_genres localeCompare data)
  ∧ (∀ g, g ∈ hm_genres localeCompare data
          ↔ ∃ d, d ∈ hm_filtered data
                 ∧ bucket (hm_top data) (get d "genre_top") = g)
  ∧ (∀ g, g ∈ hm_genres localeCompare data → ∃ t, g = VStr t)
  ∧ (∀ a b, before (hm_genres localeCompare data) (VStr a) (VStr b) →
            a ≠ "Other" ∧ (b ≠ "Other" → (localeCompare a b <= 0)%Z))
  ∧ (VStr "Other" ∈ hm_genres localeCompare data →
     last (hm_genres localeCompare data) = Some (VStr "Other")).
Proof.
  intros Htext. unfold hm_genres.
  set (labels := (λ d, bucket (hm_top data) (get d "genre_top")) <$> hm_filtered data).
  assert (Hin : ∀ g, g ∈ js_sort (axis_cmp localeCompare) (JsSet.of_list labels)
                     ↔ g ∈ labels).
  { intros g. by rewrite js_sort_elem, JsSetFacts.elem_of_of_list. }
  assert (HS : StronglySorted (λ a b, (axis_cmp localeCompare a b <= 0)%Z)
                 (js_sort (axis_cmp localeCompare) (JsSet.of_list labels))).
  { apply axis_cmp_sorted; [apply JsSetFacts.NoDup_of_list|].
    intros g Hg. rewrite JsSetFacts.elem_of_of_list in Hg.
    by apply (hm_labels_text data). }
  assert (Hord : ∀ a b,
             before (js_sort (axis_cmp localeCompare) (JsSet.of_list labels))
                    (VStr a) (VStr b) →
             a ≠ "Other" ∧ (b ≠ "Other" → (localeCompare a b <= 0)%Z)).
  { intros a b Hb. pose proof (StronglySorted_before _ _ _ _ HS Hb) as H.
    cbv beta in H. rewrite axis_cmp_text in H.
    destruct (String.eqb_spec a "Other") as [->|Ha]; [lia|]. split; [done|].
    intros Hb'. destruct (String.eqb_spec b "Other"); done. }
  split; [|split; [|split; [|split]]].
  - rewrite js_sort_Permutation. apply JsSetFacts.NoDup_of_list.
  - intros g. rewrite Hin. unfold labels. rewrite list_elem_of_fmap.
    split; intros (d & ? & ?); exists d; done.
  - intros g Hg. apply Hin in Hg. by apply (hm_labels_text data).
  - exact Hord.
  - intros (l1 & l2 & E)%list_elem_of_split. rewrite E.
    destruct l2 as [|w l2]; [apply last_snoc|]. exfalso.
    assert (Hw : w ∈ js_sort (axis_cmp localeCompare) (JsSet.of_list labels)).
    { rewrite E. apply elem_of_app. right.
      apply list_elem_of_further, list_elem_of_here. }
    apply Hin, (hm_labels_text data) in Hw as [t ->]; [|done].
    destruct (Hord "Other" t) as [Hne _]; [|done].
    exists l1, [], l2. by rewrite E.
Qed.

End AxisFacts.

Lemma hm_genres_rule_witness :
  hm_genres code_unit_compare eleven_genres
  = VStr <$> ["a"; "b"; "c"; "d"; "e"; "f"; "g"; "h"; "i"; "j"; "Other"]
  ∧ NoDup (hm_genres code_unit_compare eleven_genres)
  ∧ last (hm_genres code_unit_compare eleven_genres) = Some (VStr "Other").
Proof.
  destruct (hm_genres_rule code_unit_compare code_unit_compare_total
              code_unit_compare_trans eleven_genres)
    as (Hnd & _ & _ & _ & Hlast).
  - intros d Hd. apply normalized_genre_text.
    exact (load_normalized _ _ _ _ _ Hd).
  - assert (E : hm_genres code_unit_compare eleven_genres
                = VStr <$> ["a"; "b"; "c"; "d"; "e"; "f"; "g"; "h"; "i"; "j"; "Other"])
      by (vm_compute; reflexivity).
    split; [exact E|]. split; [exact Hnd|]. apply Hlast. rewrite E.
    compute_done.
Defined.

(** ** Genre buckets across the views *)

Lemma js_sort_ext {A} (cmp1 cmp2 : A → A → Z) l :
  (∀ x y, (cmp1 x y <=? 0)%Z = (cmp2 x y <=? 0)%Z) →
  js_sort cmp1 l = js_sort cmp2 l.
Proof.
  intros H. induction l as [|x l IH]; [done|]. cbn [js_sort]. rewrite IH.
  generalize (js_sort cmp2 l). intros s. induction s as [|y s IHs]; [done|].
  cbn [sort_insert]. by rewrite H, IHs.
Qed.

Lemma d3_descending_sign a b :
  (d3_descending a b <=? 0)%Z = (by_count_desc a b <=? 0)%Z.
Proof.
  unfold d3_descending, by_count_desc.
  destruct (Nat.ltb_spec b.2 a.2), (Nat.ltb_spec a.2 b.2);
    symmetry; (apply Z.leb_le || apply Z.leb_gt); lia.
Qed.

Section MapValues.
Context {K V W : Type} `{EqDecision K} (f : V → W).

Lemma get_map_values k (m : list (K * V)) :
  JsMap.get k ((λ kv, (kv.1, f kv.2)) <$> m) = f <$> JsMap.get k m.
Proof.
  induction m as [|[k' v] m IH]; csimpl; [done|].
  by destruct (decide (k' = k)).
Qed.

Lemma set_map_values k v (m : list (K * V)) :
  JsMap.set k (f v) ((λ kv, (kv.1, f kv.2)) <$> m)
  = (λ kv, (kv.1, f kv.2)) <$> JsMap.set k v m.
Proof.
  induction m as [|[k' v'] m IH]; csimpl; [done|].
  destruct (decide (k' = k)); csimpl; [done|]. by rewrite IH.
Qed.

End MapValues.

(** Grouping the rows by a key and taking the size of each group is the
    counting pass over the keys. *)
Lemma d3_rollups_length_count_pass {V} (key : V → value) (rows : list V) :
  d3_rollups_length key rows = count_pass (key <$> rows).
Proof.
  unfold d3_rollups_length, d3_group, count_pass.
  change (@nil (value * nat))
    with ((λ kv : value * list V, (kv.1, length kv.2)) <$> []).
  generalize (@nil (value * list V)).
  induction rows as [|d rows IH]; intros m; [done|].
  cbn [foldl fmap list_fmap]. rewrite IH. f_equal.
  rewrite get_map_values, <- set_map_values. f_equal.
  rewrite length_app. cbn [length]. by destruct (JsMap.get (key d) m).
Qed.

(** The heatmap ranks with the aggregator of the other two views, K = 10
    and ties by first encounter, over its own rows. *)
Lemma hm_top_topKGenres data : hm_top data = topKGenres (hm_filtered data) 10.
Proof.
  unfold hm_top, topKGenres, top_labels.
  rewrite d3_rollups_length_count_pass.
  rewrite (js_sort_ext d3_descending by_count_desc) by apply d3_descending_sign.
  do 5 f_equal. apply list_fmap_ext. intros i d Hd.
  apply list_elem_of_lookup_2, elem_of_filter_bool in Hd as [_ Hv].
  unfold hm_valid in Hv. apply andb_true_iff in Hv as [_ Hv].
  unfold genre_of, coalesce. by destruct (nullish (get d "genre_top")).
Qed.

(** C2, at a dataset of eleven genres.  The three views rank genres with
    the one aggregator and K = 10, but each over the rows it has at hand:
    the heatmap over all years, the scatter and the parallel-coordinates
    views over the rows of the selected year.  The heatmap buckets the
    one track of 2001 as Other; inside 2001 that track's genre is the
    only one, so it is in the top set of the other two views.  With the
    cell (2001, Other) selected both views are left with no row. *)
Theorem genre_buckets_diverge :
  (∀ data, hm_top data = topKGenres (hm_filtered data) 10)
  ∧ hm_top eleven_genres
    = VStr <$> ["a"; "b"; "c"; "d"; "e"; "f"; "g"; "h"; "i"; "j"]
  ∧ (λ d, bucket (hm_top eleven_genres) (get d "genre_top"))
      <$> filter_year (Some (num_of_Z 2001)) (hm_filtered eleven_genres)
    = [VStr "Other"]
  ∧ topKGenres (scatter_rows eleven_genres (Some (num_of_Z 2001))) 10 = [VStr "k"]
  ∧ topKGenres (pc_rows eleven_genres (Some (num_of_Z 2001))) 10 = [VStr "k"]
  ∧ scatter_filtered eleven_genres (Selection (Some (num_of_Z 2001)) (Some "Other"))
    = []
  ∧ sample eleven_genres (Selection (Some (num_of_Z 2001)) (Some "Other")) = [].
Proof.
  split; [exact hm_top_topKGenres|].
  repeat split; vm_compute; reflexivity.
Qed.
(** * Further properties *)

(** ** The genre extractor *)

Module CharFacts.
Import Str.

Lemma has_char_app c a b : has_char c (a ++ b) = has_char c a || has_char c b.
Proof.
  induction a as [|c' a IH]; [done|]. simpl.
  by rewrite IH, orb_assoc.
Qed.

Lemma has_char_trimStart c s : has_char c s = false → has_char c (trimStart s) = false.
Proof.
  induction s as [|c' s IH]; [done|]. cbn. destruct (is_ws c'); [|done].
  intros [_ H]%orb_false_iff. by apply IH.
Qed.

Lemma has_char_trimEnd c s : has_char c s = false → has_char c (trimEnd s) = false.
Proof.
  induction s as [|c' s IH]; [done|]. cbn [has_char trimEnd].
  intros [Hc H]%orb_false_iff. specialize (IH H).
  destruct (trimEnd s) eqn:E.
  - destruct (is_ws c'); [done|]. cbn. by rewrite Hc.
  - cbn [has_char] in *. by rewrite Hc.
Qed.

Lemma has_char_strip_first p c s :
  has_char c s = false → has_char c (strip_first p s) = false.
Proof.
  destruct s as [|c' s]; [done|]. cbn. destruct (p c'); [|done].
  by intros [_ H]%orb_false_iff.
Qed.

Lemma has_char_strip_last p c s :
  has_char c s = false → has_char c (strip_last p s) = false.
Proof.
  induction s as [|c' s IH]; [done|]. cbn [has_char].
  intros [Hc H]%orb_false_iff. specialize (IH H).
  destruct s as [|c'' s].
  - cbn. destruct (p c'); [done|]. cbn. by rewrite Hc.
  - change (strip_last p (String c' (String c'' s)))
      with (String c' (strip_last p (String c'' s))).
    cbn [has_char]. by rewrite Hc, IH.
Qed.

Lemma has_char_split c s p : p ∈ split c s → has_char c p = false.
Proof.
  revert p. induction s as [|c' s IH]; intros p.
  - cbn. by intros ->%list_elem_of_singleton.
  - rewrite StrFacts.split_cons. destruct (Ascii.eqb c' c) eqn:E.
    + intros [->|H]%elem_of_cons; [done|]. by apply IH.
    + destruct (split c s) as [|q qs] eqn:Es.
      { by destruct (StrFacts.split_nonempty c s). }
      intros [->|H]%elem_of_cons.
      * cbn. rewrite E. apply IH. by left.
      * apply IH. by right.
Qed.

End CharFacts.

Lemma clean_piece_no_comma p :
  has_char "," p = false → has_char "," (clean_piece p) = false.
Proof.
  intros H. unfold clean_piece, Str.trim.
  by apply CharFacts.has_char_strip_last, CharFacts.has_char_strip_first,
    CharFacts.has_char_trimEnd, CharFacts.has_char_trimStart.
Qed.

(** What the extractor returns is ["Unknown"] or a kept piece. *)
Lemma parseGenresTop_cases s :
  parseGenresTop s = "Unknown"
  ∨ ∃ inner,
      parseGenresTop s
      ∈ List.filter Str.nonempty (clean_piece <$> Str.split "," inner).
Proof.
  unfold parseGenresTop.
  destruct (negb (Str.nonempty s)); [by left|].
  destruct (_ || _); [by left|].
  destruct (negb (Str.nonempty _)); [by left|].
  match goal with |- context [List.filter _ (_ <$> Str.split _ ?i)] =>
    set (inner := i) end.
  destruct (List.filter _ _) as [|p ps] eqn:E; [by left|].
  right. exists inner. rewrite E. by left.
Qed.

Lemma parseGenresTop_nonempty s : parseGenresTop s ≠ "".
Proof.
  destruct (parseGenresTop_cases s) as [->|[inner H]]; [done|].
  apply elem_of_filter_bool in H as [_ Hne]. intros E. by rewrite E in Hne.
Qed.

(** X1. The genre extractor never returns the empty text, and never a
    text with a comma in it: the label of a row is always ["Unknown"] or
    a non-empty piece between two commas. *)
Theorem parseGenresTop_label (s : string) :
  parseGenresTop s ≠ "" ∧ has_char "," (parseGenresTop s) = false.
Proof.
  destruct (parseGenresTop_cases s) as [->|[inner H]]; [done|].
  apply elem_of_filter_bool in H as [H Hne].
  apply list_elem_of_fmap in H as [p [Hp Hin]].
  split.
  - intros E. by rewrite E in Hne.
  - rewrite Hp. by apply clean_piece_no_comma, CharFacts.has_char_split with inner.
Qed.

Module AnchorFacts.
Import Str.

Lemma app_cons x (a b : string) : (String x a ++ b = String x (a ++ b))%string.
Proof. done. Qed.

Lemma app_nil_l (b : string) : ("" ++ b = b)%string.
Proof. done. Qed.

Lemma app_assoc (a b c : string) : ((a ++ b) ++ c = a ++ (b ++ c))%string.
Proof. induction a as [|x a IH]; [done|]. by rewrite !app_cons, IH. Qed.

Lemma app_nonempty (a : string) c b : (a ++ String c b)%string ≠ "".
Proof. by destruct a. Qed.

(** White space is trimmed off the end up to the last other character. *)
Lemma trimEnd_app_anchor a c b :
  is_ws c = false →
  trimEnd (a ++ String c b) = (a ++ String c (trimEnd b))%string.
Proof.
  intros Hc. induction a as [|x a IH].
  - rewrite !app_nil_l. cbn [trimEnd]. rewrite Hc. by destruct (trimEnd b).
  - rewrite !app_cons. cbn [trimEnd]. rewrite IH.
    destruct (a ++ String c (trimEnd b))%string eqn:E; [|done].
    by destruct (app_nonempty a c (trimEnd b)).
Qed.

Lemma trimEnd_idem s : trimEnd (trimEnd s) = trimEnd s.
Proof.
  induction s as [|c s IH]; [done|]. cbn [trimEnd].
  destruct (trimEnd s) as [|c' r] eqn:E.
  - destruct (is_ws c) eqn:Hc; [done|]. cbn. by rewrite Hc.
  - cbn [trimEnd]. cbn [trimEnd] in IH. by rewrite IH.
Qed.

Lemma trim_idem s : trim (trim s) = trim s.
Proof.
  unfold trim.
  by rewrite (StrFacts.trim_comm (trimStart s)), StrFacts.trimStart_idem,
    trimEnd_idem.
Qed.

Lemma strip_last_app p a b :
  b ≠ "" → strip_last p (a ++ b) = (a ++ strip_last p b)%string.
Proof.
  intros Hb. induction a as [|x a IH]; [done|].
  rewrite !app_cons. cbn [strip_last]. destruct (a ++ b)%string eqn:E.
  - destruct a; [|done]. rewrite app_nil_l in E. by subst.
  - by rewrite <- IH.
Qed.

Lemma strip_last_snoc p g c : p c = true → strip_last p (g ++ String c "") = g.
Proof.
  intros Hc. rewrite strip_last_app by done. cbn [strip_last]. rewrite Hc.
  induction g as [|x g IH]; [done|]. by rewrite app_cons, IH.
Qed.

Lemma strip_last_keep p g c : p c = false → strip_last p (g ++ String c "") = (g ++ String c "")%string.
Proof. intros Hc. rewrite strip_last_app by done. cbn [strip_last]. by rewrite Hc. Qed.

Lemma split_no_sep sep a : has_char sep a = false → split sep a = [a].
Proof.
  induction a as [|x a IH]; [done|]. cbn [has_char].
  intros [Hx Ha]%orb_false_iff. rewrite StrFacts.split_cons, Hx, IH; done.
Qed.

Lemma split_app_sep sep a u :
  has_char sep a = false →
  split sep (a ++ String sep u) = a :: split sep u.
Proof.
  induction a as [|x a IH].
  - intros _. by rewrite app_nil_l, StrFacts.split_cons, Ascii.eqb_refl.
  - cbn [has_char]. intros [Hx Ha]%orb_false_iff.
    by rewrite app_cons, StrFacts.split_cons, Hx, IH.
Qed.

(** Trimming a text that starts with a character other than white space
    and holds another one: only what follows the latter can change. *)
Lemma trim_anchored c a d u :
  is_ws c = false → is_ws d = false →
  trim (String c (a ++ String d u)) = String c (a ++ String d (trimEnd u)).
Proof.
  intros Hc Hd. unfold trim. cbn [trimStart]. rewrite Hc.
  by rewrite <- app_cons, trimEnd_app_anchor, app_cons.
Qed.

End AnchorFacts.

Lemma is_quote_cases q :
  is_quote q = true →
  Str.is_ws q = false ∧ Ascii.eqb q "," = false
  ∧ is_rbracket q = false ∧ is_lbracket q = false.
Proof.
  unfold is_quote. intros [H|H]%orb_true_iff; apply Ascii.eqb_eq in H; by subst.
Qed.

(** A name between two quote characters is cleaned to the name. *)
Lemma clean_piece_quoted q g :
  is_quote q = true → clean_piece (String q (g ++ String q "")) = g.
Proof.
  intros Hq. destruct (is_quote_cases q Hq) as (Hws & _).
  unfold clean_piece, Str.trim. cbn [Str.trimStart]. rewrite Hws.
  change (String q (g ++ String q ""))%string with (String q g ++ String q "")%string.
  rewrite AnchorFacts.trimEnd_app_anchor by done.
  rewrite AnchorFacts.app_cons. cbn [Str.trimEnd Str.strip_first]. rewrite Hq.
  by apply AnchorFacts.strip_last_snoc.
Qed.

(** The extractor on a text whose bracket-free, trimmed inside starts
    with a quoted name that has no comma: the name comes back. *)
Lemma first_piece_quoted q g u :
  is_quote q = true → g ≠ "" → has_char "," g = false →
  (u = "" ∨ ∃ v, u = String "," v) →
  List.hd "Unknown"
    (List.filter Str.nonempty
       (clean_piece <$> Str.split "," (String q (g ++ String q u)))) = g.
Proof.
  intros Hq Hg Hc Hu. destruct (is_quote_cases q Hq) as (_ & Hqc & _).
  assert (Hp : has_char "," (String q (g ++ String q "")) = false).
  { cbn [has_char]. rewrite Hqc, CharFacts.has_char_app, Hc. cbn.
    by rewrite Hqc. }
  assert (Hne : Str.nonempty g = true).
  { unfold Str.nonempty. apply negb_true_iff, String.eqb_neq. done. }
  destruct Hu as [->|[v ->]].
  - rewrite AnchorFacts.split_no_sep by done. csimpl.
    rewrite clean_piece_quoted by done. cbn. by rewrite Hne.
  - replace (String q (g ++ String q (String "," v)))
      with (String q (g ++ String q "") ++ String "," v)%string
      by (by rewrite AnchorFacts.app_cons, AnchorFacts.app_assoc).
    rewrite AnchorFacts.split_app_sep by done. csimpl.
    rewrite clean_piece_quoted by done. cbn. by rewrite Hne.
Qed.

(** The extractor on a text that, trimmed, opens with a bracket. *)
Lemma parseGenresTop_bracketed s X :
  Str.trim s = String "[" X → X ≠ "]" →
  Str.trim (Str.strip_last is_rbracket X) ≠ "" →
  parseGenresTop s
  = List.hd "Unknown"
      (List.filter Str.nonempty
         (clean_piece <$> Str.split ","
            (Str.trim (Str.strip_last is_rbracket X)))).
Proof.
  intros Ht HX Hi. unfold parseGenresTop.
  destruct s as [|c s]; [done|]. cbn [Str.nonempty String.eqb negb].
  rewrite Ht. cbn [Str.strip_first is_lbracket].
  replace (String.eqb (String "[" X) "[]") with false.
  2:{ symmetry. apply String.eqb_neq. intros [= ->]. done. }
  cbn [String.eqb orb].
  change (is_lbracket "[") with true. cbn match.
  replace (Str.nonempty (Str.trim (Str.strip_last is_rbracket X))) with true.
  2:{ symmetry. unfold Str.nonempty. by apply negb_true_iff, String.eqb_neq. }
  cbn [negb]. by destruct (List.filter _ _).
Qed.

(** X2. Reading back a printed list of genres.  For a text that opens
    with a bracket and a quoted, non-empty name without a comma, followed
    by the closing bracket or by a comma and anything at all, the
    extractor returns that name unchanged: inner spaces, hyphens, quote
    characters and brackets inside the name are kept. *)
Theorem parseGenresTop_printed (q : ascii) (g rest : string) :
  is_quote q = true → g ≠ "" → has_char "," g = false →
  (rest = "]" ∨ ∃ u, rest = String "," u) →
  parseGenresTop (printed_genres q g rest) = g.
Proof.
  intros Hq Hg Hc Hrest.
  destruct (is_quote_cases q Hq) as (Hws & Hqc & Hrb & Hlb).
  set (P := String q (g ++ String q "")).
  assert (HP : ∀ u, String q (g ++ String q u) = (P ++ u)%string).
  { intros u. unfold P. by rewrite AnchorFacts.app_cons, AnchorFacts.app_assoc. }
  assert (HtP : ∀ u, Str.trim (P ++ String "," u)
                     = (P ++ String "," (Str.trimEnd u))%string).
  { intros u. unfold P. rewrite AnchorFacts.app_cons.
    by rewrite AnchorFacts.trim_anchored, <- AnchorFacts.app_cons. }
  assert (HtP0 : Str.trim P = P).
  { unfold P. by rewrite AnchorFacts.trim_anchored. }
  assert (HPne : ∀ u, (P ++ u)%string ≠ "]").
  { intros u. unfold P. rewrite AnchorFacts.app_cons. intros [= -> _]. done. }
  unfold printed_genres. rewrite HP.
  destruct Hrest as [->|[u ->]].
  - rewrite (parseGenresTop_bracketed _ (P ++ "]")).
    + rewrite AnchorFacts.strip_last_snoc, HtP0 by done.
      unfold P. apply first_piece_quoted; auto.
    + by rewrite AnchorFacts.trim_anchored.
    + apply HPne.
    + rewrite AnchorFacts.strip_last_snoc, HtP0 by done. done.
  - assert (Hs : ∃ w, Str.strip_last is_rbracket (P ++ String "," (Str.trimEnd u))
                      = (P ++ String "," w)%string).
    { rewrite AnchorFacts.strip_last_app by done.
      destruct (Str.trimEnd u) as [|c w] eqn:E.
      - exists "". done.
      - exists (Str.strip_last is_rbracket (String c w)). done. }
    destruct Hs as [w Hw].
    rewrite (parseGenresTop_bracketed _ (P ++ String "," (Str.trimEnd u))).
    + rewrite Hw, HtP, <- HP. apply first_piece_quoted; eauto.
    + by rewrite AnchorFacts.trim_anchored.
    + apply HPne.
    + rewrite Hw, HtP. unfold P. done.
Qed.

Lemma parseGenresTop_printed_witness :
  parseGenresTop "['dance pop', 'pop']" = "dance pop"
  ∧ parseGenresTop "['r&b']" = "r&b".
Proof.
  split.
  - apply (parseGenresTop_printed "'" "dance pop" ", 'pop']");
      [reflexivity|discriminate|reflexivity|].
    right. by exists " 'pop']".
  - apply (parseGenresTop_printed "'" "r&b" "]");
      [reflexivity|discriminate|reflexivity|by left].
Defined.

(** X3. White space around the cell does not change the label. *)
Theorem parseGenresTop_trim (s : string) :
  parseGenresTop (Str.trim s) = parseGenresTop s.
Proof.
  unfold parseGenresTop. rewrite AnchorFacts.trim_idem.
  destruct s as [|c s]; [done|]. cbn [Str.nonempty String.eqb negb].
  destruct (Str.trim (String c s)) as [|c' t] eqn:E; [done|]. done.
Qed.

(** ** The normalizer, column by column *)

Lemma assigned_None k kvs : assigned k kvs = None ↔ k ∉ kvs.*1.
Proof.
  induction kvs as [|[k' v] kvs IH]; csimpl.
  - split; [intros _; apply not_elem_of_nil|done].
  - rewrite not_elem_of_cons, <- IH. destruct (assigned k kvs).
    + split; [done|]. by intros [_ ?].
    + destruct (String.eqb_spec k' k) as [->|Hne].
      * split; [done|]. by intros [? _].
      * split; [|done]. intros _. split; [congruence|done].
Qed.

Lemma assigned_Some k kvs : is_Some (assigned k kvs) ↔ k ∈ kvs.*1.
Proof.
  destruct (decide (k ∈ kvs.*1)) as [Hin|Hnot].
  - split; [done|]. intros _. destruct (assigned k kvs) eqn:E; [done|].
    by apply assigned_None in E.
  - apply assigned_None in Hnot as E. rewrite E. split; [by intros []|done].
Qed.

Lemma assign_twice (r : row) kvs : assign (assign r kvs) kvs = assign r kvs.
Proof.
  apply map_eq. intros k. destruct (assigned k kvs) as [v|] eqn:E.
  - by rewrite !(lookup_assign_Some _ _ _ _ E).
  - by rewrite (lookup_assign_None _ _ _ E).
Qed.

Lemma toNumber_unfold x fb :
  toNumber x fb = if num_isFinite (Number x) then Number x else fb.
Proof. done. Qed.

Lemma toNumber_NaN_cases x : toNumber x NaN = NaN ∨ ∃ y, toNumber x NaN = Fin y.
Proof. unfold toNumber. destruct (Number x); cbn; eauto. Qed.

Lemma toNumber_idem x fb :
  num_isFinite fb = true →
  toNumber (VNum (toNumber x fb)) fb = toNumber x fb.
Proof. intros H. destruct (toNumber_finite x fb H) as [y ->]. done. Qed.

Lemma ms_cases r : ms r = NaN ∨ ∃ y, ms r = Fin y.
Proof.
  unfold ms. destruct (negb _); [apply toNumber_NaN_cases|by left].
Qed.

Lemma minFromCol_cases r : minFromCol r = NaN ∨ ∃ y, minFromCol r = Fin y.
Proof.
  unfold minFromCol. destruct (negb _); [apply toNumber_NaN_cases|by left].
Qed.

Lemma fin_R_div x z :
  z ≠ 0%Z → fin_R (fin_div x (fin_of_Z z)) = (fin_R x / IZR z)%R.
Proof.
  intros Hz. destruct x as [q|r]; cbn [fin_div fin_of_Z fin_R].
  - rewrite (Qeq_eqR _ _ (Qred_correct _)), Q2R_div, Q2R_inject_Z; [done|].
    intros H. apply Hz. unfold Qeq in H. cbn in H. lia.
  - by rewrite Q2R_inject_Z.
Qed.

Lemma minFromMs_cases r :
  (ms r = NaN ∧ minFromMs r = NaN)
  ∨ ∃ x y, ms r = Fin x ∧ minFromMs r = Fin y
           ∧ (fin_R y * 60000 = fin_R x)%R.
Proof.
  unfold minFromMs. destruct (ms_cases r) as [->|[x ->]]; [by left|].
  right. cbn [num_isFinite num_div num_of_Z].
  assert (E : fin_eqb (fin_of_Z 60000) (fin_of_Z 0) = false).
  { apply not_true_iff_false. rewrite fin_eqb_spec, !fin_R_of_Z. lra. }
  rewrite E. eexists _, _. split; [done|split; [done|]].
  rewrite fin_R_div by done. lra.
Qed.

Lemma get_preprocessTrack_other cy nts r k :
  k ∉ normalized_columns → preprocessTrack cy nts r !! k = r !! k.
Proof.
  intros H. unfold preprocessTrack. apply lookup_assign_None, assigned_None.
  exact H.
Qed.

Lemma preprocessTrack_typed cy nts r : typed cy (preprocessTrack cy nts r).
Proof.
  split.
  - intros k Hk. unfold counted_columns in Hk.
    repeat (apply elem_of_cons in Hk as [->|Hk]);
      [..|by apply elem_of_nil in Hk];
      match goal with |- ∃ x, _ !! ?k = _ =>
        destruct (toNumber_finite (get r k) (num_of_Z 0) eq_refl) as [x Hx];
        exists x; apply lookup_preprocessTrack_Some; cbn;
        by rewrite <- Hx
      end.
  - eexists. apply lookup_preprocessTrack_Some. by cbn.
  - exists (genreTop nts r). split.
    + apply lookup_preprocessTrack_Some. by cbn.
    + apply parseGenresTop_nonempty.
  - exists (followers r). split; by apply lookup_preprocessTrack_Some.
  - destruct (year_in_range cy r) as [E|(x & E & _ & Hx)].
    + left. apply lookup_preprocessTrack_Some. cbn. by rewrite E.
    + right. exists x. split; [|done].
      apply lookup_preprocessTrack_Some. cbn. by rewrite E.
  - intros k Hk.
    repeat (apply elem_of_cons in Hk as [->|Hk]);
      [..|by apply elem_of_nil in Hk].
    + destruct (ms_cases r) as [E|[y E]]; [left|right; exists y];
        apply lookup_preprocessTrack_Some; cbn; by rewrite E.
    + destruct (minFromCol_cases r) as [E|[y E]]; [left|right; exists y];
        apply lookup_preprocessTrack_Some; cbn; by rewrite E.
    + destruct (minFromCol_cases r) as [E|[y E]].
      * destruct (minFromMs_cases r) as [[_ E']|(x & y & _ & E' & _)];
          [left|right; exists y];
          apply lookup_preprocessTrack_Some; cbn; by rewrite E, E'.
      * right. exists y. apply lookup_preprocessTrack_Some. cbn. by rewrite E.
Qed.

Lemma typed_union cy (a b : row) : typed cy a → typed cy (a ∪ b).
Proof.
  intros [H1 [e H2] (g & H3 & Hg) (f & H4 & H4') H5 H6]. split.
  - intros k Hk. destruct (H1 k Hk) as [x Hx]. exists x.
    by apply lookup_union_Some_l.
  - exists e. by apply lookup_union_Some_l.
  - exists g. split; [by apply lookup_union_Some_l|done].
  - exists f. split; by apply lookup_union_Some_l.
  - destruct H5 as [E|(x & E & Hx)]; [left|right; exists x; split; [|done]];
      by apply lookup_union_Some_l.
  - intros k Hk. destruct (H6 k Hk) as [E|[x E]]; [left|right; exists x];
      by apply lookup_union_Some_l.
Qed.

(** A property of rows that laying a row over another keeps holds of
    every merged record once it holds of the rows of both sources. *)
Lemma merge_Forall (P : row → Prop) A B :
  (∀ a b, P a → P (a ∪ b)) →
  Forall P A → Forall P B →
  Forall P (JsMap.values (merge_by_track_id A B)).
Proof.
  intros HP HA HB. unfold merge_by_track_id.
  assert (Hseed : Forall P (JsMap.values (seed B))).
  { unfold seed.
    assert (Hnil : Forall P (JsMap.values (@nil (value * row))))
      by constructor.
    revert Hnil. generalize (@nil (value * row)).
    induction HB as [|r B Hr HB IH]; intros m Hm; [done|].
    cbn [foldl]. apply IH. by apply Forall_values_set. }
  unfold overlay. revert Hseed. generalize (seed B).
  induction HA as [|r A Hr HA IH]; intros m Hm; [done|].
  cbn [foldl]. apply IH. apply Forall_values_set; [|done].
  by apply HP.
Qed.

Lemma load_rows_typed cy nts a b d : d ∈ load cy nts a b → typed cy d.
Proof.
  revert d. apply Forall_forall. unfold load.
  apply merge_Forall; [apply typed_union|..];
    unfold preprocessTracks; apply Forall_fmap, Forall_forall;
    intros r _; apply preprocessTrack_typed.
Qed.

(** X4. Every row of the loaded dataset is typed as [TrackRow] says,
    whatever the two CSV files hold: the five count columns are finite
    numbers, [explicit] is a boolean, [genre_top] is a non-empty text,
    [followers_log] is the logarithm of that row's [artist_followers]
    plus one, [release_year] is [undefined] or a number from 1900 to
    next year, and the three duration columns are [undefined] or finite.
    The merge cannot mix the columns of two rows here, because each
    normalized row carries all twelve. *)
Theorem load_typed (cy : Z) (nts : num → string) (a b : list row) (d : row) :
  d ∈ load cy nts a b → typed cy d.
Proof.
  revert d. apply Forall_forall. unfold load.
  apply merge_Forall.
  - apply typed_union.
  - apply Forall_fmap, Forall_forall. intros r _. apply preprocessTrack_typed.
  - apply Forall_fmap, Forall_forall. intros r _. apply preprocessTrack_typed.
Qed.

Lemma load_typed_witness :
  ∃ d, d ∈ load 2026 no_digits [csv_A_t1] [csv_B_t1] ∧ typed 2026 d.
Proof.
  exists (preprocessTrack 2026 no_digits csv_A_t1
          ∪ preprocessTrack 2026 no_digits csv_B_t1).
  assert (H : preprocessTrack 2026 no_digits csv_A_t1
              ∪ preprocessTrack 2026 no_digits csv_B_t1
              ∈ load 2026 no_digits [csv_A_t1] [csv_B_t1]).
  { apply list_elem_of_singleton. reflexivity. }
  split; [exact H|exact (load_typed _ _ _ _ _ H)].
Defined.

(** X5. The five count columns ([track_number], [track_popularity],
    [artist_popularity], [artist_followers], [album_total_tracks]) hold
    the number the cell converts to when that number is finite, and 0
    otherwise: a missing column, a text that is no numeric literal and
    an infinity all give 0, and a blank cell gives 0 as the number it
    converts to. *)
Theorem counted_columns_fallback (cy : Z) (nts : num → string) (r : row) (k : string) :
  k ∈ counted_columns →
  get (preprocessTrack cy nts r) k
  = VNum (if num_isFinite (Number (get r k)) then Number (get r k)
          else num_of_Z 0)
  ∧ (r !! k = None → get (preprocessTrack cy nts r) k = VNum (num_of_Z 0))
  ∧ (∀ s, r !! k = Some (VStr s) → Str.trim s = "" →
          get (preprocessTrack cy nts r) k = VNum (num_of_Z 0))
  ∧ (∀ x, r !! k = Some (VNum (Fin x)) →
          get (preprocessTrack cy nts r) k = VNum (Fin x)).
Proof.
  intros Hk.
  assert (E : get (preprocessTrack cy nts r) k
              = VNum (toNumber (get r k) (num_of_Z 0))).
  { unfold counted_columns in Hk.
    repeat (apply elem_of_cons in Hk as [->|Hk]);
      [..|by apply elem_of_nil in Hk];
      unfold preprocessTrack; by rewrite get_assign. }
  rewrite E. split; [done|]. split; [|split].
  - intros H. unfold get at 1. by rewrite H.
  - intros s H Hs. rewrite (get_lookup _ _ _ H).
    unfold toNumber, Number, NumLit.to_number. by rewrite Hs.
  - intros x H. by rewrite (get_lookup _ _ _ H).
Qed.

Lemma counted_columns_fallback_witness :
  get (preprocessTrack 2026 no_digits (row_followers "12px")) "artist_followers"
  = VNum (num_of_Z 0)
  ∧ get (preprocessTrack 2026 no_digits (row_followers "12px")) "track_popularity"
    = VNum (num_of_Z 0).
Proof.
  assert (H1 : "artist_followers" ∈ counted_columns) by compute_done.
  assert (H2 : "track_popularity" ∈ counted_columns) by compute_done.
  split.
  - exact (proj1 (counted_columns_fallback 2026 no_digits
                    (row_followers "12px") "artist_followers" H1)).
  - exact (proj1 (proj2 (counted_columns_fallback 2026 no_digits
                           (row_followers "12px") "track_popularity" H2))
             eq_refl).
Defined.

(** X6. [duration_min].  The minutes column wins when it converts to a
    finite number; otherwise the milliseconds column divided by 60000 is
    taken when that one is finite; otherwise the column is [undefined].
    A blank minutes cell converts to 0, so it gives 0 minutes and hides
    the milliseconds column. *)
Theorem duration_min_rule (cy : Z) (nts : num → string) (r : row) :
  (∀ x, minFromCol r = Fin x →
        get (preprocessTrack cy nts r) "duration_min" = VNum (Fin x))
  ∧ (∀ x, minFromCol r = NaN → ms r = Fin x →
          ∃ y, get (preprocessTrack cy nts r) "duration_min" = VNum (Fin y)
               ∧ (fin_R y * 60000 = fin_R x)%R)
  ∧ (minFromCol r = NaN → ms r = NaN →
     get (preprocessTrack cy nts r) "duration_min" = VUndef)
  ∧ (nullish (get r "track_duration_min") = true → minFromCol r = NaN)
  ∧ (∀ s, get r "track_duration_min" = VStr s → Str.trim s = "" →
          get (preprocessTrack cy nts r) "duration_min" = VNum (num_of_Z 0)).
Proof.
  assert (E : get (preprocessTrack cy nts r) "duration_min"
              = if num_isFinite (minFromCol r) then VNum (minFromCol r)
                else finite_or_undef (minFromMs r)).
  { unfold preprocessTrack. by rewrite get_assign. }
  rewrite E. split; [|split; [|split; [|split]]].
  - by intros x ->.
  - intros x -> Hx. cbn [num_isFinite].
    destruct (minFromMs_cases r) as [[E' _]|(x' & y & E1 & E2 & Hy)];
      [congruence|].
    exists y. rewrite E2. split; [done|]. congruence.
  - intros -> Hms. cbn [num_isFinite].
    destruct (minFromMs_cases r) as [[_ ->]|(x' & y & E1 & _)]; [done|].
    congruence.
  - intros H. unfold minFromCol. by rewrite H.
  - intros s Hs Ht.
    assert (E0 : minFromCol r = num_of_Z 0).
    { unfold minFromCol. rewrite Hs. cbn [nullish negb].
      unfold toNumber, Number, NumLit.to_number. by rewrite Ht. }
    by rewrite E0.
Qed.

Lemma duration_min_rule_witness :
  get (preprocessTrack 2026 no_digits
         {[ "track_duration_min" := VStr " "; "track_duration_ms" := VStr "180000" ]})
      "duration_min" = VNum (num_of_Z 0)
  ∧ ∃ y, get (preprocessTrack 2026 no_digits
                {[ "track_duration_ms" := VStr "180000" ]}) "duration_min"
         = VNum (Fin y)
         ∧ (fin_R y * 60000 = IZR 180000)%R.
Proof.
  split.
  - assert (H1 : get {[ "track_duration_min" := VStr " ";
                         "track_duration_ms" := VStr "180000" ]}
                   "track_duration_min" = VStr " ")
      by (vm_compute; reflexivity).
    exact (proj2 (proj2 (proj2 (proj2
      (duration_min_rule 2026 no_digits
         {[ "track_duration_min" := VStr " ";
            "track_duration_ms" := VStr "180000" ]}))))
      " " H1 eq_refl).
  - assert (H1 : minFromCol {[ "track_duration_ms" := VStr "180000" ]} = NaN)
      by (vm_compute; reflexivity).
    assert (H2 : ms {[ "track_duration_ms" := VStr "180000" ]}
                 = Fin (fin_of_Z 180000))
      by (vm_compute; reflexivity).
    destruct (proj1 (proj2
      (duration_min_rule 2026 no_digits {[ "track_duration_ms" := VStr "180000" ]}))
      (fin_of_Z 180000) H1 H2) as (y & Hy & Hr).
    exists y. split; [exact Hy|]. rewrite Hr. apply fin_R_of_Z.
Defined.

(** X7. The normalizer drops nothing and touches nothing else: a
    column other than the twelve it writes passes through unchanged, and
    the columns of the result are those of the raw row and the twelve. *)
Theorem preprocessTrack_columns (cy : Z) (nts : num → string) (r : row) (k : string) :
  (k ∉ normalized_columns → preprocessTrack cy nts r !! k = r !! k)
  ∧ (is_Some (preprocessTrack cy nts r !! k)
     ↔ is_Some (r !! k) ∨ k ∈ normalized_columns).
Proof.
  split; [apply get_preprocessTrack_other|].
  destruct (decide (k ∈ normalized_columns)) as [Hin|Hnot].
  - split; [by right|]. intros _.
    unfold preprocessTrack.
    match goal with |- is_Some (assign _ ?kvs !! _) =>
      destruct (proj2 (assigned_Some k kvs) Hin) as [v Hv];
      rewrite (lookup_assign_Some _ _ _ _ Hv)
    end.
    done.
  - rewrite get_preprocessTrack_other by done. split; [by left|].
    by intros [?|?].
Qed.

Lemma preprocessTrack_columns_witness :
  preprocessTrack 2026 no_digits csv_A_t1 !! "track_id" = Some (VStr "t1").
Proof.
  assert (H : "track_id" ∉ normalized_columns) by compute_done.
  exact (proj1 (preprocessTrack_columns 2026 no_digits csv_A_t1 "track_id") H).
Defined.

(** ** Normalizing twice *)

Lemma preprocessTrack_get_other cy nts r k :
  k ∉ normalized_columns → get (preprocessTrack cy nts r) k = get r k.
Proof. intros H. unfold get. by rewrite get_preprocessTrack_other. Qed.

Lemma followers_twice cy nts r : followers (preprocessTrack cy nts r) = followers r.
Proof.
  unfold followers at 1. rewrite preprocessTrack_artist_followers.
  unfold followers. by apply toNumber_idem.
Qed.

Lemma ms_twice cy nts r : ms (preprocessTrack cy nts r) = ms r.
Proof.
  unfold ms at 1.
  assert (E : get (preprocessTrack cy nts r) "track_duration_ms"
              = finite_or_undef (ms r)).
  { unfold preprocessTrack. by rewrite get_assign. }
  rewrite E. by destruct (ms_cases r) as [->|[y ->]].
Qed.

Lemma minFromCol_twice cy nts r :
  minFromCol (preprocessTrack cy nts r) = minFromCol r.
Proof.
  unfold minFromCol at 1.
  assert (E : get (preprocessTrack cy nts r) "track_duration_min"
              = finite_or_undef (minFromCol r)).
  { unfold preprocessTrack. by rewrite get_assign. }
  rewrite E. by destruct (minFromCol_cases r) as [->|[y ->]].
Qed.

Lemma year_twice cy nts r : year cy (preprocessTrack cy nts r) = year cy r.
Proof.
  unfold year, yearRaw. by rewrite preprocessTrack_get_other by compute_done.
Qed.

Lemma genreTop_twice cy nts r :
  genreTop nts (preprocessTrack cy nts r) = genreTop nts r.
Proof.
  unfold genreTop. by rewrite preprocessTrack_get_other by compute_done.
Qed.

(** X8. Normalizing a normalized row changes nothing: every column the
    normalizer writes is a fixed point of the conversion that wrote it. *)
Theorem preprocessTrack_idempotent (cy : Z) (nts : num → string) (r : row) :
  preprocessTrack cy nts (preprocessTrack cy nts r) = preprocessTrack cy nts r.
Proof.
  unfold preprocessTrack at 1.
  unfold followersLog, minFromMs.
  rewrite followers_twice, ms_twice, minFromCol_twice, year_twice, genreTop_twice.
  assert (En : ∀ k, k ∈ counted_columns →
            toNumber (get (preprocessTrack cy nts r) k) (num_of_Z 0)
            = toNumber (get r k) (num_of_Z 0)).
  { intros k Hk.
    assert (E : get (preprocessTrack cy nts r) k
                = VNum (toNumber (get r k) (num_of_Z 0))).
    { unfold counted_columns in Hk.
      repeat (apply elem_of_cons in Hk as [->|Hk]);
        [..|by apply elem_of_nil in Hk];
        unfold preprocessTrack; by rewrite get_assign. }
    rewrite E. by apply toNumber_idem. }
  rewrite !En by compute_done.
  assert (Eb : toBool (get (preprocessTrack cy nts r) "explicit")
               = toBool (get r "explicit")).
  { unfold preprocessTrack. by rewrite get_assign. }
  rewrite Eb.
  unfold preprocessTrack, followersLog, minFromMs. apply assign_twice.
Qed.

(** ** The merge: which records, in which order *)

Module MergeFacts.
Section Facts.
Context {K V : Type} `{EqDecision K}.
Implicit Types (m : list (K * V)).

Lemma keys_set k v m : (JsMap.set k v m).*1 = JsSet.add k m.*1.
Proof.
  unfold JsSet.add, JsSet.has. induction m as [|[k' v'] m IH]; [done|].
  cbn [JsMap.set]. destruct (decide (k' = k)) as [->|Hne]; csimpl.
  - rewrite bool_decide_eq_true_2 by left. done.
  - rewrite IH. case_bool_decide as H1; case_bool_decide as H2; try done.
    + destruct H2. by right.
    + apply elem_of_cons in H2 as [->|H2]; done.
Qed.

Lemma get_fresh k m : k ∉ m.*1 → JsMap.get k m = None.
Proof.
  induction m as [|[k' v'] m IH]; [done|]. csimpl.
  intros [Hne Hm]%not_elem_of_cons. destruct (decide (k' = k)); [done|].
  by apply IH.
Qed.

Lemma set_fresh k v m : k ∉ m.*1 → JsMap.set k v m = m ++ [(k, v)].
Proof.
  induction m as [|[k' v'] m IH]; [done|]. csimpl.
  intros [Hne Hm]%not_elem_of_cons. destruct (decide (k' = k)); [done|].
  by rewrite IH.
Qed.

Lemma Forall_set (P : K * V → Prop) k v m :
  P (k, v) → Forall P m → Forall P (JsMap.set k v m).
Proof.
  intros Hv. induction m as [|[k' v'] m IH]; csimpl.
  - intros _. by repeat constructor.
  - intros [Hv' Hm]%Forall_cons. destruct (decide (k' = k)).
    + by constructor.
    + constructor; [done|by apply IH].
Qed.

Lemma get_Forall (P : K * V → Prop) k v m :
  Forall P m → JsMap.get k m = Some v → P (k, v).
Proof.
  induction m as [|[k' v'] m IH]; [done|]. csimpl.
  intros [Hv' Hm]%Forall_cons. destruct (decide (k' = k)) as [->|].
  - by intros [= ->].
  - by apply IH.
Qed.

End Facts.
End MergeFacts.

Lemma of_list_app {K} `{EqDecision K} (l1 l2 : list K) :
  JsSet.of_list (l1 ++ l2) = foldl (λ s x, JsSet.add x s) (JsSet.of_list l1) l2.
Proof. unfold JsSet.of_list. by rewrite foldl_app. Qed.

(** The keys of the merged map: the identifiers of B, then of A, each at
    its first occurrence. *)
Lemma merge_keys A B :
  (merge_by_track_id A B).*1
  = JsSet.of_list (((λ r, get r "track_id") <$> B) ++ ((λ r, get r "track_id") <$> A)).
Proof.
  rewrite of_list_app. unfold merge_by_track_id.
  assert (Hs : (seed B).*1 = JsSet.of_list ((λ r, get r "track_id") <$> B)).
  { unfold seed, JsSet.of_list.
    change (@nil value) with ((@nil (value * row)).*1).
    generalize (@nil (value * row)).
    induction B as [|r B IH]; intros m; [done|].
    csimpl. by rewrite IH, MergeFacts.keys_set. }
  rewrite <- Hs. unfold overlay. generalize (seed B).
  induction A as [|r A IH]; intros m; [done|].
  csimpl. by rewrite IH, MergeFacts.keys_set.
Qed.

(** Every merged record is stored under its own identifier. *)
Lemma merge_keyed A B :
  Forall (λ kv, get kv.2 "track_id" = kv.1) (merge_by_track_id A B).
Proof.
  unfold merge_by_track_id.
  assert (Hs : Forall (λ kv : value * row, get kv.2 "track_id" = kv.1) (seed B)).
  { unfold seed.
    assert (Hnil : Forall (λ kv : value * row, get kv.2 "track_id" = kv.1) [])
      by constructor.
    revert Hnil. generalize (@nil (value * row)).
    induction B as [|r B IH]; intros m Hm; [done|].
    cbn [foldl]. apply IH. by apply MergeFacts.Forall_set. }
  unfold overlay. revert Hs. generalize (seed B).
  induction A as [|r A IH]; intros m Hm; [done|].
  cbn [foldl]. apply IH. apply MergeFacts.Forall_set; [|done].
  cbn [fst snd]. unfold spread2, get at 1.
  destruct (r !! "track_id") as [v|] eqn:E.
  - rewrite (lookup_union_Some_l _ _ _ _ E). cbn. unfold get. by rewrite E.
  - rewrite lookup_union_r by done.
    assert (Hk : get r "track_id" = VUndef) by (unfold get; by rewrite E).
    rewrite Hk. destruct (JsMap.get VUndef m) as [x|] eqn:Ex; [|done].
    apply (MergeFacts.get_Forall _ _ _ _ Hm) in Ex. exact Ex.
Qed.

Lemma ids_preprocessTracks cy nts rows :
  (λ r, get r "track_id") <$> preprocessTracks cy nts rows
  = (λ r, get r "track_id") <$> rows.
Proof.
  unfold preprocessTracks. rewrite <- list_fmap_compose.
  apply list_fmap_ext. intros _ r _. apply preprocessTrack_track_id.
Qed.

(** X9. One record per identifier.  The [track_id]s of the loaded
    dataset are the identifiers of the second file followed by those of
    the first, each kept at its first occurrence only: no identifier
    appears twice, none of either file is lost, and the order is that of
    first appearance. *)
Theorem load_track_ids (cy : Z) (nts : num → string) (a b : list row) :
  (λ d, get d "track_id") <$> load cy nts a b
  = JsSet.of_list (((λ r, get r "track_id") <$> b) ++ ((λ r, get r "track_id") <$> a))
  ∧ NoDup ((λ d, get d "track_id") <$> load cy nts a b)
  ∧ (∀ k, k ∈ (λ d, get d "track_id") <$> load cy nts a b
          ↔ k ∈ (λ r, get r "track_id") <$> a
            ∨ k ∈ (λ r, get r "track_id") <$> b).
Proof.
  assert (E : (λ d, get d "track_id") <$> load cy nts a b
              = JsSet.of_list (((λ r, get r "track_id") <$> b)
                               ++ ((λ r, get r "track_id") <$> a))).
  { unfold load, JsMap.values.
    rewrite <- (ids_preprocessTracks cy nts a), <- (ids_preprocessTracks cy nts b).
    rewrite <- merge_keys.
    pose proof (merge_keyed (preprocessTracks cy nts a) (preprocessTracks cy nts b))
      as Hk.
    induction Hk as [|[k v] m Hkv Hm IH]; [done|].
    csimpl. cbn in Hkv. by rewrite Hkv, IH. }
  rewrite E. split; [done|]. split; [apply JsSetFacts.NoDup_of_list|].
  intros k. rewrite JsSetFacts.elem_of_of_list, elem_of_app. tauto.
Qed.

Lemma seed_from_distinct (m : list (value * row)) B :
  NoDup (m.*1 ++ ((λ r, get r "track_id") <$> B)) →
  foldl (λ m r, JsMap.set (get r "track_id") r m) m B
  = m ++ ((λ r, (get r "track_id", r)) <$> B).
Proof.
  revert m. induction B as [|r B IH]; intros m Hm.
  - csimpl. by rewrite app_nil_r.
  - csimpl. apply NoDup_app in Hm as (Hm1 & Hm2 & [Hr HB]%NoDup_cons).
    rewrite MergeFacts.set_fresh.
    2:{ intros Hin. apply (Hm2 _ Hin). by left. }
    rewrite IH.
    + by rewrite <- app_assoc.
    + rewrite fmap_app. csimpl. rewrite <- app_assoc. csimpl.
      apply NoDup_app. split; [done|]. split; [|by constructor]. done.
Qed.

Lemma overlay_distinct A (m : list (value * row)) :
  NoDup (m.*1 ++ ((λ r, get r "track_id") <$> A)) →
  overlay A m = m ++ ((λ r, (get r "track_id", r)) <$> A).
Proof.
  unfold overlay. revert m. induction A as [|r A IH]; intros m Hm.
  - csimpl. by rewrite app_nil_r.
  - csimpl. apply NoDup_app in Hm as (Hm1 & Hm2 & [Hr HA]%NoDup_cons).
    assert (Hf : get r "track_id" ∉ m.*1).
    { intros Hin. apply (Hm2 _ Hin). by left. }
    rewrite MergeFacts.get_fresh, MergeFacts.set_fresh by done.
    unfold spread2. cbn [default]. rewrite (right_id ∅ (∪)).
    rewrite IH.
    + by rewrite <- app_assoc.
    + rewrite fmap_app. csimpl. rewrite <- app_assoc. csimpl.
      apply NoDup_app. split; [done|]. split; [|by constructor]. done.
Qed.

(** X10. When no identifier occurs twice across the two files, nothing
    is merged: the dataset is the normalized rows of the second file
    followed by the normalized rows of the first, each row as the
    normalizer made it. *)
Theorem load_distinct (cy : Z) (nts : num → string) (a b : list row) :
  NoDup (((λ r, get r "track_id") <$> b) ++ ((λ r, get r "track_id") <$> a)) →
  load cy nts a b = preprocessTracks cy nts b ++ preprocessTracks cy nts a.
Proof.
  intros Hnd. unfold load, merge_by_track_id, JsMap.values.
  rewrite <- (ids_preprocessTracks cy nts a), <- (ids_preprocessTracks cy nts b)
    in Hnd.
  assert (Hs : seed (preprocessTracks cy nts b)
               = (λ r, (get r "track_id", r)) <$> preprocessTracks cy nts b).
  { unfold seed. rewrite seed_from_distinct; [done|]. csimpl.
    by apply NoDup_app in Hnd as (? & _ & _). }
  rewrite Hs, overlay_distinct.
  - rewrite fmap_app, <- !list_fmap_compose.
    f_equal; apply list_fmap_id.
  - by rewrite <- list_fmap_compose.
Qed.

Lemma load_distinct_witness :
  load 2026 no_digits [csv_id "a"; csv_id "b"] [csv_id "c"]
  = preprocessTracks 2026 no_digits [csv_id "c"]
    ++ preprocessTracks 2026 no_digits [csv_id "a"; csv_id "b"].
Proof.
  apply (load_distinct 2026 no_digits [csv_id "a"; csv_id "b"] [csv_id "c"]).
  compute_done.
Defined.

(** ** More of the aggregator and of the genre filter *)

Lemma top_labels_all labels k :
  (length (JsSet.of_list labels) ≤ k)%nat →
  ∀ g, g ∈ top_labels labels k ↔ g ∈ labels.
Proof.
  intros Hk g.
  destruct (top_labels_rule labels k) as (Hnd & Hlen & Hsub & _).
  split; [apply Hsub|]. intros Hg.
  assert (Hp : top_labels labels k ≡ₚ JsSet.of_list labels).
  { apply submseteq_length_Permutation.
    - apply NoDup_submseteq; [done|]. intros x Hx.
      by apply JsSetFacts.elem_of_of_list, Hsub.
    - rewrite Hlen. lia. }
  rewrite Hp. by apply JsSetFacts.elem_of_of_list.
Qed.

(** X11. Raising K only adds labels at the end: the top set for a
    smaller K is a prefix of the top set for a larger one; K = 0 gives
    the empty set; and once K reaches the number of distinct labels the
    top set holds every label of the data. *)
Theorem topKGenres_grows (data : list row) (k k' : nat) :
  ((k ≤ k')%nat → topKGenres data k `prefix_of` topKGenres data k')
  ∧ topKGenres data 0 = []
  ∧ ((length (JsSet.of_list (genre_of <$> data)) ≤ k)%nat →
     ∀ g, g ∈ topKGenres data k ↔ g ∈ genre_of <$> data).
Proof.
  unfold topKGenres. split; [|split].
  - intros Hk. rewrite !top_labels_closed_form.
    set (sorted := js_sort by_count_desc (tally (genre_of <$> data))).
    replace (take k sorted) with (take k (take k' sorted))
      by (rewrite take_take; f_equal; lia).
    destruct (prefix_take (take k' sorted) k) as [rest Hrest].
    exists (rest.*1). rewrite <- fmap_app. f_equal. exact Hrest.
  - by rewrite top_labels_closed_form.
  - apply top_labels_all.
Qed.

Lemma topKGenres_grows_witness :
  topKGenres (labelled <$> ["a"; "b"; "a"]) 1
    `prefix_of` topKGenres (labelled <$> ["a"; "b"; "a"]) 2
  ∧ (VStr "b" ∈ topKGenres (labelled <$> ["a"; "b"; "a"]) 2
     ↔ VStr "b" ∈ genre_of <$> (labelled <$> ["a"; "b"; "a"])).
Proof.
  split.
  - apply (topKGenres_grows (labelled <$> ["a"; "b"; "a"]) 1 2). lia.
  - apply (topKGenres_grows (labelled <$> ["a"; "b"; "a"]) 2 2). compute_done.
Defined.

(** With at most ten distinct genres nothing is bucketed: the genre
    filter compares the genre itself. *)
Lemma elem_of_filter_genre_few rows g d :
  (length (JsSet.of_list (genre_of <$> rows)) ≤ 10)%nat →
  d ∈ filter_genre (Some g) rows ↔ d ∈ rows ∧ genre_of d = VStr g.
Proof.
  intros Hk. rewrite elem_of_filter_genre.
  assert (Hb : d ∈ rows →
               bucket (topKGenres rows 10) (genre_of d) = genre_of d).
  { intros Hd. unfold bucket, JsSet.has.
    rewrite bool_decide_eq_true_2; [done|].
    apply top_labels_all; [done|]. apply list_elem_of_fmap. eauto. }
  split.
  - intros [Hd Hg]. split; [done|]. specialize (Hg g eq_refl).
    apply strict_eq_VStr in Hg. by rewrite <- Hg, Hb.
  - intros [Hd Hg]. split; [done|]. intros ? [= <-].
    apply strict_eq_VStr. by rewrite Hb.
Qed.

(** X12. With at most ten distinct genres among the rows that reach the
    genre filter, nothing is bucketed as ["Other"]: the filter keeps
    exactly the rows of the selected genre, and selecting ["Other"] keeps
    no row unless a genre is itself called ["Other"]. *)
Theorem filter_genre_exact (rows : list row) (g : string) :
  (length (JsSet.of_list (genre_of <$> rows)) ≤ 10)%nat →
  (∀ d, d ∈ filter_genre (Some g) rows ↔ d ∈ rows ∧ genre_of d = VStr g)
  ∧ ((∀ d, d ∈ rows → genre_of d ≠ VStr "Other") →
     filter_genre (Some "Other") rows = []).
Proof.
  intros Hk. split.
  - intros d. by apply elem_of_filter_genre_few.
  - intros Hno.
    destruct (filter_genre (Some "Other") rows) as [|d l] eqn:E; [done|].
    assert (Hd : d ∈ filter_genre (Some "Other") rows) by (rewrite E; left).
    apply elem_of_filter_genre_few in Hd as [Hd Hg]; [|done].
    by destruct (Hno d Hd).
Qed.

Lemma filter_genre_exact_witness :
  filter_genre (Some "Other") (labelled <$> ["a"; "b"; "a"]) = [].
Proof.
  assert (H : (length (JsSet.of_list (genre_of <$> (labelled <$> ["a"; "b"; "a"])))
               ≤ 10)%nat) by (vm_compute; lia).
  apply (proj2 (filter_genre_exact (labelled <$> ["a"; "b"; "a"]) "Other" H)).
  intros d Hd.
  repeat (apply elem_of_cons in Hd as [->|Hd]); [done..|by apply elem_of_nil in Hd].
Defined.

(** ** The scatter view *)

Lemma sublist_List_filter {A} (f : A → bool) (l : list A) :
  List.filter f l `sublist_of` l.
Proof.
  induction l as [|x l IH]; [done|]. cbn. destruct (f x).
  - by apply sublist_skip.
  - by apply sublist_cons.
Qed.

Lemma sublist_filter_year selY rows : filter_year selY rows `sublist_of` rows.
Proof. destruct selY; [apply sublist_List_filter|done]. Qed.

Lemma sublist_filter_genre selG rows : filter_genre selG rows `sublist_of` rows.
Proof. destruct selG; [apply sublist_List_filter|done]. Qed.

Lemma scatter_valid_finite d :
  scatter_valid d = true ↔
  ∃ x p, get d "followers_log" = VNum (Fin x)
         ∧ get d "track_popularity" = VNum (Fin p).
Proof.
  unfold scatter_valid. split.
  - intros [[[_ H1]%andb_true_iff _]%andb_true_iff H2]%andb_true_iff.
    destruct (get d "followers_log") as [| | |[]|]; try done.
    destruct (get d "track_popularity") as [| | |[]|]; try done. eauto.
  - by intros (x & p & -> & ->).
Qed.

(** X13. The rows the scatter view draws: a sub-sequence of the
    dataset, in dataset order, of at most 2500 rows; each has a finite
    [followers_log] and a finite [track_popularity]; each has the
    selected release year when one is selected; and without a selection
    they are the first 2500 rows that pass the two finiteness checks. *)
Theorem scatter_filtered_rule (data : list row) (s : selection) :
  scatter_filtered data s `sublist_of` data
  ∧ (length (scatter_filtered data s) ≤ 2500)%nat
  ∧ (∀ d, d ∈ scatter_filtered data s →
       (∃ x p, get d "followers_log" = VNum (Fin x)
               ∧ get d "track_popularity" = VNum (Fin p))
       ∧ ∀ y, selectedYear s = Some y →
              strict_eq (get d "release_year") (VNum y) = true)
  ∧ scatter_filtered data no_selection
    = take 2500 (List.filter scatter_valid data).
Proof.
  unfold scatter_filtered, scatter_rows. split; [|split; [|split]].
  - etrans; [apply sublist_take|]. etrans; [apply sublist_filter_genre|].
    etrans; [apply sublist_filter_year|]. apply sublist_List_filter.
  - rewrite length_take. lia.
  - intros d Hd. apply subseteq_take in Hd.
    apply elem_of_filter_genre in Hd as [Hd _].
    apply elem_of_filter_year in Hd as [Hd Hy].
    apply elem_of_filter_bool in Hd as [_ Hv].
    split; [by apply scatter_valid_finite|done].
  - done.
Qed.

(** ** The horizontal scale of the scatter view *)

Lemma fin_R_sub x y : fin_R (fin_add x (fin_opp y)) = (fin_R x - fin_R y)%R.
Proof. rewrite fin_R_add, fin_R_opp. lra. Qed.

Lemma num_ltb_Fin x y : num_ltb (Fin x) (Fin y) = true ↔ (fin_R x < fin_R y)%R.
Proof. apply fin_ltb_spec. Qed.

Lemma num_ltb_Fin_false x y :
  num_ltb (Fin x) (Fin y) = false ↔ (fin_R y <= fin_R x)%R.
Proof. apply fin_ltb_false. Qed.

(** The extent kept while [d3.extent] walks finite numbers. *)
Lemma d3_extent_from (lo hi : fin) (l : list num) :
  (fin_R lo <= fin_R hi)%R →
  Forall (λ n, num_isFinite n = true) l →
  ∃ lo' hi',
    foldl (λ acc v,
             match acc with
             | None => if num_geb v v then Some (v, v) else None
             | Some (lo, hi) =>
                 Some (if num_gtb lo v then v else lo,
                       if num_ltb hi v then v else hi)
             end) (Some (Fin lo, Fin hi)) l
    = Some (Fin lo', Fin hi')
    ∧ (fin_R lo' <= fin_R lo)%R ∧ (fin_R hi <= fin_R hi')%R
    ∧ (∀ x, Fin x ∈ l → (fin_R lo' <= fin_R x <= fin_R hi')%R).
Proof.
  intros Hle Hl. revert lo hi Hle.
  induction Hl as [|v l Hv Hl IH]; intros lo hi Hle.
  - exists lo, hi. split; [done|]. split; [lra|]. split; [lra|].
    intros x Hx. by apply elem_of_nil in Hx.
  - destruct v as [| | |x]; try done. cbn [foldl].
    unfold num_gtb.
    destruct (num_ltb (Fin x) (Fin lo)) eqn:E1;
      destruct (num_ltb (Fin hi) (Fin x)) eqn:E2;
      [apply num_ltb_Fin in E1|apply num_ltb_Fin in E1
      |apply num_ltb_Fin_false in E1|apply num_ltb_Fin_false in E1];
      [apply num_ltb_Fin in E2|apply num_ltb_Fin_false in E2
      |apply num_ltb_Fin in E2|apply num_ltb_Fin_false in E2];
      match goal with
      | |- context [foldl _ (Some (Fin ?a, Fin ?b)) l] =>
          destruct (IH a b ltac:(lra)) as (lo' & hi' & E & H1 & H2 & H3)
      end;
      exists lo', hi'; (split; [exact E|]); (split; [lra|]); (split; [lra|]);
      intros y [[= ->]|Hy]%elem_of_cons; try (by apply H3); lra.
Qed.

Lemma d3_extent_finite (l : list num) :
  Forall (λ n, num_isFinite n = true) l →
  (l = [] ∧ d3_extent l = None)
  ∨ ∃ lo hi, d3_extent l = Some (Fin lo, Fin hi)
             ∧ (fin_R lo <= fin_R hi)%R
             ∧ ∀ x, Fin x ∈ l → (fin_R lo <= fin_R x <= fin_R hi)%R.
Proof.
  intros Hl. destruct Hl as [|v l Hv Hl]; [by left|]. right.
  destruct v as [| | |x]; try done. unfold d3_extent. cbn [foldl].
  assert (E : num_geb (Fin x) (Fin x) = true).
  { unfold num_geb. cbn. apply fin_leb_spec. lra. }
  rewrite E.
  destruct (d3_extent_from x x l ltac:(lra) Hl) as (lo & hi & E' & H1 & H2 & H3).
  exists lo, hi. split; [exact E'|]. split; [lra|].
  intros y [[= ->]|Hy]%elem_of_cons; [lra|by apply H3].
Qed.

(** The domain of a linear scale over finite numbers is never a single
    point, and holds every one of the numbers. *)
Lemma linear_domain_finite (l : list num) :
  Forall (λ n, num_isFinite n = true) l →
  ∃ lo hi, linear_domain l = (Fin lo, Fin hi)
           ∧ (fin_R lo < fin_R hi)%R
           ∧ ∀ x, Fin x ∈ l → (fin_R lo <= fin_R x <= fin_R hi)%R.
Proof.
  intros Hl. unfold linear_domain.
  destruct (d3_extent_finite l Hl) as [[-> ->]|(lo & hi & -> & Hle & Hin)].
  - exists (fin_of_Z 0), (fin_of_Z 1). split; [done|].
    rewrite !fin_R_of_Z. split; [lra|]. intros x Hx. by apply elem_of_nil in Hx.
  - cbn [fst snd num_eqb]. destruct (fin_eqb lo hi) eqn:E.
    + apply fin_eqb_spec in E. eexists _, _. split; [reflexivity|].
      rewrite fin_R_sub, fin_R_add, !fin_R_of_Z.
      split; [lra|]. intros x Hx. specialize (Hin x Hx). lra.
    + exists lo, hi. split; [done|]. split; [|done].
      assert (fin_R lo ≠ fin_R hi).
      { intros H. apply fin_eqb_spec in H. congruence. }
      lra.
Qed.

Lemma small_value_within (v : value) (x : fin) :
  small_value v = true → v = VNum (Fin x) → within_2_52 x.
Proof.
  intros H ->. destruct x as [q|r]; [|done]. cbn in H.
  apply andb_true_iff in H as [H1 H2].
  apply Qle_bool_iff, Qle_Rle in H1. apply Qle_bool_iff, Qle_Rle in H2.
  rewrite Q2R_inject_Z in H1, H2. unfold within_2_52. cbn [fin_R].
  lra.
Qed.

(** The ends of the extent are among the numbers [d3.extent] walks. *)
Lemma d3_extent_from_attained (lo hi : fin) (l : list num) :
  Forall (λ n, num_isFinite n = true) l →
  ∀ lo' hi',
    foldl (λ acc v,
             match acc with
             | None => if num_geb v v then Some (v, v) else None
             | Some (lo, hi) =>
                 Some (if num_gtb lo v then v else lo,
                       if num_ltb hi v then v else hi)
             end) (Some (Fin lo, Fin hi)) l
    = Some (Fin lo', Fin hi') →
    (lo' = lo ∨ Fin lo' ∈ l) ∧ (hi' = hi ∨ Fin hi' ∈ l).
Proof.
  intros Hl. revert lo hi.
  induction Hl as [|v l Hv Hl IH]; intros lo hi lo' hi'.
  - cbn. intros [= -> ->]. auto.
  - destruct v as [| | |x]; try done. cbn [foldl]. unfold num_gtb.
    destruct (num_ltb (Fin x) (Fin lo)); destruct (num_ltb (Fin hi) (Fin x));
      intros E; apply IH in E as [[->|H1] [->|H2]];
      (split; [first [by left|right; by left|right; by right]
              |first [by left|right; by left|right; by right]]).
Qed.

(** The domain of a linear scale over finite numbers, case by case. *)
Lemma linear_domain_cases (l : list num) :
  Forall (λ n, num_isFinite n = true) l →
  (l = [] ∧ linear_domain l = (num_of_Z 0, num_of_Z 1))
  ∨ ∃ lo hi,
      Fin lo ∈ l ∧ Fin hi ∈ l
      ∧ (∀ x, Fin x ∈ l → (fin_R lo <= fin_R x <= fin_R hi)%R)
      ∧ ((fin_R lo = fin_R hi
          ∧ linear_domain l
            = (Fin (fin_add lo (fin_opp (fin_of_Z 1))),
               Fin (fin_add hi (fin_of_Z 1))))
         ∨ ((fin_R lo < fin_R hi)%R ∧ linear_domain l = (Fin lo, Fin hi))).
Proof.
  intros Hl. destruct (d3_extent_finite l Hl) as [[-> E]|(lo & hi & E & Hle & Hin)].
  - left. split; [done|]. unfold linear_domain. by rewrite E.
  - right. exists lo, hi.
    assert (Hat : Fin lo ∈ l ∧ Fin hi ∈ l).
    { destruct Hl as [|v l Hv Hl]; [done|].
      destruct v as [| | |x]; try done. unfold d3_extent in E. cbn [foldl] in E.
      assert (G : num_geb (Fin x) (Fin x) = true).
      { unfold num_geb. cbn. apply fin_leb_spec. lra. }
      rewrite G in E.
      apply (d3_extent_from_attained _ _ _ Hl) in E as [[->|H1] [->|H2]];
        split; first [by left|by right]. }
    destruct Hat as [H1 H2]. split; [done|]. split; [done|]. split; [done|].
    unfold linear_domain. rewrite E. cbn [fst snd num_eqb].
    destruct (fin_eqb lo hi) eqn:Q.
    + left. apply fin_eqb_spec in Q. done.
    + right. split; [|done].
      assert (fin_R lo ≠ fin_R hi).
      { intros H. apply fin_eqb_spec in H. congruence. }
      lra.
Qed.

(** The domain of a linear scale over one column of some rows, the
    column holding finite numbers of magnitude up to 2^52. *)
Lemma linear_domain_of_rows (f : row → num) (col : string) (rows : list row) :
  (∀ d, d ∈ rows → ∃ x, get d col = VNum (Fin x) ∧ f d = Fin x) →
  (∀ d x, d ∈ rows → get d col = VNum (Fin x) → within_2_52 x) →
  ∃ lo hi,
    linear_domain (f <$> rows) = (Fin lo, Fin hi)
    ∧ (fin_R lo < fin_R hi)%R
    ∧ (- 4503599627370497 <= fin_R lo)%R
    ∧ (fin_R hi <= 4503599627370497)%R
    ∧ (∀ d, d ∈ rows →
         ∃ x, get d col = VNum (Fin x)
              ∧ (fin_R lo <= fin_R x <= fin_R hi)%R)
    ∧ (rows = [] → linear_domain (f <$> rows) = (num_of_Z 0, num_of_Z 1))
    ∧ (∀ r, rows ≠ [] →
            (∀ d x, d ∈ rows → get d col = VNum (Fin x) → fin_R x = r) →
            fin_R lo = (r - 1)%R ∧ fin_R hi = (r + 1)%R)
    ∧ ((∃ d d' x x', d ∈ rows ∧ d' ∈ rows
                     ∧ get d col = VNum (Fin x) ∧ get d' col = VNum (Fin x')
                     ∧ fin_R x ≠ fin_R x') →
       (∃ d x, d ∈ rows ∧ get d col = VNum (Fin x) ∧ fin_R x = fin_R lo)
       ∧ (∃ d x, d ∈ rows ∧ get d col = VNum (Fin x) ∧ fin_R x = fin_R hi)).
Proof.
  intros Hv Hsmall.
  assert (Hfin : Forall (λ n, num_isFinite n = true) (f <$> rows)).
  { apply Forall_fmap, Forall_forall. intros d Hd.
    destruct (Hv d Hd) as (x & _ & Hx). cbn. by rewrite Hx. }
  assert (Hrow : ∀ x, Fin x ∈ f <$> rows →
                      ∃ d, d ∈ rows ∧ get d col = VNum (Fin x)).
  { intros x Hx. apply list_elem_of_fmap in Hx as (d & E & Hd).
    destruct (Hv d Hd) as (x' & Hg & Hf). exists d. split; [done|].
    rewrite Hg. rewrite Hf in E. by injection E as ->. }
  assert (Hval : ∀ d x, d ∈ rows → get d col = VNum (Fin x) → Fin x ∈ f <$> rows).
  { intros d x Hd Hx. apply list_elem_of_fmap. exists d. split; [|done].
    destruct (Hv d Hd) as (x' & Hg & Hf). rewrite Hf. rewrite Hx in Hg.
    by injection Hg as ->. }
  destruct (linear_domain_cases (f <$> rows) Hfin)
    as [[Hnil E]|(lo & hi & Hlo & Hhi & Hin & Hcase)].
  - apply fmap_nil_inv in Hnil. subst rows.
    exists (fin_of_Z 0), (fin_of_Z 1). rewrite !fin_R_of_Z.
    split; [exact E|]. split; [lra|]. split; [lra|]. split; [lra|].
    split; [intros d Hd; by apply elem_of_nil in Hd|]. split; [done|].
    split; [done|]. intros (d & _ & _ & _ & Hd & _). by apply elem_of_nil in Hd.
  - destruct (Hrow lo Hlo) as (dlo & Hdlo & Glo).
    destruct (Hrow hi Hhi) as (dhi & Hdhi & Ghi).
    pose proof (Hsmall dlo lo Hdlo Glo) as [Slo _].
    pose proof (Hsmall dhi hi Hdhi Ghi) as [_ Shi].
    assert (Hne : rows ≠ []).
    { intros ->. by apply elem_of_nil in Hdlo. }
    destruct Hcase as [[Heq E]|[Hlt E]].
    + eexists _, _. split; [exact E|].
      rewrite fin_R_sub, fin_R_add, !fin_R_of_Z.
      split; [lra|]. split; [lra|]. split; [lra|]. split.
      { intros d Hd. destruct (Hv d Hd) as (x & Hx & _). exists x.
        split; [done|]. specialize (Hin x (Hval d x Hd Hx)). lra. }
      split; [done|]. split.
      { intros r _ Hall. rewrite <- (Hall dlo lo Hdlo Glo) at 1.
        rewrite <- (Hall dhi hi Hdhi Ghi). done. }
      intros (d & d' & x & x' & Hd & Hd' & Hx & Hx' & Hdiff).
      pose proof (Hin x (Hval d x Hd Hx)).
      pose proof (Hin x' (Hval d' x' Hd' Hx')). lra.
    + exists lo, hi. split; [exact E|]. split; [exact Hlt|].
      split; [lra|]. split; [lra|]. split.
      { intros d Hd. destruct (Hv d Hd) as (x & Hx & _). exists x.
        split; [done|]. exact (Hin x (Hval d x Hd Hx)). }
      split; [done|]. split.
      { intros r _ Hall. pose proof (Hall dlo lo Hdlo Glo).
        pose proof (Hall dhi hi Hdhi Ghi). lra. }
      intros _. split; [by exists dlo, lo|by exists dhi, hi].
Qed.


Lemma forallb_strict_eq (col : string) (rows : list row) (z : Z) :
  forallb (λ d, strict_eq (get d col) (VNum (num_of_Z z))) rows = true →
  ∀ d x, d ∈ rows → get d col = VNum (Fin x) → fin_R x = IZR z.
Proof.
  intros H d x Hd Hx. rewrite forallb_forall in H.
  apply list_elem_of_In, H in Hd. rewrite Hx in Hd. cbn in Hd.
  apply fin_eqb_spec in Hd. by rewrite Hd, fin_R_of_Z.
Qed.


(** X15. The legend of the scatter view lists at most six album types,
    each once, each the album type of a drawn row (["unknown"] standing
    for a missing one), in the order the rows bring them up. *)
Theorem scatter_albumTypes_rule (data : list row) (s : selection) :
  NoDup (scatter_albumTypes data s)
  ∧ (length (scatter_albumTypes data s) ≤ 6)%nat
  ∧ (∀ t, t ∈ scatter_albumTypes data s →
          ∃ d, d ∈ scatter_filtered data s ∧ album_type_of d = t)
  ∧ scatter_albumTypes data s
    `prefix_of` JsSet.of_list (album_type_of <$> scatter_filtered data s).
Proof.
  unfold scatter_albumTypes. split; [|split; [|split]].
  - eapply sublist_NoDup; [apply JsSetFacts.NoDup_of_list|apply sublist_take].
  - rewrite length_take. lia.
  - intros t Ht. apply subseteq_take in Ht.
    rewrite JsSetFacts.elem_of_of_list in Ht.
    apply list_elem_of_fmap in Ht as (d & -> & Hd). eauto.
  - apply prefix_take.
Qed.

(** ** Tooltip placement *)

(** One coordinate of the tooltip, for finite inputs: [c] the cursor,
    [o] the container's origin, [e] its extent, [t] the tooltip's. *)
Lemma tip_coord_finite (c o e t : fin) :
  ∃ x, tip_coord (Fin c) (Fin o) (Fin e) (Fin t) = Fin x
       ∧ (12 <= fin_R x)%R
       ∧ ((fin_R t + 24 <= fin_R e)%R → (fin_R x + fin_R t + 12 <= fin_R e)%R)
       ∧ ((0 <= fin_R c - fin_R o)%R →
          (fin_R c - fin_R o + fin_R t + 24 <= fin_R e)%R →
          fin_R x = (fin_R c - fin_R o + 12)%R)
       ∧ ((fin_R e < fin_R c - fin_R o + fin_R t + 24)%R →
          (fin_R t + 24 <= fin_R c - fin_R o)%R →
          (fin_R c - fin_R o <= fin_R e)%R →
          fin_R x = (fin_R c - fin_R o - fin_R t - 12)%R).
Proof.
  unfold tip_coord, num_gtb, num_sub.
  cbn [num_add num_opp num_of_Z num_ltb Math_max Math_min].
  repeat match goal with
         | |- context [fin_ltb ?a ?b] =>
             let E := fresh "E" in
             destruct (fin_ltb a b) eqn:E;
             [apply fin_ltb_spec in E|apply fin_ltb_false in E];
             cbn [num_ltb Math_max Math_min]
         end;
    eexists; (split; [reflexivity|]);
    rewrite ?fin_R_add, ?fin_R_opp, ?fin_R_of_Z in *;
    repeat split; intros; lra.
Qed.

(** X16. The tooltip stays inside its container.  For finite pointer
    and box coordinates the position is finite; it is never nearer than
    the 12-pixel padding to the left or top edge; when the container is
    at least as wide (high) as the tooltip and two paddings, the
    tooltip's far edge stays a padding inside the right (bottom) edge;
    and when the default place at the lower right of the cursor fits,
    that place is used. *)
Theorem computeTipPos_within (clientX clientY left top width height tipW tipH : fin) :
  ∃ x y,
    computeTipPos (Fin clientX) (Fin clientY)
      {| DOMRect.left := Fin left; DOMRect.top := Fin top;
         DOMRect.width := Fin width; DOMRect.height := Fin height |}
      (Fin tipW) (Fin tipH) = (Fin x, Fin y)
    ∧ (12 <= fin_R x)%R ∧ (12 <= fin_R y)%R
    ∧ ((fin_R tipW + 24 <= fin_R width)%R →
       (fin_R x + fin_R tipW + 12 <= fin_R width)%R)
    ∧ ((fin_R tipH + 24 <= fin_R height)%R →
       (fin_R y + fin_R tipH + 12 <= fin_R height)%R)
    ∧ ((0 <= fin_R clientX - fin_R left)%R →
       (fin_R clientX - fin_R left + fin_R tipW + 24 <= fin_R width)%R →
       fin_R x = (fin_R clientX - fin_R left + 12)%R)
    ∧ ((0 <= fin_R clientY - fin_R top)%R →
       (fin_R clientY - fin_R top + fin_R tipH + 24 <= fin_R height)%R →
       fin_R y = (fin_R clientY - fin_R top + 12)%R).
Proof.
  destruct (tip_coord_finite clientX left width tipW)
    as (x & Ex & Hx1 & Hx2 & Hx3 & _).
  destruct (tip_coord_finite clientY top height tipH)
    as (y & Ey & Hy1 & Hy2 & Hy3 & _).
  exists x, y. unfold computeTipPos. cbn [DOMRect.left DOMRect.top
    DOMRect.width DOMRect.height]. rewrite Ex, Ey. done.
Qed.

Lemma computeTipPos_within_witness :
  ∃ x y,
    computeTipPos (num_of_Z 700) (num_of_Z 50)
      {| DOMRect.left := num_of_Z 100; DOMRect.top := num_of_Z 20;
         DOMRect.width := num_of_Z 640; DOMRect.height := num_of_Z 480 |}
      (num_of_Z 260) (num_of_Z 150) = (Fin x, Fin y)
    ∧ (fin_R x + 260 + 12 <= 640)%R
    ∧ fin_R y = 42%R.
Proof.
  destruct (computeTipPos_within (fin_of_Z 700) (fin_of_Z 50) (fin_of_Z 100)
              (fin_of_Z 20) (fin_of_Z 640) (fin_of_Z 480) (fin_of_Z 260)
              (fin_of_Z 150))
    as (x & y & E & _ & _ & Hx & _ & _ & Hy).
  rewrite !fin_R_of_Z in Hx, Hy.
  exists x, y. split; [exact E|]. split.
  - apply Hx. lra.
  - rewrite Hy; rewrite ?fin_R_of_Z; lra.
Defined.

(** ** Album colours *)

Lemma lower_idem c : Str.lower (Str.lower c) = Str.lower c.
Proof. by destruct c as [[] [] [] [] [] [] [] []]. Qed.

Lemma toLowerCase_idem s : Str.toLowerCase (Str.toLowerCase s) = Str.toLowerCase s.
Proof. induction s as [|c s IH]; [done|]. cbn. by rewrite lower_idem, IH. Qed.

Lemma ALBUM_TYPE_COLORS_lookup key c :
  ALBUM_TYPE_COLORS !! key = Some c →
  (key, c) ∈ [ ("album", "#4e79a7"); ("single", "#f28e2b");
               ("compilation", "#e15759"); ("unknown", "#9aa0a6") ].
Proof.
  unfold ALBUM_TYPE_COLORS. intros H.
  repeat (apply lookup_insert_Some in H as [[<- <-]|[_ H]];
          [by repeat (first [by left|right])|]).
  apply lookup_singleton_Some in H as [<- <-].
  by repeat (first [by left|right]).
Qed.

Lemma ALBUM_TYPE_COLORS_other key :
  key ∉ ["album"; "single"; "compilation"; "unknown"] →
  ALBUM_TYPE_COLORS !! key = None.
Proof.
  intros H. destruct (ALBUM_TYPE_COLORS !! key) as [c|] eqn:E; [|done].
  destruct H. apply ALBUM_TYPE_COLORS_lookup in E.
  repeat (apply elem_of_cons in E as [[= -> _]|E];
          [by repeat (first [by left|right])|]).
  by apply elem_of_nil in E.
Qed.

Lemma albumTypeColor_Some s :
  albumTypeColor (Some s)
  = match palette_at (Str.toLowerCase s) with
    | Missing => palette_at "unknown"
    | p => p
    end.
Proof. done. Qed.

(** X17. [albumTypeColor].  Unless the lower-cased album type is the
    name of something every object inherits (["constructor"],
    ["__proto__"]), the result is one of the four colours of the palette;
    letter case does not matter; a missing type and a type that is not in
    the palette get the grey of ["unknown"].  For the type
    ["Constructor"] the lookup finds the inherited [constructor], which is
    not nullish, and that is returned in place of a colour. *)
Theorem albumTypeColor_palette (t : option string) :
  (Str.toLowerCase (default "unknown" t) ∉ Object_prototype →
   ∃ c, albumTypeColor t = Own c
        ∧ c ∈ ["#4e79a7"; "#f28e2b"; "#e15759"; "#9aa0a6"])
  ∧ (∀ s, albumTypeColor (Some (Str.toLowerCase s)) = albumTypeColor (Some s))
  ∧ albumTypeColor None = Own "#9aa0a6"
  ∧ (∀ s, Str.toLowerCase s ∉ ["album"; "single"; "compilation"; "unknown"] →
          Str.toLowerCase s ∉ Object_prototype →
          albumTypeColor (Some s) = Own "#9aa0a6")
  ∧ albumTypeColor (Some "Constructor") = Inherited "constructor".
Proof.
  split; [|split; [|split; [|split]]].
  - intros Hp. unfold albumTypeColor, palette_at at 1 2.
    destruct (ALBUM_TYPE_COLORS !! Str.toLowerCase (default "unknown" t))
      as [c|] eqn:E.
    + exists c. split; [done|]. apply ALBUM_TYPE_COLORS_lookup in E.
      repeat (apply elem_of_cons in E as [[= _ ->]|E];
              [by repeat (first [by left|right])|]).
      by apply elem_of_nil in E.
    + rewrite bool_decide_eq_false_2 by done.
      exists "#9aa0a6". split; [done|]. by repeat (first [by left|right]).
  - intros s. by rewrite !albumTypeColor_Some, toLowerCase_idem.
  - done.
  - intros s H1 H2. rewrite albumTypeColor_Some. unfold palette_at at 1 2.
    rewrite ALBUM_TYPE_COLORS_other by done.
    by rewrite bool_decide_eq_false_2 by done.
  - done.
Qed.

Lemma albumTypeColor_palette_witness :
  (∃ c, albumTypeColor (Some "Single") = Own c
        ∧ c ∈ ["#4e79a7"; "#f28e2b"; "#e15759"; "#9aa0a6"])
  ∧ albumTypeColor (Some "EP") = Own "#9aa0a6".
Proof.
  split.
  - apply (proj1 (albumTypeColor_palette (Some "Single"))). compute_done.
  - apply (proj1 (proj2 (proj2 (proj2 (albumTypeColor_palette None)))) "EP");
      compute_done.
Defined.

(** ** The axes of the heatmap *)

Lemma length_hm_top data : (length (hm_top data) ≤ 10)%nat.
Proof.
  rewrite hm_top_topKGenres. unfold topKGenres.
  destruct (top_labels_rule (genre_of <$> hm_filtered data) 10) as (_ & -> & _).
  lia.
Qed.

(** X18. The genre axis of the heatmap never has more than eleven
    labels: each is one of the at most ten top genres or ["Other"]. *)
Theorem hm_genres_size (localeCompare : string → string → Z) (data : list row) :
  (length (hm_genres localeCompare data) ≤ 11)%nat
  ∧ (length (hm_top data) ≤ 10)%nat
  ∧ ∀ g, g ∈ hm_genres localeCompare data → g ∈ hm_top data ∨ g = VStr "Other".
Proof.
  assert (Hin : ∀ g, g ∈ hm_genres localeCompare data →
                     g ∈ hm_top data ∨ g = VStr "Other").
  { intros g Hg. unfold hm_genres in Hg. rewrite js_sort_elem in Hg.
    rewrite JsSetFacts.elem_of_of_list in Hg.
    apply list_elem_of_fmap in Hg as (d & -> & _).
    unfold bucket, JsSet.has. case_bool_decide; [by left|by right]. }
  split; [|split; [apply length_hm_top|exact Hin]].
  assert (Hnd : NoDup (hm_genres localeCompare data)).
  { unfold hm_genres. rewrite js_sort_Permutation. apply JsSetFacts.NoDup_of_list. }
  assert (Hsub : hm_genres localeCompare data ⊆+ hm_top data ++ [VStr "Other"]).
  { apply NoDup_submseteq; [done|]. intros g Hg. apply elem_of_app.
    destruct (Hin g Hg) as [?| ->]; [by left|right; by left]. }
  apply submseteq_length in Hsub. rewrite length_app in Hsub. cbn in Hsub.
  pose proof (length_hm_top data). lia.
Qed.

Lemma whole_inj z z' : VNum (num_of_Z z) = VNum (num_of_Z z') → z = z'.
Proof. by intros [= ->]. Qed.

Lemma whole_list (l : list value) :
  Forall whole l → ∃ zs, l = (λ z, VNum (num_of_Z z)) <$> zs.
Proof.
  induction 1 as [|v l [z ->] _ [zs ->]]; [by exists []|]. by exists (z :: zs).
Qed.

Lemma ascending_whole a b :
  (ascending (VNum (num_of_Z a)) (VNum (num_of_Z b)) <=? 0)%Z = (a - b <=? 0)%Z.
Proof.
  apply eq_iff_eq_true. rewrite !Z.leb_le. unfold ascending. cbn [Number].
  rewrite num_sgn_sub_le by done. cbn [num_leb num_of_Z].
  rewrite fin_leb_of_Z, Z.leb_le. lia.
Qed.

Lemma js_sort_fmap {A B} (f : A → B) (cmp : B → B → Z) (l : list A) :
  js_sort cmp (f <$> l) = f <$> js_sort (λ a b, cmp (f a) (f b)) l.
Proof.
  induction l as [|x l IH]; [done|]. csimpl. rewrite IH.
  generalize (js_sort (λ a b, cmp (f a) (f b)) l). intros s.
  induction s as [|y s IHs]; [done|]. csimpl.
  destruct (cmp (f x) (f y) <=? 0)%Z; [done|]. csimpl. by rewrite IHs.
Qed.

Lemma js_sort_Z_sorted (zs : list Z) :
  NoDup zs → StronglySorted Z.lt (js_sort Z.sub zs).
Proof.
  intros Hnd.
  assert (Hle : StronglySorted Z.le (js_sort Z.sub zs)).
  { eapply StronglySorted_weaken; [|apply js_sort_stable].
    - intros a b _ _ [H _]. lia.
    - intros; lia.
    - intros; lia. }
  assert (Hnd' : NoDup (js_sort Z.sub zs)) by by rewrite js_sort_Permutation.
  induction Hle as [|z l Hl IH Hz]; [constructor|].
  apply NoDup_cons in Hnd' as [Hz' Hnd']. constructor; [by apply IH|].
  apply Forall_forall. intros w Hw. rewrite Forall_forall in Hz.
  specialize (Hz w Hw). assert (z ≠ w) by (by intros ->). lia.
Qed.

(** X19. The year axis of the heatmap.  When the release years of the
    data are whole numbers (or missing), the axis lists, in strictly
    ascending order and so each once, exactly the years of the rows that
    have both a year and a genre. *)
Theorem hm_years_rule (data : list row) :
  (∀ d, d ∈ data →
        nullish (get d "release_year") = true ∨ whole (get d "release_year")) →
  ∃ zs, hm_years data = (λ z, VNum (num_of_Z z)) <$> zs
        ∧ StronglySorted Z.lt zs
        ∧ ∀ z, z ∈ zs ↔ ∃ d, d ∈ hm_filtered data
                             ∧ get d "release_year" = VNum (num_of_Z z).
Proof.
  intros Hwhole. unfold hm_years.
  set (seen := JsSet.of_list ((λ d, get d "release_year") <$> hm_filtered data)).
  assert (HS : Forall whole seen).
  { apply Forall_forall. intros y Hy. unfold seen in Hy.
    rewrite JsSetFacts.elem_of_of_list in Hy.
    apply list_elem_of_fmap in Hy as (d & -> & Hd).
    apply elem_of_filter_bool in Hd as [Hd Hv].
    destruct (Hwhole d Hd) as [Hn|Hw]; [|done].
    unfold hm_valid in Hv. by rewrite Hn in Hv. }
  destruct (whole_list seen HS) as [zs Hzs].
  assert (Hnd : NoDup zs).
  { apply (NoDup_fmap_1 (λ z, VNum (num_of_Z z))). rewrite <- Hzs.
    apply JsSetFacts.NoDup_of_list. }
  exists (js_sort Z.sub zs). split; [|split].
  - rewrite Hzs, js_sort_fmap. f_equal. apply js_sort_ext.
    intros a b. apply ascending_whole.
  - by apply js_sort_Z_sorted.
  - intros z. rewrite js_sort_elem.
    assert (E : z ∈ zs ↔ VNum (num_of_Z z) ∈ seen).
    { rewrite Hzs. split.
      - intros Hz. apply list_elem_of_fmap. eauto.
      - intros (z' & E & Hz')%list_elem_of_fmap.
        apply whole_inj in E. by subst. }
    rewrite E. unfold seen. rewrite JsSetFacts.elem_of_of_list.
    rewrite list_elem_of_fmap. split; intros (d & ? & ?); eauto.
Qed.

Lemma hm_years_rule_witness :
  ∃ zs, hm_years [cell_row "pop" 2001; cell_row "rock" 1999; cell_row "pop" 2001]
        = (λ z, VNum (num_of_Z z)) <$> zs
        ∧ StronglySorted Z.lt zs.
Proof.
  destruct (hm_years_rule
              [cell_row "pop" 2001; cell_row "rock" 1999; cell_row "pop" 2001])
    as (zs & E & Hs & _).
  - intros d Hd. right.
    repeat (apply elem_of_cons in Hd as [->|Hd]);
      [by eexists..|by apply elem_of_nil in Hd].
  - exists zs. split; [exact E|exact Hs].
Defined.

(** ** The year ticks *)

Lemma yearStep_bounds n :
  (1 ≤ yearStep n)%nat
  ∧ ((n ≤ 12)%nat → yearStep n = 1%nat)
  ∧ ((12 < n)%nat → (n ≤ 10 * yearStep n)%nat).
Proof.
  unfold yearStep. destruct (Nat.ltb_spec 12 n) as [H|H].
  - assert (E : Qceiling (inject_Z (Z.of_nat n) / 10)
                = (- (- Z.of_nat n / 10))%Z).
    { unfold Qceiling, Qfloor. cbn. by rewrite Z.mul_1_r. }
    rewrite E.
    pose proof (Z.div_mod (- Z.of_nat n) 10 ltac:(done)) as Hd.
    pose proof (Z.mod_pos_bound (- Z.of_nat n) 10 ltac:(done)) as Hm.
    repeat split; lia.
  - repeat split; lia.
Qed.

Lemma filter_index_snoc {A} p i (l : list A) x :
  filter_index p i (l ++ [x])
  = filter_index p i l ++ (if p (i + length l)%nat then [x] else []).
Proof.
  revert i. induction l as [|y l IH]; intros i; csimpl.
  - rewrite Nat.add_0_r. by destruct (p i).
  - rewrite IH, Nat.add_succ_comm. by destruct (p i).
Qed.

Lemma filter_index_sublist {A} p i (l : list A) :
  filter_index p i l `sublist_of` l.
Proof.
  revert i. induction l as [|y l IH]; intros i; [done|]. cbn.
  destruct (p i); [by apply sublist_skip|by apply sublist_cons].
Qed.

Lemma filter_index_all {A} p i (l : list A) :
  (∀ j, p j = true) → filter_index p i l = l.
Proof.
  intros Hp. revert i. induction l as [|y l IH]; intros i; [done|].
  cbn. by rewrite Hp, IH.
Qed.

(** Every [s]-th element of [n]: the ceiling of [n / s] elements. *)
Lemma length_filter_index_mod {A} s (l : list A) :
  (1 ≤ s)%nat →
  length (filter_index (λ i, (i mod s =? 0)%nat) 0 l)
  = ((length l + s - 1) / s)%nat.
Proof.
  intros Hs. induction l as [|x l IH] using rev_ind.
  - cbn. symmetry. apply Nat.div_small. lia.
  - rewrite filter_index_snoc, !length_app, IH. cbn [length Nat.add].
    set (n := length l).
    pose proof (Nat.div_mod_eq n s) as Hn.
    pose proof (Nat.mod_upper_bound n s ltac:(lia)) as Hr.
    destruct (Nat.eqb_spec (n mod s) 0) as [E|E]; cbn [length].
    + rewrite E in Hn.
      rewrite <- (Nat.div_unique (n + s - 1) s (n / s) (s - 1)) by lia.
      rewrite <- (Nat.div_unique (n + 1 + s - 1) s (n / s + 1) 0) by lia.
      lia.
    + rewrite <- (Nat.div_unique (n + s - 1) s (n / s + 1) (n mod s - 1)) by lia.
      rewrite <- (Nat.div_unique (n + 1 + s - 1) s (n / s + 1) (n mod s)) by lia.
      lia.
Qed.

(** X20. The year labels under the heatmap.  Up to twelve years are
    all labelled; beyond that every [ceil(n / 10)]-th year is, which
    leaves at most ten labels.  The labels are a sub-sequence of the
    years, and the first year is always labelled. *)
Theorem yearTicks_rule {A} (years : list A) :
  (length (yearTicks years) ≤ 12)%nat
  ∧ yearTicks years `sublist_of` years
  ∧ head (yearTicks years) = head years
  ∧ ((length years ≤ 12)%nat → yearTicks years = years)
  ∧ ((12 < length years)%nat → (length (yearTicks years) ≤ 10)%nat).
Proof.
  destruct (yearStep_bounds (length years)) as (H1 & H2 & H3).
  assert (Hsmall : (length years ≤ 12)%nat → yearTicks years = years).
  { intros H. unfold yearTicks. rewrite (H2 H). apply filter_index_all.
    intros j. by rewrite Nat.mod_1_r. }
  assert (Hbig : (12 < length years)%nat → (length (yearTicks years) ≤ 10)%nat).
  { intros H. unfold yearTicks. rewrite length_filter_index_mod by done.
    specialize (H3 H). apply Nat.lt_succ_r.
    apply Nat.Div0.div_lt_upper_bound. lia. }
  split; [|split; [|split; [|split]]]; try done.
  - destruct (Nat.le_gt_cases (length years) 12) as [H|H].
    + by rewrite Hsmall.
    + specialize (Hbig H). lia.
  - apply filter_index_sublist.
  - unfold yearTicks. destruct years as [|y rest]; [done|].
    cbn [filter_index]. by rewrite Nat.Div0.mod_0_l.
Qed.

Lemma yearTicks_rule_witness :
  (length (yearTicks (seq 1990 30)) ≤ 10)%nat
  ∧ yearTicks (seq 2010 12) = seq 2010 12.
Proof.
  split.
  - apply (yearTicks_rule (seq 1990 30)). vm_compute. lia.
  - apply (yearTicks_rule (seq 2010 12)). vm_compute. lia.
Defined.

(** ** The matrix of the heatmap *)

Lemma sum_values_incr {K} `{EqDecision K} (k : K) (m : list (K * nat)) :
  sum_list (JsMap.values (JsMap.set k (default 0 (JsMap.get k m) + 1) m))
  = (sum_list (JsMap.values m) + 1)%nat.
Proof.
  unfold JsMap.values. induction m as [|[k' c] m IH]; [done|].
  csimpl. destruct (decide (k' = k)) as [->|Hne]; csimpl; [lia|].
  rewrite IH. lia.
Qed.

Lemma sum_count_pass (labels : list value) :
  sum_list (JsMap.values (count_pass labels)) = length labels.
Proof.
  unfold count_pass. induction labels as [|g labels IH] using rev_ind; [done|].
  rewrite foldl_app, length_app. cbn [foldl length].
  by rewrite sum_values_incr, IH.
Qed.

Lemma count_pass_positive (labels : list value) c :
  c ∈ JsMap.values (count_pass labels) → (1 ≤ c)%nat.
Proof.
  unfold JsMap.values. rewrite count_pass_tally.
  intros ([g c'] & -> & [Hg ->]%elem_of_tally)%list_elem_of_fmap.
  cbn. apply occurrences_pos in Hg. lia.
Qed.

Lemma get_count_pass (labels : list value) g :
  default 0%nat (JsMap.get g (count_pass labels)) = occurrences g labels.
Proof.
  rewrite count_pass_tally. unfold tally. rewrite get_graph.
  destruct (decide (g ∈ JsSet.of_list labels)) as [Hin|Hin]; [done|].
  rewrite JsSetFacts.elem_of_of_list in Hin. cbn.
  destruct (occurrences g labels) eqn:E; [done|].
  destruct Hin. apply occurrences_pos. lia.
Qed.

Lemma foldl_max_spec c (l : list nat) :
  (c ≤ foldl Nat.max c l)%nat
  ∧ Forall (λ x, (x ≤ foldl Nat.max c l)%nat) l.
Proof.
  revert c. induction l as [|x l IH]; intros c; [by split|].
  cbn [foldl]. destruct (IH (c `max` x)) as [H1 H2].
  split; [lia|]. constructor; [lia|done].
Qed.

Lemma d3_max_spec (l : list nat) m :
  d3_max l = Some m → Forall (λ x, (x ≤ m)%nat) l.
Proof.
  destruct l as [|c l]; [done|]. intros [= <-].
  destruct (foldl_max_spec c l) as [H1 H2]. by constructor.
Qed.

Lemma hm_matrix_positive nts data c :
  c ∈ JsMap.values (hm_matrix nts data) → (1 ≤ c)%nat.
Proof. apply count_pass_positive. Qed.

(** X21. Every counted row is in exactly one cell: the counts of the
    matrix add up to the number of rows that have a year and a genre,
    and no stored count is 0. *)
Theorem hm_matrix_total (nts : num → string) (data : list row) :
  sum_list (JsMap.values (hm_matrix nts data)) = length (hm_filtered data)
  ∧ ∀ c, c ∈ JsMap.values (hm_matrix nts data) → (1 ≤ c)%nat.
Proof.
  unfold hm_matrix. split.
  - by rewrite sum_count_pass, length_fmap.
  - apply count_pass_positive.
Qed.

(** X22. The colour scale covers every cell: [maxVal] is at least 1, it
    is 1 when no row has both a year and a genre, and no cell is drawn
    with a count above it, whichever genre and year the cell is asked
    for. *)
Theorem hm_maxVal_rule (nts : num → string) (data : list row) :
  (1 ≤ hm_maxVal nts data)%nat
  ∧ (∀ g y, (hm_cell nts data g y ≤ hm_maxVal nts data)%nat)
  ∧ (hm_filtered data = [] → hm_maxVal nts data = 1%nat).
Proof.
  unfold hm_maxVal, hm_cell.
  destruct (d3_max (JsMap.values (hm_matrix nts data))) as [m|] eqn:E.
  - pose proof (d3_max_spec _ _ E) as Hm. rewrite Forall_forall in Hm.
    cbn [from_option]. unfold Datatypes.id. split; [|split].
    + destruct (JsMap.values (hm_matrix nts data)) as [|c l] eqn:El; [done|].
      assert (Hc : c ∈ JsMap.values (hm_matrix nts data)) by (rewrite El; left).
      pose proof (hm_matrix_positive nts data c Hc).
      specialize (Hm c ltac:(left)). lia.
    + intros g y. destruct (JsMap.get _ _) as [c|] eqn:Ec; cbn; [|lia].
      apply Hm. by apply JsMapFacts.get_Some_values in Ec.
    + intros Hf. unfold hm_matrix in E. by rewrite Hf in E.
  - cbn [from_option]. unfold Datatypes.id. split; [done|]. split; [|done].
    intros g y. destruct (JsMap.values (hm_matrix nts data)) as [|c l] eqn:El;
      [|done].
    destruct (JsMap.get _ _) as [c|] eqn:Ec; cbn; [|lia].
    apply JsMapFacts.get_Some_values in Ec. rewrite El in Ec.
    by apply elem_of_nil in Ec.
Qed.

Lemma hm_maxVal_rule_witness : hm_maxVal no_digits [] = 1%nat.
Proof. exact (proj2 (proj2 (hm_maxVal_rule no_digits [])) eq_refl). Defined.

(** ** The cells of the heatmap *)

(** A key names one genre and one printed year: the bar that separates
    them is the last bar of the key when the printed year has none. *)
Lemma hm_key_parts (g1 g2 y1 y2 : string) :
  has_char "|" y1 = false → has_char "|" y2 = false →
  (g1 ++ "|" ++ y1 = g2 ++ "|" ++ y2)%string → g1 = g2 ∧ y1 = y2.
Proof.
  intros H1 H2. revert g2. induction g1 as [|c g1 IH]; intros [|c' g2].
  - change (String "|" y1 = String "|" y2 → "" = "" ∧ y1 = y2).
    by intros [= ->].
  - change (String "|" y1 = String c' (g2 ++ String "|" y2)
            → "" = String c' g2 ∧ y1 = y2).
    intros [= <- ->]. rewrite CharFacts.has_char_app in H1.
    apply orb_false_iff in H1 as [_ H1]. done.
  - change (String c (g1 ++ String "|" y1) = String "|" y2
            → String c g1 = "" ∧ y1 = y2).
    intros [= -> <-]. rewrite CharFacts.has_char_app in H2.
    apply orb_false_iff in H2 as [_ H2]. done.
  - change (String c (g1 ++ "|" ++ y1) = String c' (g2 ++ "|" ++ y2)
            → String c g1 = String c' g2 ∧ y1 = y2)%string.
    intros [= -> E]. destruct (IH _ E) as [-> ->]. done.
Qed.

Lemma length_filter_fmap {A B} (f : A → B) (p : B → bool) (l : list A) :
  length (List.filter p (f <$> l)) = length (List.filter (λ x, p (f x)) l).
Proof.
  induction l as [|x l IH]; [done|]. csimpl. destruct (p (f x)); csimpl; lia.
Qed.

Lemma hm_filtered_valid data d :
  d ∈ hm_filtered data →
  d ∈ data ∧ nullish (get d "release_year") = false
  ∧ nullish (get d "genre_top") = false.
Proof.
  intros [Hd Hv]%elem_of_filter_bool. split; [done|].
  unfold hm_valid in Hv. apply andb_true_iff in Hv as [H1 H2].
  by apply negb_true_iff in H1, H2.
Qed.

Section CellFacts.

Variable Number_toString : num → string.

(** What the cell keys need of [String(n)]: distinct whole numbers print
    differently, and no whole number prints with a bar. *)
Hypothesis toString_inj :
  ∀ z z', Number_toString (num_of_Z z) = Number_toString (num_of_Z z') → z = z'.
Hypothesis toString_no_bar :
  ∀ z, has_char "|" (Number_toString (num_of_Z z)) = false.

(** X23. The count a cell is drawn with.  For data whose genres are
    text and whose release years are whole numbers (or missing), the cell
    of genre label [g] and year [z] shows the number of rows that have a
    year and a genre, fall in the bucket [g] and were released in [z]: no
    two cells share a key, although a genre name may hold a bar. *)
Theorem hm_cell_count (data : list row) (g : string) (z : Z) :
  (∀ d, d ∈ data →
        genre_text d
        ∧ (nullish (get d "release_year") = true ∨ whole (get d "release_year"))) →
  hm_cell Number_toString data (VStr g) (VNum (num_of_Z z))
  = length
      (List.filter
         (λ d, bool_decide (bucket (hm_top data) (get d "genre_top") = VStr g
                            ∧ get d "release_year" = VNum (num_of_Z z)))
         (hm_filtered data)).
Proof.
  intros Hdata. unfold hm_cell, hm_matrix.
  rewrite get_count_pass. unfold occurrences. rewrite length_filter_fmap.
  f_equal. apply List.filter_ext_in. intros d Hd.
  apply list_elem_of_In, hm_filtered_valid in Hd as (Hd & Hy & Hg).
  destruct (Hdata d Hd) as [[Hn|[t Ht]] [Hn'|[zy Hzy]]]; try congruence.
  assert (Hb : ∃ b, bucket (hm_top data) (get d "genre_top") = VStr b).
  { unfold bucket. rewrite Ht. destruct (JsSet.has _ _); by eexists. }
  destruct Hb as [b Hb]. rewrite Hb, Hzy.
  apply bool_decide_ext. unfold hm_key. cbn [String_of]. split.
  - intros [= E]. apply hm_key_parts in E as [-> E]; [|done..].
    by rewrite (toString_inj _ _ E).
  - by intros [[= ->] [= ->]%whole_inj].
Qed.

End CellFacts.

Lemma pretty_N_go_no_bar x s :
  has_char "|" s = false → has_char "|" (pretty_N_go x s) = false.
Proof.
  revert s. induction (N.lt_wf_0 x) as [x _ IH]; intros s Hs.
  assert (x = 0 ∨ 0 < x)%N as [->|?] by lia.
  - by rewrite pretty_N_go_0.
  - rewrite pretty_N_go_step by done. apply IH.
    { by apply N.div_lt. }
    cbn [has_char]. rewrite Hs. unfold pretty_N_char.
    by repeat case_match.
Qed.

Lemma pretty_Z_no_bar (z : Z) : has_char "|" (pretty z) = false.
Proof.
  assert (H : ∀ p : positive, has_char "|" (pretty p) = false).
  { intros p. unfold pretty, pretty_positive, pretty, pretty_N.
    case_decide; [done|]. by apply pretty_N_go_no_bar. }
  destruct z as [|p|p]; [done|apply H|].
  unfold pretty, pretty_Z. rewrite AnchorFacts.app_cons, AnchorFacts.app_nil_l.
  cbn [has_char]. by rewrite H.
Qed.

Lemma decimal_whole z : decimal (num_of_Z z) = pretty z.
Proof. done. Qed.

Lemma hm_cell_count_witness :
  hm_cell decimal
    [cell_row "pop" 2001; cell_row "rock|2001" 1999; cell_row "pop" 2001]
    (VStr "pop") (VNum (num_of_Z 2001)) = 2%nat.
Proof.
  rewrite (hm_cell_count decimal).
  - vm_compute. reflexivity.
  - intros z z'. rewrite !decimal_whole. apply (inj pretty).
  - intros z. rewrite decimal_whole. apply pretty_Z_no_bar.
  - intros d Hd.
    repeat (apply elem_of_cons in Hd as [->|Hd]);
      [..|by apply elem_of_nil in Hd];
      (split; [right; by eexists|right; by eexists]).
Defined.

(** ** Loaded rows in the two focus views *)

Lemma typed_get_counted cy d k :
  typed cy d → k ∈ counted_columns → ∃ x, get d k = VNum (Fin x).
Proof.
  intros Ht Hk. destruct (typed_counted _ _ Ht k Hk) as [x Hx].
  exists x. by apply get_lookup.
Qed.

Lemma typed_scatter_valid cy d :
  typed cy d →
  scatter_valid d = true
  ↔ ∃ x, get d "artist_followers" = VNum (Fin x) ∧ (-1 < fin_R x)%R.
Proof.
  intros Ht.
  destruct (typed_get_counted cy d "artist_followers" Ht ltac:(compute_done))
    as [x Hx].
  destruct (typed_get_counted cy d "track_popularity" Ht ltac:(compute_done))
    as [p Hp].
  destruct (typed_followers_log _ _ Ht) as (f & Hf & Hl).
  apply get_lookup in Hf, Hl. rewrite Hx in Hf. injection Hf as <-.
  rewrite scatter_valid_finite, Hl, Hp, Hx. cbn [num_add num_of_Z Math_log10].
  destruct (fin_ltb (fin_of_Z 0) (fin_add x (fin_of_Z 1))) eqn:E.
  - apply fin_ltb_spec in E. rewrite fin_R_add, !fin_R_of_Z in E.
    split; [|by eauto]. intros _. exists x. split; [done|lra].
  - apply fin_ltb_false in E. rewrite fin_R_add, !fin_R_of_Z in E.
    split.
    + intros (y & q & Hy & _). by destruct (fin_eqb _ _).
    + intros (y & [= ->] & Hy). lra.
Qed.

Lemma typed_pc_valid cy d :
  typed cy d →
  pc_valid d = true ↔ ∃ m, get d "duration_min" = VNum (Fin m).
Proof.
  intros Ht. destruct (typed_followers_log _ _ Ht) as (f & _ & Hl).
  apply get_lookup in Hl. unfold pc_valid. rewrite Hl. cbn [nullish negb andb].
  destruct (typed_durations _ _ Ht "duration_min" ltac:(compute_done))
    as [E|[m E]]; apply get_lookup in E; rewrite E; cbn.
  - split; [done|]. by intros [m [=]].
  - split; [by eauto|done].
Qed.

(** X24. Which loaded rows the two focus views accept.  Whatever the
    CSV files hold, a row of the loaded dataset passes the scatter view's
    finiteness checks exactly when its [artist_followers] is above -1
    (so every row with a follower count of 0 or more is drawn), and it
    passes the parallel-coordinates view's presence checks exactly when
    it has a [duration_min], that is when one of its two duration cells
    converted to a finite number. *)
Theorem loaded_row_validity (cy : Z) (nts : num → string) (a b : list row) (d : row) :
  d ∈ load cy nts a b →
  (scatter_valid d = true
   ↔ ∃ x, get d "artist_followers" = VNum (Fin x) ∧ (-1 < fin_R x)%R)
  ∧ (pc_valid d = true ↔ ∃ m, get d "duration_min" = VNum (Fin m)).
Proof.
  intros Hd.
  pose proof (load_rows_typed _ _ _ _ _ Hd) as Ht.
  split; [by apply (typed_scatter_valid cy)|by apply (typed_pc_valid cy)].
Qed.

Lemma loaded_row_validity_witness :
  ∃ d, d ∈ load 2026 no_digits [csv_A_t1] [csv_B_t1]
       ∧ scatter_valid d = true ∧ pc_valid d = false.
Proof.
  exists (preprocessTrack 2026 no_digits csv_A_t1
          ∪ preprocessTrack 2026 no_digits csv_B_t1).
  assert (H : preprocessTrack 2026 no_digits csv_A_t1
              ∪ preprocessTrack 2026 no_digits csv_B_t1
              ∈ load 2026 no_digits [csv_A_t1] [csv_B_t1]).
  { apply list_elem_of_singleton. reflexivity. }
  destruct (loaded_row_validity _ _ _ _ _ H) as [Hs Hp].
  split; [exact H|]. split.
  - apply Hs. exists (fin_of_Z 999). split; [vm_compute; reflexivity|].
    rewrite fin_R_of_Z. lra.
  - apply not_true_iff_false. rewrite Hp. intros [m Hm].
    vm_compute in Hm. discriminate.
Defined.


Lemma forallb_small_value (dim : string) (rows : list row) :
  forallb (λ d, small_value (get d dim)) rows = true →
  ∀ d x, d ∈ rows → get d dim = VNum (Fin x) → within_2_52 x.
Proof.
  intros H d x Hd Hx. rewrite forallb_forall in H.
  apply (small_value_within (get d dim)); [|done].
  apply H. by apply list_elem_of_In.
Qed.


(** ** Clicking a cell again and again *)

(** X26. Clicking one heatmap cell repeatedly alternates between
    selecting it and clearing the selection, from whatever state the
    dashboard is in: the third click leaves the state of the first, the
    second click undoes or redoes it, and the state is never a mix of
    the clicked pair and an older one. *)
Theorem onSelect_alternates (s : selection) (y : num) (g : string) :
  y ≠ NaN →
  let s1 := onSelect s (Some y) (Some g) in
  let s2 := onSelect s1 (Some y) (Some g) in
  let s3 := onSelect s2 (Some y) (Some g) in
  s3 = s1 ∧ s2 ≠ s1
  ∧ (s1 = no_selection ∧ s2 = Selection (Some y) (Some g)
     ∨ s1 = Selection (Some y) (Some g) ∧ s2 = no_selection).
Proof.
  intros Hy. cbv zeta.
  assert (Hsame : same (Selection (Some y) (Some g)) (Some y) (Some g) = true).
  { unfold same. cbn. rewrite num_eqb_refl by done. by rewrite String.eqb_refl. }
  assert (Hnone : same no_selection (Some y) (Some g) = false) by done.
  assert (H1 : onSelect (Selection (Some y) (Some g)) (Some y) (Some g)
               = no_selection).
  { unfold onSelect. by rewrite Hsame. }
  assert (H0 : onSelect no_selection (Some y) (Some g)
               = Selection (Some y) (Some g)).
  { unfold onSelect. by rewrite Hnone. }
  assert (Hs : onSelect s (Some y) (Some g) = no_selection
               ∨ onSelect s (Some y) (Some g) = Selection (Some y) (Some g)).
  { unfold onSelect. destruct (same s _ _); [by left|by right]. }
  destruct Hs as [E|E]; rewrite E, ?H0, ?H1, ?H0; split; try done;
    split; try done; [by left|by right].
Qed.

Lemma onSelect_alternates_witness :
  onSelect
    (onSelect
       (onSelect (Selection (Some (num_of_Z 1999)) (Some "rock"))
          (Some (num_of_Z 2001)) (Some "pop"))
       (Some (num_of_Z 2001)) (Some "pop"))
    (Some (num_of_Z 2001)) (Some "pop")
  = onSelect (Selection (Some (num_of_Z 1999)) (Some "rock"))
      (Some (num_of_Z 2001)) (Some "pop").
Proof.
  assert (H : num_of_Z 2001 ≠ NaN) by discriminate.
  exact (proj1 (onSelect_alternates (Selection (Some (num_of_Z 1999)) (Some "rock"))
                  (num_of_Z 2001) "pop" H)).
Defined.

(** ** The grid of the heatmap *)

(** X27. No counted row falls off the grid: the bucket of every row
    that has a year and a genre is a label of the genre axis, its release
    year is a year of the year axis, and the cell drawn for that pair
    counts at least that row. *)
Theorem hm_grid_complete
    (localeCompare : string → string → Z) (nts : num → string)
    (data : list row) (d : row) :
  d ∈ hm_filtered data →
  bucket (hm_top data) (get d "genre_top") ∈ hm_genres localeCompare data
  ∧ get d "release_year" ∈ hm_years data
  ∧ (1 ≤ hm_cell nts data (bucket (hm_top data) (get d "genre_top"))
           (get d "release_year"))%nat.
Proof.
  intros Hd. split; [|split].
  - unfold hm_genres. rewrite js_sort_elem, JsSetFacts.elem_of_of_list.
    apply list_elem_of_fmap. eauto.
  - unfold hm_years. rewrite js_sort_elem, JsSetFacts.elem_of_of_list.
    apply list_elem_of_fmap. eauto.
  - unfold hm_cell, hm_matrix. rewrite get_count_pass.
    apply Nat.le_succ_l, occurrences_pos, list_elem_of_fmap. eauto.
Qed.

Lemma hm_grid_complete_witness :
  VNum (num_of_Z 1999)
  ∈ hm_years [cell_row "pop" 2001; cell_row "rock" 1999; cell_row "pop" 2001].
Proof.
  assert (H : cell_row "rock" 1999
              ∈ hm_filtered [cell_row "pop" 2001; cell_row "rock" 1999;
                             cell_row "pop" 2001]).
  { apply elem_of_filter_bool. split; [|reflexivity]. right. left. }
  exact (proj1 (proj2 (hm_grid_complete code_unit_compare decimal _ _ H))).
Defined.

(** ** Ties in the sample *)

Lemma before_take {A} n (l : list A) a b : before (take n l) a b → before l a b.
Proof.
  intros (l1 & l2 & l3 & E). exists l1, l2, (l3 ++ drop n l).
  rewrite <- (take_drop n l) at 1. rewrite E.
  by rewrite <- !app_assoc, <- !app_comm_cons, <- !app_assoc.
Qed.

(** X28. Ties keep their order.  When the popularities are numbers,
    two rows of the sample of the parallel-coordinates view of which the
    first is not more popular than the second (so they are equally
    popular, the sample being in descending order) stand in the order in
    which the filtered rows, and so the dataset, had them. *)
Theorem sample_ties_keep_order (data : list row) (s : selection) (a b : row) :
  (∀ d, d ∈ data → popularity d ≠ NaN) →
  before (sample data s) a b →
  num_leb (popularity a) (popularity b) = true →
  before (pc_filtered data s) a b
  ∧ num_leb (popularity b) (popularity a) = true.
Proof.
  intros Hpop Hb Hle. unfold sample in Hb. apply before_take in Hb.
  assert (Hl : ∀ d, d ∈ pc_filtered data s → popularity d ≠ NaN).
  { intros d Hd. apply elem_of_pc_filtered in Hd as [Hd _]. by apply Hpop. }
  assert (Hs : StronglySorted
                 (λ x y, (by_popularity_desc x y <= 0)%Z
                         ∧ ((by_popularity_desc y x <= 0)%Z
                            → before (pc_filtered data s) x y))
                 (js_sort by_popularity_desc (pc_filtered data s))).
  { apply js_sort_stable.
    - intros x y (l1 & l2 & l3 & E) H.
      assert (Hx : x ∈ pc_filtered data s).
      { rewrite E. apply elem_of_app. right. apply list_elem_of_here. }
      assert (Hy : y ∈ pc_filtered data s).
      { rewrite E. apply elem_of_app. right.
        apply list_elem_of_further, elem_of_app. right. apply list_elem_of_here. }
      apply by_popularity_desc_le; auto.
      destruct (num_leb_total (popularity x) (popularity y)) as [L|L]; auto.
      exfalso. apply by_popularity_desc_le in L; auto. lia.
    - intros x y w Hx Hy Hw. rewrite !by_popularity_desc_le by auto.
      intros H1 H2. by apply (num_leb_trans _ (popularity y)). }
  destruct (StronglySorted_before _ _ _ _ Hs Hb) as [H1 H2].
  assert (Ha : a ∈ pc_filtered data s).
  { destruct Hb as (l1 & l2 & l3 & E).
    apply (js_sort_elem by_popularity_desc). rewrite E.
    apply elem_of_app. right. apply list_elem_of_here. }
  assert (Hb' : b ∈ pc_filtered data s).
  { destruct Hb as (l1 & l2 & l3 & E).
    apply (js_sort_elem by_popularity_desc). rewrite E.
    apply elem_of_app. right. apply list_elem_of_further, elem_of_app.
    right. apply list_elem_of_here. }
  split.
  - apply H2. apply by_popularity_desc_le; auto.
  - apply by_popularity_desc_le in H1; auto.
Qed.

Lemma sample_ties_keep_order_witness :
  before (pc_filtered [sampled "x" 50; sampled "y" 50] no_selection)
    (sampled "x" 50) (sampled "y" 50).
Proof.
  assert (H1 : ∀ d, d ∈ [sampled "x" 50; sampled "y" 50] → popularity d ≠ NaN).
  { intros d Hd.
    repeat (apply elem_of_cons in Hd as [->|Hd]);
      [discriminate..|by apply elem_of_nil in Hd]. }
  assert (H2 : before (sample [sampled "x" 50; sampled "y" 50] no_selection)
                 (sampled "x" 50) (sampled "y" 50)).
  { exists [], [], []. reflexivity. }
  assert (H3 : num_leb (popularity (sampled "x" 50)) (popularity (sampled "y" 50))
               = true) by reflexivity.
  exact (proj1 (sample_ties_keep_order _ _ _ _ H1 H2 H3)).
Defined.

(** ** When the three views agree *)

Lemma distinct_subset {A} (f : A → value) (l' l : list A) :
  (∀ x, x ∈ l' → x ∈ l) →
  (length (JsSet.of_list (f <$> l')) ≤ length (JsSet.of_list (f <$> l)))%nat.
Proof.
  intros Hsub. apply submseteq_length, NoDup_submseteq.
  - apply JsSetFacts.NoDup_of_list.
  - intros v. rewrite !JsSetFacts.elem_of_of_list, !list_elem_of_fmap.
    intros (x & -> & Hx). eauto.
Qed.

(** X29. With at most ten distinct genres in the dataset the three
    views bucket alike, for no view buckets at all: after a click on the
    cell of year [y] and genre [g] the scatter view (before its cap of
    2500) and the parallel-coordinates view (before sorting and its cap
    of 200) hold exactly the rows of the dataset that pass the view's own
    validity check, were released in [y] and have genre [g]; and the
    heatmap counts every row under its own genre. *)
Theorem focus_views_exact (data : list row) (y : num) (g : string) :
  (length (JsSet.of_list (genre_of <$> data)) ≤ 10)%nat →
  (∀ d, d ∈ filter_genre (Some g) (scatter_rows data (Some y))
        ↔ d ∈ data ∧ scatter_valid d = true
          ∧ strict_eq (get d "release_year") (VNum y) = true
          ∧ genre_of d = VStr g)
  ∧ (∀ d, d ∈ pc_filtered data (Selection (Some y) (Some g))
          ↔ d ∈ data ∧ pc_valid d = true
            ∧ strict_eq (get d "release_year") (VNum y) = true
            ∧ genre_of d = VStr g)
  ∧ (∀ d, d ∈ hm_filtered data →
          bucket (hm_top data) (get d "genre_top") = get d "genre_top").
Proof.
  intros Hk. split; [|split].
  - intros d. rewrite elem_of_filter_genre_few.
    + unfold scatter_rows. rewrite elem_of_filter_year, elem_of_filter_bool.
      split.
      * intros [[[Hd Hv] Hy] Hg]. repeat split; auto.
      * intros (Hd & Hv & Hy & Hg). repeat split; auto. by intros ? [= <-].
    + etrans; [|exact Hk]. apply distinct_subset. intros x Hx.
      unfold scatter_rows in Hx. apply elem_of_filter_year in Hx as [Hx _].
      by apply elem_of_filter_bool in Hx as [Hx _].
  - intros d. unfold pc_filtered. cbn [selectedYear selectedGenre].
    rewrite elem_of_filter_genre_few.
    + unfold pc_rows. rewrite elem_of_filter_year, elem_of_filter_bool.
      split.
      * intros [[[Hd Hv] Hy] Hg]. repeat split; auto.
      * intros (Hd & Hv & Hy & Hg). repeat split; auto. by intros ? [= <-].
    + etrans; [|exact Hk]. apply distinct_subset. intros x Hx.
      unfold pc_rows in Hx. apply elem_of_filter_year in Hx as [Hx _].
      by apply elem_of_filter_bool in Hx as [Hx _].
  - intros d Hd. pose proof (hm_filtered_valid _ _ Hd) as (Hd' & _ & Hg).
    assert (E : genre_of d = get d "genre_top").
    { unfold genre_of, coalesce. by rewrite Hg. }
    rewrite <- E, hm_top_topKGenres. unfold bucket, JsSet.has.
    rewrite bool_decide_eq_true_2; [done|].
    apply top_labels_all.
    + etrans; [|exact Hk]. apply distinct_subset. intros x Hx.
      by apply hm_filtered_valid in Hx as [Hx _].
    + apply list_elem_of_fmap. eauto.
Qed.

Lemma focus_views_exact_witness :
  track "a" "rock" 2000 3 50
  ∈ pc_filtered four_tracks (Selection (Some (num_of_Z 2000)) (Some "rock"))
  ∧ (track "b" "pop" 2000 4 60
     ∉ pc_filtered four_tracks (Selection (Some (num_of_Z 2000)) (Some "rock")))
  ∧ (track "c" "rock" 2001 5 70
     ∉ pc_filtered four_tracks (Selection (Some (num_of_Z 2000)) (Some "rock")))
  ∧ track "d" "rock" 2000 3 20
    ∈ filter_genre (Some "rock") (scatter_rows four_tracks (Some (num_of_Z 2000)))
  ∧ (track "b" "pop" 2000 4 60
     ∉ filter_genre (Some "rock") (scatter_rows four_tracks (Some (num_of_Z 2000))))
  ∧ bucket (hm_top four_tracks) (get (track "b" "pop" 2000 4 60) "genre_top")
    = VStr "pop".
Proof.
  assert (H : (length (JsSet.of_list (genre_of <$> four_tracks)) ≤ 10)%nat)
    by (vm_compute; lia).
  destruct (focus_views_exact four_tracks (num_of_Z 2000) "rock" H)
    as (Hs & Hp & Hh).
  split; [|split; [|split; [|split; [|split]]]].
  - apply Hp. split; [by left|]. by repeat split.
  - intros Hin. apply Hp in Hin as (_ & _ & _ & Hg). discriminate Hg.
  - intros Hin. apply Hp in Hin as (_ & _ & Hy & _). discriminate Hy.
  - apply Hs. split; [do 3 right; by left|]. by repeat split.
  - intros Hin. apply Hs in Hin as (_ & _ & _ & Hg). discriminate Hg.
  - apply (Hh (track "b" "pop" 2000 4 60)).
    apply elem_of_filter_bool. split; [right; by left|reflexivity].
Defined.
